(** * CodingSnake server core: a shallow embedding and its properties

    The models below follow the C++ sources under [server/src] and
    [server/include]: grid points and directions, the snake chain with its
    mirror set, the world state with its food indices, the map manager's
    collision classifier and food generators, and the player manager's
    account login.

    Conventions.
    - A C++ [int] or [long long] is a [Z].  Counters, lengths and grid
      sizes are used far inside their range and no modulus is applied to
      them.  The coordinates of a snake's head are the exception: a move
      adds or subtracts one with no bound check, so the head step reduces
      its result to the 32-bit range ([int_wrap]), which is what the build
      computes at the ends of the range (the C++ standard leaves that case
      undefined).  A [std::size_t] is a [Z] reduced modulo [2^64] where
      the source subtracts.
    - [std::deque] and [std::vector] are lists with the front at the head of
      the list; [std::set] and [std::unordered_set] are [gset];
      [std::map] and [std::unordered_map] are [gmap].
    - A [std::shared_ptr<Player>] is an [option Player]; [None] is the null
      pointer.
    - An operation whose source has undefined behaviour on some state
      (indexing an empty deque, say) returns [None] on that state. *)

From Stdlib Require Import ZArith Ascii String.
From stdpp Require Import gmap strings list fin_maps.

Local Open Scope Z_scope.

(* ===================================================================== *)
(** ** models/Point.h *)
(* ===================================================================== *)

Record Point := mkPoint { x : Z; y : Z }.

(** The value that an [int] holds after [+= 1] or [-= 1] on a
    coordinate: the exact result when it fits 32 bits, and the result
    wrapped round [2^32] into the range from [-2^31] to [2^31 - 1] when it
    does not. *)
Definition int_wrap (z : Z) : Z := (z + 2 ^ 31) mod 2 ^ 32 - 2 ^ 31.

#[global] Instance Point_eq_dec : EqDecision Point.
Proof. solve_decision. Defined.

#[global] Instance Point_countable : Countable Point.
Proof.
  apply (inj_countable' (λ p, (x p, y p)) (λ q, mkPoint q.1 q.2)).
  by intros [].
Defined.

Module PointOps.

(** [Point::operator==] *)
Definition eqb (a b : Point) : bool :=
  (x a =? x b) && (y a =? y b).

(** [Point::operator<] *)
Definition ltb (a b : Point) : bool :=
  if x a =? x b then y a <? y b else x a <? x b.

(** [Point::Null] and [Point::isNull] *)
Definition Null : Point := mkPoint (-1) (-1).
Definition isNull (p : Point) : bool := (x p =? -1) && (y p =? -1).

(** [Point()] *)
Definition zero : Point := mkPoint 0 0.

(** [PointHash::operator()]: each coordinate is cast to [uint32_t] and
    widened to [uint64_t]; the result is [(ux << 32) ^ uy] as a 64-bit
    [size_t]. *)
Definition hash (p : Point) : Z :=
  let ux := x p mod 2 ^ 32 in
  let uy := y p mod 2 ^ 32 in
  Z.lxor (Z.shiftl ux 32 mod 2 ^ 64) uy.

End PointOps.

(* ===================================================================== *)
(** ** models/Direction.h, models/Direction.cpp *)
(* ===================================================================== *)

Inductive Direction := UP | DOWN | LEFT | RIGHT | NONE.

#[global] Instance Direction_eq_dec : EqDecision Direction.
Proof. solve_decision. Defined.

Module DirectionUtils.

(** [std::toupper] on an [unsigned char] in the "C" locale: the 26 lower
    case letters move down by 32, every other byte is kept. *)
Definition toupper (c : ascii) : ascii :=
  let n := N_of_ascii c in
  if ((97 <=? n) && (n <=? 122))%N then ascii_of_N (n - 32) else c.

(** [std::transform(..., toupper)] over the whole string. *)
Fixpoint transform_toupper (s : string) : string :=
  match s with
  | EmptyString => EmptyString
  | String c rest => String (toupper c) (transform_toupper rest)
  end.

(** [DirectionUtils::fromString]; [None] is the thrown
    [std::invalid_argument]. *)
Definition fromString (str : string) : option Direction :=
  let upper_str := transform_toupper str in
  if String.eqb upper_str "UP" then Some UP
  else if String.eqb upper_str "DOWN" then Some DOWN
  else if String.eqb upper_str "LEFT" then Some LEFT
  else if String.eqb upper_str "RIGHT" then Some RIGHT
  else if String.eqb upper_str "NONE" then Some NONE
  else None.

(** [DirectionUtils::toString] (the [default] branch is unreachable for a
    value of the enumeration). *)
Definition toString (dir : Direction) : string :=
  match dir with
  | UP => "UP"
  | DOWN => "DOWN"
  | LEFT => "LEFT"
  | RIGHT => "RIGHT"
  | NONE => "NONE"
  end.

(** [DirectionUtils::isOpposite] *)
Definition isOpposite (dir1 dir2 : Direction) : bool :=
  match dir1, dir2 with
  | UP, DOWN | DOWN, UP | LEFT, RIGHT | RIGHT, LEFT => true
  | _, _ => false
  end.

(** [DirectionUtils::getOpposite] *)
Definition getOpposite (dir : Direction) : Direction :=
  match dir with
  | UP => DOWN
  | DOWN => UP
  | LEFT => RIGHT
  | RIGHT => LEFT
  | NONE => NONE
  end.

End DirectionUtils.

(* ===================================================================== *)
(** ** models/Snake.h, models/Snake.cpp *)
(* ===================================================================== *)

Module Snake.

Record Snake := mkSnake {
  blocks_ : list Point;          (* blocks_[0] is the head *)
  blockSet_ : gset Point;
  currentDirection_ : Direction;
  invincibleRounds_ : Z;
  alive_ : bool;
  growthPending_ : Z
}.

(** [Snake::MoveResult] with its default member initialisers. *)
Record MoveResult := mkMoveResult {
  moved : bool;
  newHead : Point;
  tailRemoved : bool;
  removedTail : Point
}.

Definition noMove : MoveResult :=
  mkMoveResult false PointOps.zero false PointOps.zero.

(** [Snake::Snake()] *)
Definition default : Snake :=
  mkSnake [] ∅ NONE 0 false 0.

(** [Snake::Snake(initialHead, initialLength)]; [None] is the thrown
    [std::invalid_argument]. *)
Definition create (initialHead : Point) (initialLength : Z) : option Snake :=
  if initialLength <? 1 then None
  else Some (mkSnake [initialHead] {[ initialHead ]} NONE 0 true
                     (initialLength - 1)).

(** The head after one step in direction [d] ([None] for [NONE]): the
    [switch] of [moveWithDelta], [newHead.y -= 1] and its three
    siblings, on [int] coordinates. *)
Definition step (d : Direction) (h : Point) : option Point :=
  match d with
  | UP => Some (mkPoint (x h) (int_wrap (y h - 1)))
  | DOWN => Some (mkPoint (x h) (int_wrap (y h + 1)))
  | LEFT => Some (mkPoint (int_wrap (x h - 1)) (y h))
  | RIGHT => Some (mkPoint (int_wrap (x h + 1)) (y h))
  | NONE => None
  end.

(** [std::deque::pop_back] together with [back]: the chain without its
    last cell, and that cell. *)
Definition pop_back (l : list Point) : option (list Point * Point) :=
  match last l with
  | Some t => Some (removelast l, t)
  | None => None
  end.

(** [Snake::moveWithDelta].  The result is [None] only where the source
    reads [blocks_[0]] of an empty deque. *)
Definition moveWithDelta (s : Snake) : option (MoveResult * Snake) :=
  if negb (alive_ s) then Some (noMove, s)
  else
    match currentDirection_ s with
    | NONE => Some (noMove, s)
    | d =>
      match blocks_ s with
      | [] => None
      | head :: _ =>
        match step d head with
        | None => Some (noMove, s)
        | Some nh =>
          if 0 <? growthPending_ s then
            Some (mkMoveResult true nh false PointOps.zero,
                  mkSnake (nh :: blocks_ s)
                          ({[ nh ]} ∪ blockSet_ s)
                          (currentDirection_ s)
                          (invincibleRounds_ s)
                          (alive_ s)
                          (growthPending_ s - 1))
          else
            match pop_back (blocks_ s) with
            | None => None
            | Some (rest, tail) =>
              Some (mkMoveResult true nh true tail,
                    mkSnake (nh :: rest)
                            ({[ nh ]} ∪ (blockSet_ s ∖ {[ tail ]}))
                            (currentDirection_ s)
                            (invincibleRounds_ s)
                            (alive_ s)
                            (growthPending_ s))
            end
        end
      end
    end.

(** [Snake::move] discards the result. *)
Definition move (s : Snake) : option Snake := snd <$> moveWithDelta s.

(** [Snake::grow] *)
Definition grow (s : Snake) : Snake :=
  mkSnake (blocks_ s) (blockSet_ s) (currentDirection_ s)
          (invincibleRounds_ s) (alive_ s) (growthPending_ s + 1).

(** [Snake::getHead]; [None] is the thrown [std::logic_error]. *)
Definition getHead (s : Snake) : option Point := head (blocks_ s).

(** [Snake::getLength] *)
Definition getLength (s : Snake) : Z := Z.of_nat (length (blocks_ s)).

(** [Snake::setDirection] *)
Definition setDirection (dir : Direction) (s : Snake) : Snake :=
  if negb (bool_decide (currentDirection_ s = NONE))
     && DirectionUtils.isOpposite (currentDirection_ s) dir
  then s
  else mkSnake (blocks_ s) (blockSet_ s) dir
               (invincibleRounds_ s) (alive_ s) (growthPending_ s).

(** [Snake::setInvincibleRounds] *)
Definition setInvincibleRounds (rounds : Z) (s : Snake) : Snake :=
  mkSnake (blocks_ s) (blockSet_ s) (currentDirection_ s)
          rounds (alive_ s) (growthPending_ s).

(** [Snake::kill] *)
Definition kill (s : Snake) : Snake :=
  mkSnake [] ∅ (currentDirection_ s) (invincibleRounds_ s) false
          (growthPending_ s).

(** [Snake::decreaseInvincibleRounds] *)
Definition decreaseInvincibleRounds (s : Snake) : Snake :=
  if 0 <? invincibleRounds_ s
  then setInvincibleRounds (invincibleRounds_ s - 1) s
  else s.

(** [Snake::collidesWithSelf] *)
Definition collidesWithSelf (point : Point) (s : Snake) : bool :=
  if (length (blocks_ s) <=? 1)%nat then false
  else
    match blocks_ s with
    | front :: _ =>
      if PointOps.eqb point front then false
      else bool_decide (point ∈ blockSet_ s)
    | [] => bool_decide (point ∈ blockSet_ s)
    end.

(** [Snake::collidesWithBody] *)
Definition collidesWithBody (point : Point) (s : Snake) : bool :=
  bool_decide (point ∈ blockSet_ s).

End Snake.

(* ===================================================================== *)
(** ** models/Food.h, models/Player.h *)
(* ===================================================================== *)

Record Food := mkFood { position_ : Point }.

#[global] Instance Food_eq_dec : EqDecision Food.
Proof. solve_decision. Defined.

Module Player.

Record Player := mkPlayer {
  uid_ : string;
  id_ : string;
  name_ : string;
  color_ : string;
  key_ : string;
  token_ : string;
  snake_ : Snake.Snake;
  inGame_ : bool
}.

Definition getId (p : Player) : string := id_ p.
Definition getSnake (p : Player) : Snake.Snake := snake_ p.
Definition isInGame (p : Player) : bool := inGame_ p.

(** Writing through [Player::getSnake()] (the non-const reference). *)
Definition withSnake (s : Snake.Snake) (p : Player) : Player :=
  mkPlayer (uid_ p) (id_ p) (name_ p) (color_ p) (key_ p) (token_ p)
           s (inGame_ p).

(** [Player::setInGame] *)
Definition setInGame (inGame : bool) (p : Player) : Player :=
  let s := if negb inGame && Snake.alive_ (snake_ p)
           then Snake.kill (snake_ p) else snake_ p in
  mkPlayer (uid_ p) (id_ p) (name_ p) (color_ p) (key_ p) (token_ p)
           s inGame.

(** [Player::initSnake]; [None] is the exception of the [Snake]
    constructor. *)
Definition initSnake (position : Point) (initialLength : Z) (p : Player)
    : option Player :=
  (λ s, withSnake s p) <$> Snake.create position initialLength.

End Player.

(* ===================================================================== *)
(** ** managers/MapManager.h, managers/MapManager.cpp *)
(* ===================================================================== *)

Module MapManager.

Record MapManager := mkMapManager { width_ : Z; height_ : Z }.

Inductive CollisionType := NONE | WALL | SELF | OTHER_SNAKE.

#[global] Instance CollisionType_eq_dec : EqDecision CollisionType.
Proof. solve_decision. Defined.

(** [MapManager::isValidPosition] *)
Definition isValidPosition (mm : MapManager) (pos : Point) : bool :=
  (0 <=? x pos) && (x pos <? width_ mm)
  && (0 <=? y pos) && (y pos <? height_ mm).

(** [MapManager::isOutOfBounds] *)
Definition isOutOfBounds (mm : MapManager) (pos : Point) : bool :=
  negb (isValidPosition mm pos).

(** The loop of [MapManager::checkCollision] over [allPlayers]: [true]
    where the source returns [OTHER_SNAKE] from inside the loop. *)
Fixpoint hitsOtherSnake (player : Player.Player) (newPos : Point)
    (allPlayers : list (option Player.Player)) : bool :=
  match allPlayers with
  | [] => false
  | None :: rest => hitsOtherSnake player newPos rest
  | Some otherPlayer :: rest =>
    if String.eqb (Player.getId otherPlayer) (Player.getId player)
    then hitsOtherSnake player newPos rest
    else if negb (Player.isInGame otherPlayer)
    then hitsOtherSnake player newPos rest
    else if negb (Snake.alive_ (Player.getSnake otherPlayer))
    then hitsOtherSnake player newPos rest
    else if Snake.collidesWithBody newPos (Player.getSnake otherPlayer)
    then true
    else hitsOtherSnake player newPos rest
  end.

(** [MapManager::checkCollision]; the invincibility reads of the source
    only choose whether a debug line is logged. *)
Definition checkCollision (mm : MapManager) (player : Player.Player)
    (newPos : Point) (allPlayers : list (option Player.Player))
    : CollisionType :=
  let currentSnake := Player.getSnake player in
  if isOutOfBounds mm newPos then WALL
  else if Snake.collidesWithSelf newPos currentSnake then SELF
  else if hitsOtherSnake player newPos allPlayers then OTHER_SNAKE
  else NONE.

(** [MapManager::isPositionOccupied] *)
Fixpoint isPositionOccupied (pos : Point)
    (players : list (option Player.Player)) : bool :=
  match players with
  | [] => false
  | None :: rest => isPositionOccupied pos rest
  | Some player :: rest =>
    let snake := Player.getSnake player in
    if negb (Player.isInGame player) || negb (Snake.alive_ snake)
    then isPositionOccupied pos rest
    else if Snake.collidesWithBody pos snake then true
    else isPositionOccupied pos rest
  end.

(** [MapManager::isFoodAt] *)
Definition isFoodAt (pos : Point) (foods : list Food) : bool :=
  existsb (λ food, PointOps.eqb (position_ food) pos) foods.

(** The [occupiedPoints] vector that [isSafeArea] builds: the chains of
    the in-game players with a live snake, in the order of the list. *)
Fixpoint occupiedPoints (players : list (option Player.Player))
    : list Point :=
  match players with
  | [] => []
  | None :: rest => occupiedPoints rest
  | Some player :: rest =>
    if negb (Player.isInGame player) then occupiedPoints rest
    else if negb (Snake.alive_ (Player.getSnake player))
    then occupiedPoints rest
    else Snake.blocks_ (Player.getSnake player) ++ occupiedPoints rest
  end.

(** The values [-radius, ..., radius] of the two [for] loops. *)
Definition offsets (radius : Z) : list Z := seqZ (- radius) (2 * radius + 1).

(** [MapManager::isSafeArea] *)
Definition isSafeArea (mm : MapManager) (center : Point) (radius : Z)
    (players : list (option Player.Player)) : bool :=
  let occupied := occupiedPoints players in
  forallb
    (λ dy,
       forallb
         (λ dx,
            let p := mkPoint (x center + dx) (y center + dy) in
            if negb (isValidPosition mm p) then true
            else negb (existsb (λ o, PointOps.eqb p o) occupied))
         (offsets radius))
    (offsets radius).

(** [const int maxAttemptsPerFood = 100] of both generators. *)
Definition maxAttemptsPerFood : nat := 100.

(** The food generators draw from [rng_], a [std::mt19937].  The engine
    is abstract here: [uniform_int a b g] is the value that
    [std::uniform_int_distribution<int>(a, b)] yields from engine state
    [g], with the state that follows. *)
Section Generators.
Context {Rng : Type} (uniform_int : Z → Z → Rng → Z * Rng).

(** [Point candidate{distX(rng_), distY(rng_)}] *)
Definition drawCandidate (mm : MapManager) (g : Rng) : Point * Rng :=
  let '(cx, g1) := uniform_int 0 (width_ mm - 1) g in
  let '(cy, g2) := uniform_int 0 (height_ mm - 1) g1 in
  (mkPoint cx cy, g2).

(** The request after the "too many foods" reduction. *)
Definition reducedCount (mm : MapManager) (count : Z) : Z :=
  let totalCells := width_ mm * height_ mm in
  if totalCells ÷ 2 <? count then Z.max 1 (totalCells ÷ 2) else count.

(** Inner loop of [generateFoodFast]: the accepted candidate, if one of
    the next [attempts] draws passes the four tests. *)
Fixpoint attemptFast (mm : MapManager)
    (occupiedCounts : gmap Point Z) (existingFoods : gset Point)
    (generatedPositions : gset Point) (attempts : nat) (g : Rng)
    : option Point * Rng :=
  match attempts with
  | O => (None, g)
  | S attempts' =>
    let '(candidate, g') := drawCandidate mm g in
    if negb (isValidPosition mm candidate)
    then attemptFast mm occupiedCounts existingFoods
                     generatedPositions attempts' g'
    else if bool_decide (candidate ∈ existingFoods)
    then attemptFast mm occupiedCounts existingFoods
                     generatedPositions attempts' g'
    else if bool_decide (candidate ∈ generatedPositions)
    then attemptFast mm occupiedCounts existingFoods
                     generatedPositions attempts' g'
    else if bool_decide (is_Some (occupiedCounts !! candidate))
    then attemptFast mm occupiedCounts existingFoods
                     generatedPositions attempts' g'
    else (Some candidate, g')
  end.

(** Outer loop of [generateFoodFast], [n] foods still to place. *)
Fixpoint loopFast (mm : MapManager)
    (occupiedCounts : gmap Point Z) (existingFoods : gset Point)
    (n : nat) (foods : list Food) (generatedPositions : gset Point)
    (g : Rng) : list Food * Rng :=
  match n with
  | O => (foods, g)
  | S n' =>
    match attemptFast mm occupiedCounts existingFoods
                      generatedPositions maxAttemptsPerFood g with
    | (Some candidate, g') =>
      loopFast mm occupiedCounts existingFoods n'
               (foods ++ [mkFood candidate])
               ({[ candidate ]} ∪ generatedPositions) g'
    | (None, g') =>
      loopFast mm occupiedCounts existingFoods n'
               foods generatedPositions g'
    end
  end.

(** [MapManager::generateFoodFast] *)
Definition generateFoodFast (mm : MapManager) (count : Z)
    (occupiedCounts : gmap Point Z) (existingFoods : gset Point)
    (g : Rng) : list Food * Rng :=
  if count <=? 0 then ([], g)
  else if (width_ mm <=? 0) || (height_ mm <=? 0) then ([], g)
  else loopFast mm occupiedCounts existingFoods
                (Z.to_nat (reducedCount mm count)) [] ∅ g.

(** Inner loop of [generateFood]. *)
Fixpoint attemptSlow (mm : MapManager)
    (players : list (option Player.Player))
    (generatedPositions : gset Point) (attempts : nat) (g : Rng)
    : option Point * Rng :=
  match attempts with
  | O => (None, g)
  | S attempts' =>
    let '(candidate, g') := drawCandidate mm g in
    if negb (isValidPosition mm candidate)
    then attemptSlow mm players generatedPositions attempts' g'
    else if bool_decide (candidate ∈ generatedPositions)
    then attemptSlow mm players generatedPositions attempts' g'
    else if isPositionOccupied candidate players
    then attemptSlow mm players generatedPositions attempts' g'
    else (Some candidate, g')
  end.

(** Outer loop of [generateFood]. *)
Fixpoint loopSlow (mm : MapManager)
    (players : list (option Player.Player))
    (n : nat) (foods : list Food) (generatedPositions : gset Point)
    (g : Rng) : list Food * Rng :=
  match n with
  | O => (foods, g)
  | S n' =>
    match attemptSlow mm players generatedPositions
                      maxAttemptsPerFood g with
    | (Some candidate, g') =>
      loopSlow mm players n' (foods ++ [mkFood candidate])
               ({[ candidate ]} ∪ generatedPositions) g'
    | (None, g') => loopSlow mm players n' foods generatedPositions g'
    end
  end.

(** [MapManager::generateFood] *)
Definition generateFood (mm : MapManager) (count : Z)
    (players : list (option Player.Player)) (g : Rng)
    : list Food * Rng :=
  if count <=? 0 then ([], g)
  else if (width_ mm <=? 0) || (height_ mm <=? 0) then ([], g)
  else loopSlow mm players (Z.to_nat (reducedCount mm count)) [] ∅ g.



End Generators.

End MapManager.

(* ===================================================================== *)
(** ** models/GameState.h, models/GameState.cpp *)
(* ===================================================================== *)

Module GameState.

Record GameState := mkGameState {
  currentRound_ : Z;
  players_ : list (option Player.Player);
  foods_ : list Food;
  foodSet_ : gset Point;
  foodIndex_ : gmap Point Z;       (* position -> index into foods_ *)
  timestamp_ : Z;
  nextRoundTimestamp_ : Z;
  joinedPlayers_ : list string;
  diedPlayers_ : list string;
  addedFoods_ : list Point;
  removedFoods_ : list Point
}.

(** [GameState::GameState()] *)
Definition initial : GameState :=
  mkGameState 0 [] [] ∅ ∅ 0 0 [] [] [] [].

(** Subtraction of two [std::size_t] values, as in [foods_.size() - 1]:
    it wraps round [2^64] when the result would be negative. *)
Definition size_t_sub (a b : Z) : Z :=
  if a <? b then a - b + 2 ^ 64 else a - b.

(** [v[i]] of a vector; [None] when [i] is not an index of [v]. *)
Definition vec_at {A} (v : list A) (i : Z) : option A :=
  if (0 <=? i) && (i <? Z.of_nat (length v)) then v !! Z.to_nat i
  else None.

(** [v[i] = a] for an index [i] of [v]. *)
Definition vec_set {A} (v : list A) (i : Z) (a : A) : list A :=
  <[Z.to_nat i := a]> v.

(** [GameState::incrementRound] *)
Definition incrementRound (st : GameState) : GameState :=
  mkGameState (currentRound_ st + 1) (players_ st) (foods_ st)
    (foodSet_ st) (foodIndex_ st) (timestamp_ st) (nextRoundTimestamp_ st)
    (joinedPlayers_ st) (diedPlayers_ st) (addedFoods_ st)
    (removedFoods_ st).

(** [GameState::clearDeltaTracking] *)
Definition clearDeltaTracking (st : GameState) : GameState :=
  mkGameState (currentRound_ st) (players_ st) (foods_ st)
    (foodSet_ st) (foodIndex_ st) (timestamp_ st) (nextRoundTimestamp_ st)
    [] [] [] [].

(** [GameState::reset]: the round, [players_], [foods_] and the two
    timestamps are cleared, then the delta buffers; [foodSet_] and
    [foodIndex_] are not assigned. *)
Definition reset (st : GameState) : GameState :=
  clearDeltaTracking
    (mkGameState 0 [] [] (foodSet_ st) (foodIndex_ st) 0 0
       (joinedPlayers_ st) (diedPlayers_ st) (addedFoods_ st)
       (removedFoods_ st)).

(** The test [p && p->getId() == playerId] used by the player lookups. *)
Definition hasId (playerId : string) (p : option Player.Player) : bool :=
  match p with
  | Some q => String.eqb (Player.getId q) playerId
  | None => false
  end.

(** [GameState::addPlayer] *)
Definition addPlayer (player : option Player.Player) (st : GameState)
    : GameState :=
  match player with
  | None => st
  | Some p =>
    if existsb (hasId (Player.getId p)) (players_ st) then st
    else mkGameState (currentRound_ st) (players_ st ++ [Some p])
           (foods_ st) (foodSet_ st) (foodIndex_ st) (timestamp_ st)
           (nextRoundTimestamp_ st) (joinedPlayers_ st) (diedPlayers_ st)
           (addedFoods_ st) (removedFoods_ st)
  end.

(** [GameState::removePlayer]: [std::remove_if] keeps, in order, the
    entries that fail the test. *)
Definition removePlayer (playerId : string) (st : GameState) : GameState :=
  mkGameState (currentRound_ st)
    (List.filter (λ p, negb (hasId playerId p)) (players_ st))
    (foods_ st) (foodSet_ st) (foodIndex_ st) (timestamp_ st)
    (nextRoundTimestamp_ st) (joinedPlayers_ st) (diedPlayers_ st)
    (addedFoods_ st) (removedFoods_ st).

(** [GameState::getPlayer] *)
Definition getPlayer (playerId : string) (st : GameState)
    : option Player.Player :=
  mjoin (List.find (hasId playerId) (players_ st)).

(** The three food containers replaced together. *)
Definition withFood (foods : list Food) (foodSet : gset Point)
    (foodIndex : gmap Point Z) (st : GameState) : GameState :=
  mkGameState (currentRound_ st) (players_ st) foods foodSet foodIndex
    (timestamp_ st) (nextRoundTimestamp_ st) (joinedPlayers_ st)
    (diedPlayers_ st) (addedFoods_ st) (removedFoods_ st).

(** [GameState::addFood] *)
Definition addFood (food : Food) (st : GameState) : GameState :=
  let pos := position_ food in
  if bool_decide (pos ∈ foodSet_ st) then st
  else
    let foods := foods_ st ++ [food] in
    withFood foods ({[ pos ]} ∪ foodSet_ st)
      (<[pos := size_t_sub (Z.of_nat (length foods)) 1]> (foodIndex_ st))
      st.

(** [GameState::removeFood].  [None] where the source indexes [foods_]
    out of range or pops an empty vector. *)
Definition removeFood (position : Point) (st : GameState)
    : option GameState :=
  match foodIndex_ st !! position with
  | None => Some st
  | Some index =>
    let lastIndex := size_t_sub (Z.of_nat (length (foods_ st))) 1 in
    let swapped :=
      if index =? lastIndex then Some (foods_ st, foodIndex_ st)
      else
        match vec_at (foods_ st) index, vec_at (foods_ st) lastIndex with
        | Some atIndex, Some atLast =>
          let foods := vec_set (vec_set (foods_ st) index atLast)
                               lastIndex atIndex in
          let swappedPos := position_ atLast in
          Some (foods, <[swappedPos := index]> (foodIndex_ st))
        | _, _ => None
        end in
    match swapped with
    | None => None
    | Some ([], _) => None
    | Some (foods, foodIndex) =>
      Some (withFood (removelast foods) (foodSet_ st ∖ {[ position ]})
                     (delete position foodIndex) st)
    end
  end.

(** [GameState::clearFood] *)
Definition clearFood (st : GameState) : GameState :=
  withFood [] ∅ ∅ st.

(** [GameState::hasFoodAt] *)
Definition hasFoodAt (position : Point) (st : GameState) : bool :=
  bool_decide (position ∈ foodSet_ st).

(** [GameState::updateTimestamp]; [now] is the system clock's reading. *)
Definition updateTimestamp (now : Z) (st : GameState) : GameState :=
  mkGameState (currentRound_ st) (players_ st) (foods_ st)
    (foodSet_ st) (foodIndex_ st) now (nextRoundTimestamp_ st)
    (joinedPlayers_ st) (diedPlayers_ st) (addedFoods_ st)
    (removedFoods_ st).

(** [GameState::setNextRoundTimestamp] *)
Definition setNextRoundTimestamp (t : Z) (st : GameState) : GameState :=
  mkGameState (currentRound_ st) (players_ st) (foods_ st)
    (foodSet_ st) (foodIndex_ st) (timestamp_ st) t
    (joinedPlayers_ st) (diedPlayers_ st) (addedFoods_ st)
    (removedFoods_ st).

(** [GameState::trackPlayerJoined] *)
Definition trackPlayerJoined (playerId : string) (st : GameState)
    : GameState :=
  mkGameState (currentRound_ st) (players_ st) (foods_ st)
    (foodSet_ st) (foodIndex_ st) (timestamp_ st) (nextRoundTimestamp_ st)
    (joinedPlayers_ st ++ [playerId]) (diedPlayers_ st) (addedFoods_ st)
    (removedFoods_ st).

(** [GameState::trackPlayerDied] *)
Definition trackPlayerDied (playerId : string) (st : GameState)
    : GameState :=
  mkGameState (currentRound_ st) (players_ st) (foods_ st)
    (foodSet_ st) (foodIndex_ st) (timestamp_ st) (nextRoundTimestamp_ st)
    (joinedPlayers_ st) (diedPlayers_ st ++ [playerId]) (addedFoods_ st)
    (removedFoods_ st).

(** [GameState::trackFoodAdded] *)
Definition trackFoodAdded (position : Point) (st : GameState)
    : GameState :=
  mkGameState (currentRound_ st) (players_ st) (foods_ st)
    (foodSet_ st) (foodIndex_ st) (timestamp_ st) (nextRoundTimestamp_ st)
    (joinedPlayers_ st) (diedPlayers_ st) (addedFoods_ st ++ [position])
    (removedFoods_ st).

(** [GameState::trackFoodRemoved] *)
Definition trackFoodRemoved (position : Point) (st : GameState)
    : GameState :=
  mkGameState (currentRound_ st) (players_ st) (foods_ st)
    (foodSet_ st) (foodIndex_ st) (timestamp_ st) (nextRoundTimestamp_ st)
    (joinedPlayers_ st) (diedPlayers_ st) (addedFoods_ st)
    (removedFoods_ st ++ [position]).

(** The public mutators of the class, as commands. *)
Inductive Op :=
| OpIncrementRound
| OpReset
| OpAddPlayer (player : option Player.Player)
| OpRemovePlayer (playerId : string)
| OpAddFood (food : Food)
| OpRemoveFood (position : Point)
| OpClearFood
| OpUpdateTimestamp (now : Z)
| OpSetNextRoundTimestamp (t : Z)
| OpTrackPlayerJoined (playerId : string)
| OpTrackPlayerDied (playerId : string)
| OpTrackFoodAdded (position : Point)
| OpTrackFoodRemoved (position : Point)
| OpClearDeltaTracking.

Definition apply (op : Op) (st : GameState) : option GameState :=
  match op with
  | OpIncrementRound => Some (incrementRound st)
  | OpReset => Some (reset st)
  | OpAddPlayer p => Some (addPlayer p st)
  | OpRemovePlayer i => Some (removePlayer i st)
  | OpAddFood f => Some (addFood f st)
  | OpRemoveFood p => removeFood p st
  | OpClearFood => Some (clearFood st)
  | OpUpdateTimestamp now => Some (updateTimestamp now st)
  | OpSetNextRoundTimestamp t => Some (setNextRoundTimestamp t st)
  | OpTrackPlayerJoined i => Some (trackPlayerJoined i st)
  | OpTrackPlayerDied i => Some (trackPlayerDied i st)
  | OpTrackFoodAdded p => Some (trackFoodAdded p st)
  | OpTrackFoodRemoved p => Some (trackFoodRemoved p st)
  | OpClearDeltaTracking => Some (clearDeltaTracking st)
  end.

(** A sequence of commands, left to right. *)
Fixpoint run (ops : list Op) (st : GameState) : option GameState :=
  match ops with
  | [] => Some st
  | op :: rest =>
    match apply op st with
    | Some st' => run rest st'
    | None => None
    end
  end.

End GameState.

(* ===================================================================== *)
(** ** database/DatabaseManager.h: the [players] table *)
(* ===================================================================== *)

(** The SQLite database is seen through the statements that
    [PlayerManager] issues against
    [players(uid TEXT PRIMARY KEY, paste TEXT NOT NULL,
             key TEXT UNIQUE NOT NULL, created_at, last_login)].
    A statement fails when the manager is not connected or when it would
    break the primary key or the [UNIQUE] constraint; text values hold no
    NUL byte (they are bound as C strings), so they are stored as given. *)
Module DatabaseManager.

Record Row := mkRow {
  paste : string;
  key : string;
  created_at : Z;
  last_login : Z
}.

Record DatabaseManager := mkDb {
  connected_ : bool;
  players : gmap string Row       (* uid -> row *)
}.

(** Some row other than [uid]'s already carries [k]. *)
Definition keyTaken (uid k : string) (rows : gmap string Row) : bool :=
  bool_decide (map_Exists (λ u r, u ≠ uid ∧ key r = k) rows).

(** [SELECT key, paste FROM players WHERE uid = ?] followed by
    [rs.next()]: the row, if there is one. *)
Definition selectKeyPaste (uid : string) (db : DatabaseManager)
    : option (string * string) :=
  if connected_ db
  then (λ r, (key r, paste r)) <$> players db !! uid
  else None.

(** [UPDATE players SET last_login = ? WHERE uid = ?] *)
Definition updateLastLogin (now : Z) (uid : string) (db : DatabaseManager)
    : bool * DatabaseManager :=
  if connected_ db
  then (true,
        mkDb true (alter (λ r, mkRow (paste r) (key r) (created_at r) now)
                         uid (players db)))
  else (false, db).

(** [UPDATE players SET paste = ?, key = ?, last_login = ? WHERE uid = ?] *)
Definition updatePasteKey (p k : string) (now : Z) (uid : string)
    (db : DatabaseManager) : bool * DatabaseManager :=
  if connected_ db then
    match players db !! uid with
    | None => (true, db)
    | Some r =>
      if keyTaken uid k (players db) then (false, db)
      else (true, mkDb true (<[uid := mkRow p k (created_at r) now]>
                               (players db)))
    end
  else (false, db).

(** [INSERT INTO players (uid, paste, key, created_at, last_login)
     VALUES (?, ?, ?, ?, ?)] *)
Definition insertPlayer (uid p k : string) (created login : Z)
    (db : DatabaseManager) : bool * DatabaseManager :=
  if connected_ db then
    match players db !! uid with
    | Some _ => (false, db)
    | None =>
      if keyTaken uid k (players db) then (false, db)
      else (true, mkDb true (<[uid := mkRow p k created login]>
                               (players db)))
    end
  else (false, db).

(** [SELECT uid FROM players WHERE key = ?] followed by [rs.next()]:
    the first row that carries the key. *)
Definition selectUidByKey (k : string) (db : DatabaseManager)
    : option string :=
  if connected_ db
  then fst <$> head (map_to_list (filter (λ ur, key ur.2 = k) (players db)))
  else None.

End DatabaseManager.

(* ===================================================================== *)
(** ** utils/Validator.h, utils/Validator.cpp *)
(* ===================================================================== *)

Module Validator.

(** [isdigit], [iscntrl] and [isspace] of the "C" locale, and the
    hexadecimal character class of the colour pattern. *)
Definition isdigit (c : ascii) : bool :=
  let n := N_of_ascii c in ((48 <=? n) && (n <=? 57))%N.

Definition iscntrl (c : ascii) : bool :=
  let n := N_of_ascii c in ((n <? 32) || (n =? 127))%N.

Definition isspace (c : ascii) : bool :=
  let n := N_of_ascii c in ((n =? 32) || ((9 <=? n) && (n <=? 13)))%N.

Definition isHexDigit (c : ascii) : bool :=
  let n := N_of_ascii c in
  (((48 <=? n) && (n <=? 57)) || ((65 <=? n) && (n <=? 70))
   || ((97 <=? n) && (n <=? 102)))%N.

Definition chars (s : string) : list ascii := list_ascii_of_string s.

(** [Validator::isValidUid] *)
Definition isValidUid (uid : string) : bool :=
  if (String.length uid =? 0)%nat || (10 <? String.length uid)%nat
  then false
  else forallb isdigit (chars uid).

(** [Validator::isValidPlayerName] *)
Definition isValidPlayerName (name : string) : bool :=
  if (String.length name =? 0)%nat || (20 <? String.length name)%nat
  then false
  else negb (existsb iscntrl (chars name)).

(** [Validator::isHexColor]: a whole-string match of
    [^#([0-9A-Fa-f]{6}|[0-9A-Fa-f]{3})$]. *)
Definition isHexColor (color : string) : bool :=
  match color with
  | String "#" digits =>
    ((String.length digits =? 6)%nat || (String.length digits =? 3)%nat)
    && forallb isHexDigit (chars digits)
  | _ => false
  end.

(** [Validator::isValidColor] *)
Definition isValidColor (color : string) : bool := isHexColor color.

(** [Validator::isValidDirection] *)
Definition isValidDirection (direction : string) : bool :=
  String.eqb direction "up" || String.eqb direction "down"
  || String.eqb direction "left" || String.eqb direction "right".

(** The value of one hexadecimal digit. *)
Definition hexValue (c : ascii) : option Z :=
  let n := Z.of_N (N_of_ascii c) in
  if (48 <=? n) && (n <=? 57) then Some (n - 48)
  else if (65 <=? n) && (n <=? 70) then Some (n - 55)
  else if (97 <=? n) && (n <=? 102) then Some (n - 87)
  else None.

(** [std::stoi(hex, nullptr, 16)] on the two characters after a percent
    sign, as [strtol] reads them: white space is skipped, a sign is
    taken, then as many hexadecimal digits as follow; [None] is the
    [std::invalid_argument] thrown when no digit was read. *)
Definition stoi16 (a b : ascii) : option Z :=
  match hexValue a with
  | Some va =>
    match hexValue b with
    | Some vb => Some (16 * va + vb)
    | None => Some va
    end
  | None =>
    if isspace a then hexValue b
    else if Ascii.eqb a "+" then hexValue b
    else if Ascii.eqb a "-" then Z.opp <$> hexValue b
    else None
  end.

(** [static_cast<char>(value)] *)
Definition toChar (value : Z) : ascii :=
  ascii_of_N (Z.to_N (value mod 256)).

(** [Validator::urlDecode], on the characters of the string. *)
Fixpoint urlDecodeChars (s : list ascii) : list ascii :=
  match s with
  | [] => []
  | c :: rest =>
    if Ascii.eqb c "%" then
      match rest with
      | a :: b :: rest' =>
        match stoi16 a b with
        | Some value => toChar value :: urlDecodeChars rest'
        | None => c :: urlDecodeChars rest
        end
      | _ => c :: urlDecodeChars rest
      end
    else if Ascii.eqb c "+" then " "%char :: urlDecodeChars rest
    else c :: urlDecodeChars rest
  end.

Definition urlDecode (str : string) : string :=
  string_of_list_ascii (urlDecodeChars (chars str)).

End Validator.

(* ===================================================================== *)
(** ** managers/PlayerManager.h, managers/PlayerManager.cpp *)
(* ===================================================================== *)

Module PlayerManager.

Record PlayerManager := mkPlayerManager {
  db_ : DatabaseManager.DatabaseManager;
  uidToKey_ : gmap string string;
  keyToUid_ : gmap string string;
  tokenToPlayerId_ : gmap string string;
  players_ : gmap string Player.Player
}.

(** What the surroundings answer during one call of [login]:
    [verified] is the result of [Validator::validateLuoguPaste(uid, paste)]
    (the universal paste or the fetch from the paste service), [now] the
    system clock, and [generated] the string that [generateKey(uid)]
    returns if it is called (a SHA-256 digest over the uid, the clock and
    a random number). *)
Record LoginEnv := mkLoginEnv {
  verified : bool;
  now : Z;
  generated : string
}.

(** [PlayerManager::checkLogin] *)
Definition checkLogin (env : LoginEnv) (uid paste : string) : bool :=
  verified env.

Definition withDb (db : DatabaseManager.DatabaseManager)
    (pm : PlayerManager) : PlayerManager :=
  mkPlayerManager db (uidToKey_ pm) (keyToUid_ pm) (tokenToPlayerId_ pm)
                  (players_ pm).

(** [PlayerManager::login]; the empty string is the failure result. *)
Definition login (env : LoginEnv) (uid paste : string)
    (pm : PlayerManager) : string * PlayerManager :=
  if negb (checkLogin env uid paste) then (""%string, pm)
  else
    match DatabaseManager.selectKeyPaste uid (db_ pm) with
    | Some (existingKey, existingPaste) =>
      if String.eqb existingPaste paste then
        let '(_, db) :=
          DatabaseManager.updateLastLogin (now env) uid (db_ pm) in
        (existingKey, withDb db pm)
      else
        let newKey := generated env in
        let '(success, db) :=
          DatabaseManager.updatePasteKey paste newKey (now env) uid
                                         (db_ pm) in
        if negb success then (""%string, withDb db pm)
        else
          (newKey,
           mkPlayerManager db
             (<[uid := newKey]> (uidToKey_ pm))
             (<[newKey := uid]> (delete existingKey (keyToUid_ pm)))
             (tokenToPlayerId_ pm) (players_ pm))
    | None =>
      let key := generated env in
      let '(success, db) :=
        DatabaseManager.insertPlayer uid paste key (now env) (now env)
                                     (db_ pm) in
      if negb success then (""%string, withDb db pm)
      else
        (key,
         mkPlayerManager db
           (<[uid := key]> (uidToKey_ pm))
           (<[key := uid]> (keyToUid_ pm))
           (tokenToPlayerId_ pm) (players_ pm))
    end.

(** [PlayerManager::validateKey]: the uid, or [None] for [false]. *)
Definition validateKey (key : string) (pm : PlayerManager)
    : option string :=
  match keyToUid_ pm !! key with
  | Some uid => Some uid
  | None => DatabaseManager.selectUidByKey key (db_ pm)
  end.

(** [PlayerManager::validateToken] *)
Definition validateToken (token : string) (pm : PlayerManager)
    : option string :=
  tokenToPlayerId_ pm !! token.

(** [PlayerManager::JoinResult] *)
Record JoinResult := mkJoinResult {
  success : bool;
  token : string;
  playerId : string;
  errorMsg : string
}.

Definition joinError (msg : string) : JoinResult :=
  mkJoinResult false "" "" msg.

(** What the generators answer during one call of [join]:
    [generateRandomColor()], [generatePlayerId(uid)] and
    [generateToken(playerId)]. *)
Record JoinEnv := mkJoinEnv {
  randomColor : string;
  newPlayerId : string;
  newToken : string
}.

(** The test of step 4 of [join]: some stored player has this uid and is
    in game. *)
Definition uidInGame (uid : string) (pm : PlayerManager) : bool :=
  bool_decide
    (map_Exists (λ _ p, Player.uid_ p = uid ∧ Player.inGame_ p = true)
                (players_ pm)).

(** [PlayerManager::join] *)
Definition join (env : JoinEnv) (key name color : string)
    (pm : PlayerManager) : JoinResult * PlayerManager :=
  match validateKey key pm with
  | None => (joinError "Invalid key", pm)
  | Some uid =>
    if negb (Validator.isValidPlayerName name)
    then (joinError "Invalid player name", pm)
    else
      let chosen :=
        if (String.length color =? 0)%nat then Some (randomColor env)
        else if negb (Validator.isValidColor color) then None
        else Some color in
      match chosen with
      | None => (joinError "Invalid color format", pm)
      | Some playerColor =>
        if uidInGame uid pm then (joinError "Player already in game", pm)
        else
          let playerId := newPlayerId env in
          let token := newToken env in
          let player :=
            Player.setInGame true
              (Player.mkPlayer uid playerId name playerColor key token
                               Snake.default false) in
          (mkJoinResult true token playerId "",
           mkPlayerManager (db_ pm) (uidToKey_ pm) (keyToUid_ pm)
             (<[token := playerId]> (tokenToPlayerId_ pm))
             (<[playerId := player]> (players_ pm)))
      end
  end.

(** [PlayerManager::getPlayerById] *)
Definition getPlayerById (playerId : string) (pm : PlayerManager)
    : option Player.Player :=
  players_ pm !! playerId.

(** [PlayerManager::getPlayerByToken] *)
Definition getPlayerByToken (token : string) (pm : PlayerManager)
    : option Player.Player :=
  match tokenToPlayerId_ pm !! token with
  | Some playerId => getPlayerById playerId pm
  | None => None
  end.

(** [PlayerManager::removePlayer] *)
Definition removePlayer (playerId : string) (pm : PlayerManager)
    : PlayerManager :=
  match players_ pm !! playerId with
  | Some player =>
    mkPlayerManager (db_ pm) (uidToKey_ pm) (keyToUid_ pm)
      (delete (Player.token_ player) (tokenToPlayerId_ pm))
      (delete playerId (players_ pm))
  | None => pm
  end.

(** [PlayerManager::isPlayerInGame] *)
Definition isPlayerInGame (playerId : string) (pm : PlayerManager) : bool :=
  match players_ pm !! playerId with
  | Some player => Player.isInGame player
  | None => false
  end.

(** [PlayerManager::getPlayerCount] *)
Definition getPlayerCount (pm : PlayerManager) : Z :=
  Z.of_nat (size (players_ pm)).

(** [PlayerManager::removeAllPlayers] *)
Definition removeAllPlayers (pm : PlayerManager) : PlayerManager :=
  mkPlayerManager (db_ pm) (uidToKey_ pm) (keyToUid_ pm) ∅ ∅.

End PlayerManager.

(* ===================================================================== *)
(** ** adapter/CodingSnake.hpp: the client's view of the world *)
(* ===================================================================== *)

Module Client.

(** [Point::distance] *)
Definition distance (a b : Point) : Z :=
  Z.abs (x a - x b) + Z.abs (y a - y b).

(** [Point::distanceSquared] *)
Definition distanceSquared (a b : Point) : Z :=
  let dx := x a - x b in
  let dy := y a - y b in
  dx * dx + dy * dy.

(** [Point::operator<] of the adapter *)
Definition ltb (a b : Point) : bool :=
  if negb (x a =? x b) then x a <? x b else y a <? y b.

(** [struct Snake] *)
Record Snake := mkSnake {
  id : string;
  name : string;
  color : string;
  head : Point;
  blocks : list Point;          (* blocks[0] is the head *)
  length : Z;
  invincible_rounds : Z
}.

(** [Snake::contains] *)
Definition contains (p : Point) (s : Snake) : bool :=
  existsb (λ block, PointOps.eqb block p) (blocks s).

(** [Snake::isInvincible] *)
Definition isInvincible (s : Snake) : bool := 0 <? invincible_rounds s.

(** [while (size > new_length) blocks.pop_back()]; [None] where the
    loop would pop an empty vector.  [fuel] bounds the iterations. *)
Fixpoint shrinkTo (fuel : nat) (new_length : Z) (bs : list Point)
    : option (list Point) :=
  if new_length <? Z.of_nat (List.length bs) then
    match fuel, bs with
    | S fuel', _ :: _ => shrinkTo fuel' new_length (removelast bs)
    | _, _ => None
    end
  else Some bs.

(** [while (size < new_length) blocks.push_back(blocks.back())] on a
    vector that is not empty: [n] copies of the last block. *)
Definition growBy (n : nat) (bs : list Point) : list Point :=
  match last bs with
  | Some b => bs ++ replicate n b
  | None => bs
  end.

(** One record of [delta["players"]], as [parseDeltaState] reads it. *)
Record PlayerDelta := mkPlayerDelta {
  new_head : Point;
  new_length : Z;
  new_invincible_rounds : Z
}.

(** The body of the loop over [delta["players"]] in
    [CodingSnake::parseDeltaState], for a player that is found. *)
Definition applyPlayerDelta (d : PlayerDelta) (s : Snake)
    : option Snake :=
  let updated :=
    if negb (PointOps.eqb (head s) (new_head d)) then
      let inserted := new_head d :: blocks s in
      shrinkTo (List.length inserted) (new_length d) inserted
    else if negb (Z.of_nat (List.length (blocks s)) =? new_length d) then
      let bs := match blocks s with [] => [head s] | _ => blocks s end in
      Some (growBy (Z.to_nat (new_length d - Z.of_nat (List.length bs))) bs)
    else Some (blocks s) in
  (λ bs, mkSnake (id s) (name s) (color s) (new_head d) bs
                 (new_length d) (new_invincible_rounds d)) <$> updated.

End Client.

(* ===================================================================== *)
(** * Vocabulary of the properties *)
(* ===================================================================== *)

(** ** Directions and snakes *)

(** The opposite pairs, as the data model lists them: UP with DOWN and
    LEFT with RIGHT. *)
Inductive opposite_pair : Direction → Direction → Prop :=
| opp_up_down : opposite_pair UP DOWN
| opp_down_up : opposite_pair DOWN UP
| opp_left_right : opposite_pair LEFT RIGHT
| opp_right_left : opposite_pair RIGHT LEFT.

(** The five names that the parser knows. *)
Definition directionNames : list string :=
  ["UP"; "DOWN"; "LEFT"; "RIGHT"; "NONE"]%string.

(** The character that stands in [bigs] where [c] stands in [smalls];
    [c] itself when it does not occur there. *)
Fixpoint capitalIn (smalls bigs : string) (c : ascii) : ascii :=
  match smalls, bigs with
  | String small smalls', String big bigs' =>
    if Ascii.eqb c small then big else capitalIn smalls' bigs' c
  | _, _ => c
  end.

(** The capital of a letter, by its place in the alphabet; every other
    character is its own capital. *)
Definition capital (c : ascii) : ascii :=
  capitalIn "abcdefghijklmnopqrstuvwxyz" "ABCDEFGHIJKLMNOPQRSTUVWXYZ" c.

(** A string written in capitals. *)
Fixpoint upperCase (s : string) : string :=
  match s with
  | EmptyString => EmptyString
  | String c rest => String (capital c) (upperCase rest)
  end.

(** [small] is a lower-case letter and [big] the same letter as a
    capital: in ASCII the two are 32 apart. *)
Definition letterPair (small big : ascii) : Prop :=
  (97 ≤ N_of_ascii small ≤ 122)%N
  ∧ (N_of_ascii big + 32 = N_of_ascii small)%N.

(** The same character, or the same letter in the other case. *)
Definition sameLetter (a b : ascii) : Prop :=
  a = b ∨ letterPair a b ∨ letterPair b a.

(** Two strings that differ at most in the case of their letters. *)
Fixpoint caseVariant (s t : string) : Prop :=
  match s, t with
  | EmptyString, EmptyString => True
  | String a s', String b t' => sameLetter a b ∧ caseVariant s' t'
  | _, _ => False
  end.

(** Every cell of the mirror set lies on the chain.  Each operation of
    [Snake] keeps this (see [chainCovers_moveWithDelta] and its siblings). *)
Definition chainCovers (s : Snake.Snake) : Prop :=
  ∀ p, p ∈ Snake.blockSet_ s → p ∈ Snake.blocks_ s.

(** Scenario S1 of the specification: the chain (3,3),(2,3),(1,3) heading
    RIGHT with nothing left to grow. *)
Definition cruisingSnake : Snake.Snake :=
  Snake.mkSnake [mkPoint 3 3; mkPoint 2 3; mkPoint 1 3]
    ({[ mkPoint 3 3 ]} ∪ ({[ mkPoint 2 3 ]} ∪ {[ mkPoint 1 3 ]}))
    RIGHT 0 true 0.




(** ** Collisions *)

(** The cell lies on the [W] by [H] grid, or outside it. *)
Definition inBounds (mm : MapManager.MapManager) (p : Point) : Prop :=
  0 ≤ x p < MapManager.width_ mm ∧ 0 ≤ y p < MapManager.height_ mm.

Definition outOfBounds (mm : MapManager.MapManager) (p : Point) : Prop :=
  ¬ inBounds mm p.

(** The player's own body cells, the cell of the current head left out,
    contain [p]. *)
Definition hitsOwnBody (player : Player.Player) (p : Point) : Prop :=
  p ∈ Snake.blockSet_ (Player.snake_ player)
  ∧ head (Snake.blocks_ (Player.snake_ player)) ≠ Some p.

(** The body set of some other live, in-game snake contains [p]. *)
Definition hitsOtherBody (player : Player.Player) (p : Point)
    (allPlayers : list (option Player.Player)) : Prop :=
  ∃ other, Some other ∈ allPlayers
    ∧ Player.id_ other ≠ Player.id_ player
    ∧ Player.inGame_ other = true
    ∧ Snake.alive_ (Player.snake_ other) = true
    ∧ p ∈ Snake.blockSet_ (Player.snake_ other).

(** Two players that differ at most in the invincibility counter of their
    snakes. *)
Definition sameButInvincible (p q : Player.Player) : Prop :=
  ∃ rounds,
    q = Player.withSnake
          (Snake.setInvincibleRounds rounds (Player.snake_ p)) p.

(** A player record for examples. *)
Definition examplePlayer (ident : string) (s : Snake.Snake) (inGame : bool)
    : Player.Player :=
  Player.mkPlayer "1"%string ident "n"%string "#FFFFFF"%string ""%string
                  ""%string s inGame.

(** A ten by ten arena with two snakes: A is [cruisingSnake]; B stands
    upright in front of it and is invincible for two more rounds. *)
Definition arena : MapManager.MapManager := MapManager.mkMapManager 10 10.

Definition playerA : Player.Player := examplePlayer "A" cruisingSnake true.

Definition playerB : Player.Player :=
  examplePlayer "B"
    (Snake.mkSnake [mkPoint 4 3; mkPoint 4 4]
       ({[ mkPoint 4 3 ]} ∪ {[ mkPoint 4 4 ]}) UP 2 true 0)
    true.

Definition arenaPlayers : list (option Player.Player) :=
  [Some playerA; None; Some playerB].

(** ** Food generation *)

(** Some live, in-game snake of the list has [p] in its body set. *)
Definition onLiveSnake (p : Point)
    (players : list (option Player.Player)) : Prop :=
  ∃ other, Some other ∈ players
    ∧ Player.inGame_ other = true
    ∧ Snake.alive_ (Player.snake_ other) = true
    ∧ p ∈ Snake.blockSet_ (Player.snake_ other).

(** What a food cell accepted by the fast generator satisfies: in bounds,
    no food there yet, no entry in the occupancy index. *)
Definition acceptableFast (mm : MapManager.MapManager)
    (occupiedCounts : gmap Point Z) (existingFoods : gset Point)
    (f : Food) : Prop :=
  inBounds mm (position_ f)
  ∧ (position_ f ∉ existingFoods)
  ∧ occupiedCounts !! position_ f = None.

(** What a food cell accepted by the slow generator satisfies: in bounds
    and on no live in-game snake. *)
Definition acceptableSlow (mm : MapManager.MapManager)
    (players : list (option Player.Player)) (f : Food) : Prop :=
  inBounds mm (position_ f) ∧ ¬ onLiveSnake (position_ f) players.

(** A generator engine for examples: state [n] answers [a + n mod (b-a+1)]
    to a draw from [a..b] and moves to [n+1]. *)
Definition counterRng (a b : Z) (n : nat) : Z * nat :=
  (a + Z.of_nat n mod (b - a + 1), S n).

(** ** The food indices of the world state *)

(** The food at index [j] of the vector is recorded under its position
    with index [j]. *)
Definition indexCoversVector (st : GameState.GameState) : Prop :=
  ∀ (j : nat) (f : Food),
    GameState.foods_ st !! j = Some f →
    GameState.foodIndex_ st !! position_ f = Some (Z.of_nat j).

(** The food vector holds a food at the position. *)
Definition foodAt (pos : Point) (st : GameState.GameState) : Prop :=
  ∃ f, f ∈ GameState.foods_ st ∧ position_ f = pos.

(** The position set and the index map have the same keys. *)
Definition keysAgree (st : GameState.GameState) : Prop :=
  ∀ p, p ∈ GameState.foodSet_ st ↔ is_Some (GameState.foodIndex_ st !! p).

(** Every position of the set is the position of a food in the vector. *)
Definition setWithinVector (st : GameState.GameState) : Prop :=
  ∀ p, p ∈ GameState.foodSet_ st → p ∈ position_ <$> GameState.foods_ st.

(** Every entry of the index map points at a food of the vector that lies
    at the entry's position. *)
Definition indexPointsAtFood (st : GameState.GameState) : Prop :=
  ∀ (p : Point) (i : Z),
    GameState.foodIndex_ st !! p = Some i →
    GameState.vec_at (GameState.foods_ st) i = Some (mkFood p).

(** The food indices are mutually consistent: the position set is the set
    of positions in the vector, these are pairwise distinct, and the map
    sends each food's position to its index. *)
Definition foodConsistent (st : GameState.GameState) : Prop :=
  (∀ p, p ∈ GameState.foodSet_ st ↔ p ∈ position_ <$> GameState.foods_ st)
  ∧ NoDup (position_ <$> GameState.foods_ st)
  ∧ indexCoversVector st.

(** What every state of the class satisfies, [reset] included: the vector
    is covered by the index map, and the set and the map share their
    keys. *)
Definition foodReachable (st : GameState.GameState) : Prop :=
  indexCoversVector st ∧ keysAgree st.

(** The invariant that the food operations other than [reset] maintain. *)
Definition foodSound (st : GameState.GameState) : Prop :=
  foodReachable st ∧ setWithinVector st.

(** A world state with two players, two foods, a round and a delta log. *)
Definition busyWorld : option GameState.GameState :=
  GameState.run
    [GameState.OpAddPlayer (Some playerA);
     GameState.OpTrackPlayerJoined "A";
     GameState.OpAddPlayer (Some playerB);
     GameState.OpAddFood (mkFood (mkPoint 4 3));
     GameState.OpTrackFoodAdded (mkPoint 4 3);
     GameState.OpAddFood (mkFood (mkPoint 7 7));
     GameState.OpIncrementRound;
     GameState.OpUpdateTimestamp 1706342400000;
     GameState.OpSetNextRoundTimestamp 1706342400500]
    GameState.initial.

Definition busyWorldState : GameState.GameState :=
  default GameState.initial busyWorld.

(** The state after one food at (1,1) has been added and the world has
    been reset. *)
Definition afterReset : GameState.GameState :=
  GameState.reset (GameState.addFood (mkFood (mkPoint 1 1)) GameState.initial).

(** Two foods, a reset, and a third food: the run that leaves the
    entries of the first two foods behind in the set and the index map. *)
Definition staleWorld : option GameState.GameState :=
  GameState.run
    [GameState.OpAddFood (mkFood (mkPoint 1 1));
     GameState.OpAddFood (mkFood (mkPoint 2 2));
     GameState.OpReset;
     GameState.OpAddFood (mkFood (mkPoint 3 3))]
    GameState.initial.

Definition staleWorldState : GameState.GameState :=
  default GameState.initial staleWorld.

(** ** Accounts *)

(** No two rows of the [players] table carry the same key (the table's
    [UNIQUE] constraint). *)
Definition keysUnique (db : DatabaseManager.DatabaseManager) : Prop :=
  ∀ u1 u2 r1 r2,
    DatabaseManager.players db !! u1 = Some r1 →
    DatabaseManager.players db !! u2 = Some r2 →
    DatabaseManager.key r1 = DatabaseManager.key r2 → u1 = u2.

(** No row of the table carries [k]: the key is new. *)
Definition freshKey (k : string) (db : DatabaseManager.DatabaseManager)
    : Prop :=
  ∀ u r, DatabaseManager.players db !! u = Some r →
         DatabaseManager.key r ≠ k.

(** A player manager just constructed over an empty, connected database,
    and the answers of the surroundings to three logins. *)
Definition freshManager : PlayerManager.PlayerManager :=
  PlayerManager.mkPlayerManager (DatabaseManager.mkDb true ∅) ∅ ∅ ∅ ∅.

Definition firstLogin : PlayerManager.LoginEnv :=
  PlayerManager.mkLoginEnv true 1000 "5f2a".

Definition secondLogin : PlayerManager.LoginEnv :=
  PlayerManager.mkLoginEnv true 2000 "9c41".

Definition thirdLogin : PlayerManager.LoginEnv :=
  PlayerManager.mkLoginEnv true 3000 "07be".


(* ===================================================================== *)
(** * Vocabulary of the further properties *)
(* ===================================================================== *)

(** ** Points and snakes *)

(** Both coordinates fit a 32-bit [int]. *)
Definition int32Point (p : Point) : Prop :=
  - 2 ^ 31 ≤ x p < 2 ^ 31 ∧ - 2 ^ 31 ≤ y p < 2 ^ 31.

(** The point lies at least [margin] cells inside the range of a 32-bit
    [int] in both axes, so that [margin] steps in any direction do not
    overflow a coordinate. *)
Definition insideInt (margin : Z) (p : Point) : Prop :=
  (- 2 ^ 31 + margin ≤ x p < 2 ^ 31 - margin)
  ∧ (- 2 ^ 31 + margin ≤ y p < 2 ^ 31 - margin).

(** Two cells that differ by exactly one in exactly one axis. *)
Definition adjacent (a b : Point) : Prop :=
  Z.abs (x a - x b) + Z.abs (y a - y b) = 1.

(** Every cell of the chain is adjacent to the next one. *)
Definition connected (l : list Point) : Prop :=
  ∀ (i : nat) a b, l !! i = Some a → l !! S i = Some b → adjacent a b.

(** The mutators of [Snake], as commands. *)
Inductive SnakeOp :=
| SMove
| SGrow
| SSetDirection (dir : Direction)
| SSetInvincibleRounds (rounds : Z)
| SKill
| SDecreaseInvincibleRounds.

Definition applySnake (op : SnakeOp) (s : Snake.Snake) : option Snake.Snake :=
  match op with
  | SMove => Snake.move s
  | SGrow => Some (Snake.grow s)
  | SSetDirection d => Some (Snake.setDirection d s)
  | SSetInvincibleRounds n => Some (Snake.setInvincibleRounds n s)
  | SKill => Some (Snake.kill s)
  | SDecreaseInvincibleRounds => Some (Snake.decreaseInvincibleRounds s)
  end.


(** What the data model asks of a snake: the chain is non-empty exactly
    when the snake is alive, the body set lies on the chain, adjacent
    chain cells are adjacent grid cells, and pending growth is not
    negative. *)
Definition snakeWellFormed (s : Snake.Snake) : Prop :=
  (Snake.alive_ s = true ↔ Snake.blocks_ s ≠ [])
  ∧ chainCovers s
  ∧ connected (Snake.blocks_ s)
  ∧ 0 ≤ Snake.growthPending_ s.

(** The head of the snake, if it has one, lies [margin] cells inside the
    range of an [int]. *)
Definition headInside (margin : Z) (s : Snake.Snake) : Prop :=
  ∀ h, head (Snake.blocks_ s) = Some h → insideInt margin h.

(** The body set is exactly the set of cells of the chain, and no cell
    occurs twice on the chain. *)
Definition exactMirror (s : Snake.Snake) : Prop :=
  (∀ p, p ∈ Snake.blockSet_ s ↔ p ∈ Snake.blocks_ s)
  ∧ NoDup (Snake.blocks_ s).

(** [n] moves in a row. *)
Fixpoint movesInARow (n : nat) (s : Snake.Snake) : option Snake.Snake :=
  match n with
  | O => Some s
  | S n' =>
    match Snake.move s with
    | Some s' => movesInARow n' s'
    | None => None
    end
  end.

(** The unit vector of a direction. *)
Definition unitVector (d : Direction) : Z * Z :=
  match d with
  | UP => (0, -1)
  | DOWN => (0, 1)
  | LEFT => (-1, 0)
  | RIGHT => (1, 0)
  | NONE => (0, 0)
  end.

(** [n] decrements of the invincibility counter. *)
Fixpoint decreaseTimes (n : nat) (s : Snake.Snake) : Snake.Snake :=
  match n with
  | O => s
  | S n' => decreaseTimes n' (Snake.decreaseInvincibleRounds s)
  end.

(** ** Spawning *)



(** ** The players of the world state *)

(** The ids of the entries of the player list, in order; a null entry has
    none. *)
Definition playerIds (st : GameState.GameState) : list string :=
  omap (fmap Player.getId) (GameState.players_ st).

(** The player list holds no null entry and no id twice. *)
Definition playersDistinct (st : GameState.GameState) : Prop :=
  (None ∉ GameState.players_ st) ∧ NoDup (playerIds st).

(** ** Sessions *)

(** Every cached key belongs to the row of its uid. *)
Definition cacheSound (pm : PlayerManager.PlayerManager) : Prop :=
  ∀ k u, PlayerManager.keyToUid_ pm !! k = Some u →
    ∃ r, DatabaseManager.players (PlayerManager.db_ pm) !! u = Some r
         ∧ DatabaseManager.key r = k.

(** The answers of the generators to two calls of [join]. *)
Definition firstJoin : PlayerManager.JoinEnv :=
  PlayerManager.mkJoinEnv "#00ff00" "p_42_123456" "tokenA".

Definition secondJoin : PlayerManager.JoinEnv :=
  PlayerManager.mkJoinEnv "#0000ff" "p_42_654321" "tokenB".

(** The manager after uid 42 has logged in once. *)
Definition loggedIn : PlayerManager.PlayerManager :=
  (PlayerManager.login firstLogin "42" "pasteA" freshManager).2.

(** ** Requests *)

(** The name of a direction in a move request. *)
Definition wireName (d : Direction) : string :=
  match d with
  | UP => "up"
  | DOWN => "down"
  | LEFT => "left"
  | RIGHT => "right"
  | NONE => "none"
  end.

(** ** Percent-encoding *)

(** The upper-case hexadecimal digit of a value below sixteen. *)
Definition hexDigit (v : N) : ascii :=
  if (v <? 10)%N then ascii_of_N (48 + v) else ascii_of_N (55 + v).

(** A byte written as a percent sign and two hexadecimal digits. *)
Definition percentEncode (c : ascii) : list ascii :=
  let n := N_of_ascii c in
  ["%"%char; hexDigit (n / 16); hexDigit (n mod 16)].

(** Every byte of the text percent-encoded. *)
Definition percentEncodeAll (s : list ascii) : list ascii :=
  flat_map percentEncode s.

(** ** The client's chain *)

(** Coordinates small enough that the differences and sums of the
    distance computations fit an [int]. *)
Definition smallPoint (p : Point) : Prop :=
  - 2 ^ 28 ≤ x p < 2 ^ 28 ∧ - 2 ^ 28 ≤ y p < 2 ^ 28.


(** A client snake that shows the chain of a server snake. *)
Definition mirrorsServer (c : Client.Snake) (s : Snake.Snake) : Prop :=
  Client.blocks c = Snake.blocks_ s
  ∧ head (Snake.blocks_ s) = Some (Client.head c).

(** The record that [GameState::toDeltaJson] publishes for a snake, as
    the client reads it: the first cell of the chain, the length and the
    invincibility counter.  A snake without cells has no head to
    publish. *)
Definition deltaOf (s : Snake.Snake) : option Client.PlayerDelta :=
  h ← head (Snake.blocks_ s);
  Some (Client.mkPlayerDelta h (Snake.getLength s)
                             (Snake.invincibleRounds_ s)).

(** The client's record of [cruisingSnake]. *)
Definition clientCruising : Client.Snake :=
  Client.mkSnake "A" "n" "#FFFFFF" (mkPoint 3 3)
    [mkPoint 3 3; mkPoint 2 3; mkPoint 1 3] 3 0.

(* ===================================================================== *)
(** * Properties *)
(* ===================================================================== *)

Section DirectionFacts.
Import DirectionUtils.

Lemma isOpposite_spec (a b : Direction) :
  isOpposite a b = true ↔ opposite_pair a b.
Proof.
  split.
  - destruct a, b; simpl; intros E; try discriminate E; constructor.
  - intros []; reflexivity.
Qed.

Lemma isOpposite_getOpposite (a b : Direction) :
  isOpposite a b = true ↔ a ≠ NONE ∧ b = getOpposite a.
Proof.
  destruct a, b; simpl; split; try discriminate; try done;
    intros [? ?]; congruence.
Qed.

Lemma toupper_idemp (c : ascii) : toupper (toupper c) = toupper c.
Proof.
  destruct c as [[] [] [] [] [] [] [] []]; vm_compute; reflexivity.
Qed.

Lemma transform_toupper_idemp (s : string) :
  transform_toupper (transform_toupper s) = transform_toupper s.
Proof.
  induction s as [|c s IH]; simpl; [done|].
  by rewrite toupper_idemp, IH.
Qed.

Lemma toString_upper (d : Direction) :
  transform_toupper (toString d) = toString d.
Proof. by destruct d. Qed.

(** The code's upper-casing is the upper-casing of the alphabet. *)
Lemma toupper_capital (c : ascii) : toupper c = capital c.
Proof.
  destruct c as [[] [] [] [] [] [] [] []]; vm_compute; reflexivity.
Qed.

Lemma transform_toupper_upperCase (s : string) :
  transform_toupper s = upperCase s.
Proof.
  induction s as [|c s IH]; simpl; [done|].
  by rewrite toupper_capital, IH.
Qed.

Lemma letterPair_toupper (a b : ascii) :
  letterPair a b → toupper a = b ∧ toupper b = b.
Proof.
  intros [Hr Hb]. unfold toupper. split.
  - assert (((97 <=? N_of_ascii a) && (N_of_ascii a <=? 122))%N = true)
      as ->.
    { apply andb_true_iff. rewrite !N.leb_le. lia. }
    replace (N_of_ascii a - 32)%N with (N_of_ascii b) by lia.
    apply ascii_N_embedding.
  - assert (((97 <=? N_of_ascii b) && (N_of_ascii b <=? 122))%N = false)
      as ->; [|done].
    apply andb_false_iff. rewrite !N.leb_gt. lia.
Qed.

Lemma sameLetter_toupper (a b : ascii) :
  sameLetter a b → toupper a = toupper b.
Proof.
  intros [->|[H|H]]; [done| |];
    apply letterPair_toupper in H as [H1 H2]; congruence.
Qed.

Lemma caseVariant_toupper (s t : string) :
  caseVariant s t → transform_toupper s = transform_toupper t.
Proof.
  revert t. induction s as [|a s IH]; intros [|b t]; simpl; try done.
  intros [Hab Hst]. by rewrite (sameLetter_toupper a b Hab), (IH t Hst).
Qed.

Lemma toString_inj (d e : Direction) : toString d = toString e → d = e.
Proof. destruct d, e; simpl; intros E; done || discriminate E. Qed.

Lemma fromString_Some (s : string) (d : Direction) :
  fromString s = Some d ↔ transform_toupper s = toString d.
Proof.
  unfold fromString. split.
  - repeat match goal with
           | |- context [String.eqb ?a ?b] =>
             destruct (String.eqb_spec a b) as [E|_];
               [intros [= <-]; exact E|]
           end.
    intros E; discriminate E.
  - intros ->. by destruct d.
Qed.

Lemma fromString_None (s : string) :
  fromString s = None ↔ ∀ d, transform_toupper s ≠ toString d.
Proof.
  split.
  - intros E d Hd. apply fromString_Some in Hd. congruence.
  - intros H. destruct (fromString s) as [d|] eqn:E; [|done].
    apply fromString_Some in E. by destruct (H d).
Qed.

End DirectionFacts.

Section SnakeFacts.
Import Snake.


Lemma pop_back_Some (l : list Point) (rest : list Point) (t : Point) :
  pop_back l = Some (rest, t) ↔ l = rest ++ [t].
Proof.
  unfold pop_back. split.
  - destruct (last l) as [t'|] eqn:E; [|done].
    intros [= <- <-]. apply last_Some in E as [l' ->].
    by rewrite removelast_last.
  - intros ->. by rewrite last_snoc, removelast_last.
Qed.

Lemma pop_back_nonempty (l : list Point) :
  l ≠ [] → ∃ rest t, pop_back l = Some (rest, t) ∧ last l = Some t.
Proof.
  intros Hl. destruct (last l) as [t|] eqn:E.
  - exists (removelast l), t. unfold pop_back. by rewrite E.
  - by apply last_None in E.
Qed.

Lemma step_Some (d : Direction) (h : Point) :
  d ≠ NONE → ∃ nh, step d h = Some nh.
Proof. destruct d; simpl; eauto. done. Qed.

Lemma int_wrap_small (z : Z) :
  - 2 ^ 31 ≤ z < 2 ^ 31 → int_wrap z = z.
Proof.
  intros Hz. unfold int_wrap. rewrite Z.mod_small by lia. lia.
Qed.

Lemma int_wrap_range (z : Z) : - 2 ^ 31 ≤ int_wrap z < 2 ^ 31.
Proof.
  unfold int_wrap.
  pose proof (Z.mod_pos_bound (z + 2 ^ 31) (2 ^ 32) eq_refl). lia.
Qed.

(** A coordinate never stays where it was. *)
Lemma int_wrap_moves (z : Z) : int_wrap (z + 1) ≠ z ∧ int_wrap (z - 1) ≠ z.
Proof.
  unfold int_wrap. split; intros E.
  - assert (H : (z + 1 + 2 ^ 31) mod 2 ^ 32 = z + 2 ^ 31) by lia.
    revert H. Z.div_mod_to_equations. lia.
  - assert (H : (z - 1 + 2 ^ 31) mod 2 ^ 32 = z + 2 ^ 31) by lia.
    revert H. Z.div_mod_to_equations. lia.
Qed.

(** The new head is never the old head. *)
Lemma step_new (d : Direction) (h nh : Point) :
  step d h = Some nh → nh ≠ h.
Proof.
  destruct h as [hx hy]. destruct (int_wrap_moves hx), (int_wrap_moves hy).
  destruct d; cbn [step x y]; intros [= <-]; try done;
    intros [= E]; done.
Qed.

(** Away from the ends of the [int] range a step adds the unit vector
    of its direction. *)
Lemma step_inside (d : Direction) (h nh : Point) :
  insideInt 1 h → step d h = Some nh →
  nh = mkPoint (x h + (unitVector d).1) (y h + (unitVector d).2).
Proof.
  intros [Hx Hy].
  destruct d; cbn [step unitVector fst snd]; intros [= <-];
    rewrite ?int_wrap_small by lia; destruct h; simpl; f_equal; lia.
Qed.

(** One accepted step moves the head by one cell along one axis. *)
Lemma step_adjacent (d : Direction) (h nh : Point) :
  insideInt 1 h →
  step d h = Some nh →
  (x nh = x h ∧ Z.abs (y nh - y h) = 1)
  ∨ (y nh = y h ∧ Z.abs (x nh - x h) = 1).
Proof.
  intros Hin Hs. rewrite (step_inside d h nh Hin Hs).
  destruct d; simpl in *; try done; lia.
Qed.

(** What [moveWithDelta] does to a live snake with a direction. *)
Lemma moveWithDelta_alive (s : Snake) (h : Point) (body : list Point) :
  alive_ s = true → currentDirection_ s ≠ NONE → blocks_ s = h :: body →
  ∃ nh rest tail,
    step (currentDirection_ s) h = Some nh
    ∧ blocks_ s = rest ++ [tail]
    ∧ moveWithDelta s =
        Some (if 0 <? growthPending_ s
              then (mkMoveResult true nh false PointOps.zero,
                    mkSnake (nh :: blocks_ s) ({[ nh ]} ∪ blockSet_ s)
                      (currentDirection_ s) (invincibleRounds_ s) true
                      (growthPending_ s - 1))
              else (mkMoveResult true nh true tail,
                    mkSnake (nh :: rest)
                      ({[ nh ]} ∪ (blockSet_ s ∖ {[ tail ]}))
                      (currentDirection_ s) (invincibleRounds_ s) true
                      (growthPending_ s))).
Proof.
  intros Ha Hd Hb.
  destruct (step_Some (currentDirection_ s) h Hd) as [nh Hnh].
  destruct (pop_back_nonempty (blocks_ s)) as (rest & tail & Hp & _);
    [by rewrite Hb|].
  exists nh, rest, tail. split; [done|].
  split; [by apply pop_back_Some|].
  unfold moveWithDelta. rewrite Ha, Hb. simpl negb. cbv iota.
  rewrite <- Hb, Hp.
  destruct (currentDirection_ s) eqn:Ed; try done;
    rewrite Hb, Hnh; destruct (0 <? growthPending_ s); by rewrite <- ?Hb.
Qed.

(** The mirror set stays inside the chain under every operation. *)
Lemma chainCovers_default : chainCovers default.
Proof. intros p. simpl. set_solver. Qed.

Lemma chainCovers_create (h : Point) (n : Z) (s : Snake) :
  create h n = Some s → chainCovers s.
Proof.
  unfold create. case_match; [done|]. intros [= <-] p. simpl. set_solver.
Qed.

Lemma chainCovers_moveWithDelta (s s' : Snake) (r : MoveResult) :
  chainCovers s → moveWithDelta s = Some (r, s') → chainCovers s'.
Proof.
  intros Hc Hm2.
  destruct (alive_ s) eqn:Ha.
  2: { unfold moveWithDelta in Hm2. rewrite Ha in Hm2.
       by injection Hm2 as _ <-. }
  destruct (decide (currentDirection_ s = NONE)) as [E|Hd].
  { unfold moveWithDelta in Hm2. rewrite Ha, E in Hm2.
    by injection Hm2 as _ <-. }
  destruct (blocks_ s) as [|h body] eqn:Hb.
  { unfold moveWithDelta in Hm2. rewrite Ha, Hb in Hm2.
    by destruct (currentDirection_ s). }
  destruct (moveWithDelta_alive s h body Ha Hd Hb)
    as (nh & rest & tail & Hs & Hr & Hm).
  rewrite Hm in Hm2. clear Hm.
  destruct (0 <? growthPending_ s); injection Hm2 as _ <-;
    intros p; simpl; rewrite elem_of_union, elem_of_singleton,
      elem_of_cons.
  - intros [->|Hp]; [by left|right]. by apply Hc.
  - rewrite elem_of_difference, elem_of_singleton.
    intros [->|[Hp Hne]]; [by left|right].
    apply Hc in Hp. rewrite Hr, elem_of_app, list_elem_of_singleton in Hp.
    by destruct Hp.
Qed.

Lemma chainCovers_grow (s : Snake) : chainCovers s → chainCovers (grow s).
Proof. done. Qed.

Lemma chainCovers_setDirection (d : Direction) (s : Snake) :
  chainCovers s → chainCovers (setDirection d s).
Proof. unfold setDirection. by case_match. Qed.

Lemma chainCovers_setInvincibleRounds (n : Z) (s : Snake) :
  chainCovers s → chainCovers (setInvincibleRounds n s).
Proof. done. Qed.

Lemma chainCovers_decreaseInvincibleRounds (s : Snake) :
  chainCovers s → chainCovers (decreaseInvincibleRounds s).
Proof. unfold decreaseInvincibleRounds. by case_match. Qed.


End SnakeFacts.

Section DirectionClaims.
Import DirectionUtils.

(** C7.  Parsing a direction is case-insensitive and decided by the five
    names.  With the upper-casing of the alphabet, not the parser's own:
    [fromString s] yields [d] exactly when [s] in capitals is the name
    of [d]; it succeeds exactly when [s] in capitals is one of "UP",
    "DOWN", "LEFT", "RIGHT", "NONE" and throws (here [None]) on every
    other string; two strings that differ only in the case of their
    letters get the same answer, as do [s] and [s] in capitals; and
    [fromString (toString d) = d] for every [d]. *)
Theorem fromString_case_insensitive_total (s : string) :
  (∀ d, fromString s = Some d ↔ upperCase s = toString d)
  ∧ (is_Some (fromString s) ↔ upperCase s ∈ directionNames)
  ∧ (fromString s = None ↔ upperCase s ∉ directionNames)
  ∧ (∀ t, caseVariant s t → fromString t = fromString s)
  ∧ fromString (upperCase s) = fromString s
  ∧ (∀ d, fromString (toString d) = Some d).
Proof.
  assert (Hnames : ∀ t, t ∈ directionNames ↔ ∃ d, t = toString d).
  { intros t. unfold directionNames.
    rewrite !elem_of_cons, elem_of_nil. split.
    - intros [->|[->|[->|[->|[->|[]]]]]];
        [by exists UP|by exists DOWN|by exists LEFT|by exists RIGHT
        |by exists NONE].
    - intros [[] ->]; simpl; tauto. }
  rewrite <- (transform_toupper_upperCase s).
  split; [apply fromString_Some|].
  split; [|split; [|split; [|split]]].
  - rewrite Hnames. split.
    + intros [d Hd]. exists d. by apply fromString_Some.
    + intros [d Hd]. exists d. by apply fromString_Some.
  - rewrite fromString_None, Hnames. split.
    + intros H [d Hd]. by apply (H d).
    + intros H d Hd. apply H. by exists d.
  - intros t Ht. apply caseVariant_toupper in Ht.
    unfold fromString. by rewrite Ht.
  - unfold fromString. by rewrite transform_toupper_idemp.
  - intros d. apply fromString_Some, toString_upper.
Qed.

Example fromString_wire_names :
  fromString "up" = Some UP ∧ fromString "Down" = Some DOWN
  ∧ fromString "lEfT" = Some LEFT ∧ fromString "right" = Some RIGHT
  ∧ fromString "none" = Some NONE ∧ fromString "" = None
  ∧ fromString "upward" = None ∧ fromString " UP" = None.
Proof. repeat split. Qed.

End DirectionClaims.

Section SnakeClaims.
Import Snake.

(** C3.  [setDirection D] refuses exactly the reversal of a direction
    that is set: when the current direction is not NONE and [D] is its
    opposite the snake is left as it is; in every other case the stored
    direction becomes [D] and nothing else changes.  So, right after the
    call, the stored direction is not the opposite of the non-NONE
    direction that was stored before it. *)
Theorem setDirection_never_reverses (s : Snake) (D : Direction) :
  (currentDirection_ s ≠ NONE → opposite_pair (currentDirection_ s) D →
     setDirection D s = s)
  ∧ (¬ (currentDirection_ s ≠ NONE ∧ opposite_pair (currentDirection_ s) D) →
     setDirection D s =
       mkSnake (blocks_ s) (blockSet_ s) D (invincibleRounds_ s)
               (alive_ s) (growthPending_ s))
  ∧ (currentDirection_ s ≠ NONE →
     ¬ opposite_pair (currentDirection_ s)
                     (currentDirection_ (setDirection D s))).
Proof.
  unfold setDirection. split; [|split].
  - intros Hn Ho. apply isOpposite_spec in Ho. rewrite Ho.
    by rewrite bool_decide_eq_false_2.
  - intros Hno.
    destruct (bool_decide_reflect (currentDirection_ s = NONE)) as [E|Hn];
      [done|]. simpl.
    destruct (DirectionUtils.isOpposite (currentDirection_ s) D) eqn:Ho;
      [|done].
    destruct Hno. split; [done|]. by apply isOpposite_spec.
  - intros Hn. rewrite bool_decide_eq_false_2 by done. simpl.
    destruct (DirectionUtils.isOpposite (currentDirection_ s) D) eqn:Ho.
    + destruct (currentDirection_ s); inversion 1.
    + simpl. intros Ho'. apply isOpposite_spec in Ho'. congruence.
Qed.

Lemma setDirection_never_reverses_witness :
  setDirection LEFT cruisingSnake = cruisingSnake
  ∧ currentDirection_ (setDirection UP cruisingSnake) = UP
  ∧ ¬ opposite_pair RIGHT (currentDirection_ (setDirection LEFT cruisingSnake)).
Proof.
  destruct (setDirection_never_reverses cruisingSnake LEFT) as (H1 & _ & H3).
  destruct (setDirection_never_reverses cruisingSnake UP) as (_ & H2 & _).
  split; [|split].
  - apply H1; [discriminate|constructor].
  - rewrite H2; [reflexivity|]. intros [_ Ho]. inversion Ho.
  - apply H3. discriminate.
Defined.

(** C9.  A dead snake does not move, and killing is idempotent: when
    [alive] is false [moveWithDelta] reports [moved = false] and returns
    the snake as it was (chain, body set, direction, pending growth and
    the rest); and for every snake [kill] after [kill] is [kill], which
    leaves [alive = false], an empty chain and an empty body set. *)
Theorem dead_snake_noop_kill_idempotent (s : Snake) :
  (alive_ s = false →
     ∃ r, moveWithDelta s = Some (r, s) ∧ moved r = false)
  ∧ kill (kill s) = kill s
  ∧ alive_ (kill s) = false
  ∧ blocks_ (kill s) = []
  ∧ blockSet_ (kill s) = ∅.
Proof.
  split; [|done].
  intros Ha. exists noMove. unfold moveWithDelta. by rewrite Ha.
Qed.

Lemma dead_snake_noop_kill_idempotent_witness :
  alive_ (kill cruisingSnake) = false
  ∧ ∃ r, moveWithDelta (kill cruisingSnake) = Some (r, kill cruisingSnake)
         ∧ moved r = false.
Proof.
  split; [reflexivity|].
  apply (dead_snake_noop_kill_idempotent (kill cruisingSnake)).
  reflexivity.
Defined.




(** Scenario S1: one tick RIGHT from (3,3),(2,3),(1,3). *)
Example scenario_S1 :
  (blocks_ ∘ snd <$> moveWithDelta cruisingSnake)
  = Some [mkPoint 4 3; mkPoint 3 3; mkPoint 2 3].
Proof. reflexivity. Qed.

End SnakeClaims.

Section CollisionFacts.
Import MapManager.

Lemma Point_eqb_spec (a b : Point) : PointOps.eqb a b = true ↔ a = b.
Proof.
  unfold PointOps.eqb. rewrite andb_true_iff, !Z.eqb_eq.
  destruct a, b; simpl. split; [by intros [-> ->]|by intros [= -> ->]].
Qed.

Lemma isOutOfBounds_spec (mm : MapManager) (p : Point) :
  isOutOfBounds mm p = true ↔ outOfBounds mm p.
Proof.
  unfold isOutOfBounds, isValidPosition, outOfBounds, inBounds.
  rewrite negb_true_iff, <- not_true_iff_false, !andb_true_iff,
    !Z.leb_le, !Z.ltb_lt.
  split; intros H1 H2; apply H1; lia.
Qed.

Lemma isValidPosition_spec (mm : MapManager) (p : Point) :
  isValidPosition mm p = true ↔ inBounds mm p.
Proof.
  unfold isValidPosition, inBounds.
  rewrite !andb_true_iff, !Z.leb_le, !Z.ltb_lt. lia.
Qed.

Lemma isPositionOccupied_spec (p : Point)
    (players : list (option Player.Player)) :
  isPositionOccupied p players = true ↔ onLiveSnake p players.
Proof.
  unfold onLiveSnake.
  induction players as [|[o|] rest IH]; simpl.
  - split; [done|]. intros (o & Ho & _). by apply elem_of_nil in Ho.
  - unfold Player.isInGame, Player.getSnake, Snake.collidesWithBody.
    destruct (Player.inGame_ o) eqn:Eg; simpl;
      [destruct (Snake.alive_ (Player.snake_ o)) eqn:Ea; simpl;
       [destruct (bool_decide_reflect
                    (p ∈ Snake.blockSet_ (Player.snake_ o))) as [Hp|Hp]|]
      |].
    1: { split; [|done]. intros _. exists o. by rewrite elem_of_cons; auto. }
    all: rewrite IH; split;
      [ intros (o' & Ho' & ?); exists o'; rewrite elem_of_cons; auto
      | intros (o' & Ho' & Hg & Hal & Hin); exists o';
        apply elem_of_cons in Ho' as [[= <-]|Ho']; [congruence|done] ].
  - rewrite IH. split.
    + intros (o' & Ho' & ?). exists o'. rewrite elem_of_cons. auto.
    + intros (o' & Ho' & ?). exists o'.
      apply elem_of_cons in Ho' as [?|Ho']; [done|auto].
Qed.

(** Where the set mirrors the chain and the candidate is not the head's
    own cell, hitting the own body is lying on the chain behind the
    head. *)
Lemma hitsOwnBody_chain (player : Player.Player) (p : Point) :
  Snake.blockSet_ (Player.snake_ player)
    = list_to_set (Snake.blocks_ (Player.snake_ player)) →
  head (Snake.blocks_ (Player.snake_ player)) ≠ Some p →
  hitsOwnBody player p ↔ p ∈ tail (Snake.blocks_ (Player.snake_ player)).
Proof.
  intros Hm Hh. unfold hitsOwnBody. rewrite Hm, elem_of_list_to_set.
  destruct (Snake.blocks_ (Player.snake_ player)) as [|h body]; simpl in *.
  - split; [by intros [? _]|]. intros H. by apply elem_of_nil in H.
  - rewrite elem_of_cons. split.
    + intros [[->|?] _]; done.
    + intros ?. split; [by right|done].
Qed.

Lemma collidesWithSelf_spec (player : Player.Player) (p : Point) :
  chainCovers (Player.snake_ player) →
  Snake.collidesWithSelf p (Player.snake_ player) = true
  ↔ hitsOwnBody player p.
Proof.
  intros Hc. unfold Snake.collidesWithSelf, hitsOwnBody.
  specialize (Hc p).
  destruct (Snake.blocks_ (Player.snake_ player)) as [|h [|h' body]];
    simpl.
  - split; [done|]. intros [Hp _]. apply Hc, elem_of_nil in Hp. done.
  - split; [done|]. intros [Hp Hne]. apply Hc, list_elem_of_singleton in Hp.
    by subst.
  - destruct (PointOps.eqb p h) eqn:E.
    + apply Point_eqb_spec in E as ->. split; [done|]. by intros [_ ?].
    + rewrite bool_decide_eq_true. split; [|by intros [? _]].
      intros Hp. split; [done|]. intros [= ->].
      apply not_true_iff_false in E. apply E. by apply Point_eqb_spec.
Qed.

Lemma hitsOtherSnake_spec (player : Player.Player) (p : Point)
    (allPlayers : list (option Player.Player)) :
  hitsOtherSnake player p allPlayers = true
  ↔ hitsOtherBody player p allPlayers.
Proof.
  unfold hitsOtherBody.
  induction allPlayers as [|[o|] rest IH]; simpl.
  - split; [done|]. intros (o & Ho & _). by apply elem_of_nil in Ho.
  - unfold Player.getId, Player.isInGame, Player.getSnake,
      Snake.collidesWithBody.
    destruct (String.eqb_spec (Player.id_ o) (Player.id_ player)) as [E|E];
      [|destruct (Player.inGame_ o) eqn:Eg; simpl;
        [destruct (Snake.alive_ (Player.snake_ o)) eqn:Ea; simpl;
         [destruct (bool_decide_reflect
                      (p ∈ Snake.blockSet_ (Player.snake_ o))) as [Hp|Hp]|]
        |]].
    2: { split; [|done]. intros _. exists o. by rewrite elem_of_cons; auto. }
    all: rewrite IH; split;
      [ intros (o' & Ho' & ?); exists o'; rewrite elem_of_cons; auto
      | intros (o' & Ho' & Hid & Hg & Hal & Hin); exists o';
        apply elem_of_cons in Ho' as [[= <-]|Ho']; [congruence|done] ].
  - rewrite IH. split.
    + intros (o' & Ho' & ?). exists o'. rewrite elem_of_cons. auto.
    + intros (o' & Ho' & ?). exists o'.
      apply elem_of_cons in Ho' as [?|Ho']; [done|auto].
Qed.

Lemma hitsOtherSnake_invincible (player player' : Player.Player)
    (p : Point) (allPlayers allPlayers' : list (option Player.Player)) :
  sameButInvincible player player' →
  Forall2 (option_Forall2 sameButInvincible) allPlayers allPlayers' →
  hitsOtherSnake player' p allPlayers' = hitsOtherSnake player p allPlayers.
Proof.
  intros [n ->] Hall.
  induction Hall as [|a b rest rest' Hab _ IH]; [done|].
  destruct Hab as [o o' [m ->]|]; simpl; [|exact IH].
  rewrite IH. reflexivity.
Qed.

End CollisionFacts.

Section CollisionClaims.
Import MapManager.

(** C1.  [checkCollision] classifies with a fixed priority.  For a player
    whose body set lies on its chain (every [Snake] operation keeps
    that): a candidate head out of bounds gives WALL; otherwise, if the
    player's own body cells without the cell of the current head contain
    it, SELF; otherwise, if the body set of any other live, in-game snake
    contains it, OTHER_SNAKE; otherwise NONE.  The result is the same for
    players that differ only in invincibility counters. *)
Theorem checkCollision_priority (mm : MapManager) (player : Player.Player)
    (newHeadPos : Point) (allPlayers : list (option Player.Player)) :
  chainCovers (Player.snake_ player) →
  (outOfBounds mm newHeadPos →
     checkCollision mm player newHeadPos allPlayers = WALL)
  ∧ (¬ outOfBounds mm newHeadPos → hitsOwnBody player newHeadPos →
     checkCollision mm player newHeadPos allPlayers = SELF)
  ∧ (¬ outOfBounds mm newHeadPos → ¬ hitsOwnBody player newHeadPos →
     hitsOtherBody player newHeadPos allPlayers →
     checkCollision mm player newHeadPos allPlayers = OTHER_SNAKE)
  ∧ (¬ outOfBounds mm newHeadPos → ¬ hitsOwnBody player newHeadPos →
     ¬ hitsOtherBody player newHeadPos allPlayers →
     checkCollision mm player newHeadPos allPlayers = NONE)
  ∧ (∀ player' allPlayers',
       sameButInvincible player player' →
       Forall2 (option_Forall2 sameButInvincible) allPlayers allPlayers' →
       checkCollision mm player' newHeadPos allPlayers'
       = checkCollision mm player newHeadPos allPlayers).
Proof.
  intros Hc.
  pose proof (isOutOfBounds_spec mm newHeadPos) as Hw.
  pose proof (collidesWithSelf_spec player newHeadPos Hc) as Hs.
  pose proof (hitsOtherSnake_spec player newHeadPos allPlayers) as Ho.
  unfold checkCollision, Player.getSnake.
  destruct (isOutOfBounds mm newHeadPos) eqn:Ew;
    destruct (Snake.collidesWithSelf newHeadPos (Player.snake_ player))
      eqn:Es;
    destruct (hitsOtherSnake player newHeadPos allPlayers) eqn:Eo;
    (split; [|split; [|split; [|split]]];
     [ intros; try done; exfalso; intuition congruence ..
     | intros player' allPlayers' Hp Hall;
       rewrite ?(hitsOtherSnake_invincible _ _ _ _ _ Hp Hall), ?Eo;
       destruct Hp as [n ->]; simpl;
       unfold Snake.collidesWithSelf in *; simpl; rewrite ?Es; done ]).
Qed.

Lemma chainCovers_mirror (s : Snake.Snake) :
  Snake.blockSet_ s = list_to_set (Snake.blocks_ s) → chainCovers s.
Proof. intros E p. rewrite E. apply elem_of_list_to_set. Qed.

Lemma checkCollision_priority_witness :
  chainCovers (Player.snake_ playerA)
  ∧ checkCollision arena playerA (mkPoint 10 3) arenaPlayers = WALL
  ∧ checkCollision arena playerA (mkPoint 2 3) arenaPlayers = SELF
  ∧ checkCollision arena playerA (mkPoint 4 3) arenaPlayers = OTHER_SNAKE
  ∧ checkCollision arena playerA (mkPoint 3 2) arenaPlayers = NONE
  ∧ checkCollision arena
      (Player.withSnake
         (Snake.setInvincibleRounds 5 (Player.snake_ playerA)) playerA)
      (mkPoint 4 3) arenaPlayers
    = checkCollision arena playerA (mkPoint 4 3) arenaPlayers.
Proof.
  assert (Hc : chainCovers (Player.snake_ playerA)).
  { apply chainCovers_mirror. vm_compute. reflexivity. }
  assert (Hin : ∀ p, isOutOfBounds arena p = false → ¬ outOfBounds arena p).
  { intros p E H. apply isOutOfBounds_spec in H. congruence. }
  assert (Hown : ∀ p, Snake.collidesWithSelf p (Player.snake_ playerA)
                      = false → ¬ hitsOwnBody playerA p).
  { intros p E H. apply (collidesWithSelf_spec _ _ Hc) in H. congruence. }
  split; [exact Hc|].
  split; [|split; [|split; [|split]]].
  - destruct (checkCollision_priority arena playerA (mkPoint 10 3)
                arenaPlayers Hc) as (Hwall & _).
    apply Hwall, isOutOfBounds_spec. reflexivity.
  - destruct (checkCollision_priority arena playerA (mkPoint 2 3)
                arenaPlayers Hc) as (_ & Hself & _).
    apply Hself.
    + apply Hin. reflexivity.
    + apply (collidesWithSelf_spec _ _ Hc). vm_compute. reflexivity.
  - destruct (checkCollision_priority arena playerA (mkPoint 4 3)
                arenaPlayers Hc) as (_ & _ & Hother & _).
    apply Hother.
    + apply Hin. reflexivity.
    + apply Hown. vm_compute. reflexivity.
    + apply hitsOtherSnake_spec. vm_compute. reflexivity.
  - destruct (checkCollision_priority arena playerA (mkPoint 3 2)
                arenaPlayers Hc) as (_ & _ & _ & Hnone & _).
    apply Hnone.
    + apply Hin. reflexivity.
    + apply Hown. vm_compute. reflexivity.
    + intros H. apply hitsOtherSnake_spec in H. vm_compute in H.
      discriminate H.
  - destruct (checkCollision_priority arena playerA (mkPoint 4 3)
                arenaPlayers Hc) as (_ & _ & _ & _ & Hinv).
    apply Hinv.
    + by exists 5.
    + repeat constructor.
      * by exists (Snake.invincibleRounds_ cruisingSnake).
      * by exists 2.
Defined.

End CollisionClaims.

Section GeneratorFacts.
Import MapManager.
Context {Rng : Type} (uniform_int : Z → Z → Rng → Z * Rng).

Lemma attemptFast_accepts (mm : MapManager) (occ : gmap Point Z)
    (existing generated : gset Point) (attempts : nat) (g g' : Rng)
    (c : Point) :
  attemptFast uniform_int mm occ existing generated attempts g
    = (Some c, g') →
  acceptableFast mm occ existing (mkFood c) ∧ c ∉ generated.
Proof.
  revert g. induction attempts as [|n IH]; intros g; simpl; [done|].
  destruct (drawCandidate uniform_int mm g) as [cand g1].
  destruct (isValidPosition mm cand) eqn:Ev; simpl; [|apply IH].
  destruct (bool_decide_reflect (cand ∈ existing)) as [?|He]; [apply IH|].
  destruct (bool_decide_reflect (cand ∈ generated)) as [?|Hg]; [apply IH|].
  destruct (bool_decide_reflect (is_Some (occ !! cand))) as [?|Ho];
    [apply IH|].
  intros [= <- <-]. split; [|done]. split; [|split].
  - by apply isValidPosition_spec.
  - done.
  - simpl. by apply eq_None_not_Some.
Qed.

Lemma loopFast_S (mm : MapManager) (occ : gmap Point Z)
    (existing : gset Point) (n : nat) (foods : list Food)
    (generated : gset Point) (g : Rng) :
  loopFast uniform_int mm occ existing (S n) foods generated g
  = match attemptFast uniform_int mm occ existing generated
            maxAttemptsPerFood g with
    | (Some candidate, g') =>
      loopFast uniform_int mm occ existing n (foods ++ [mkFood candidate])
               ({[ candidate ]} ∪ generated) g'
    | (None, g') => loopFast uniform_int mm occ existing n foods generated g'
    end.
Proof. reflexivity. Qed.

(** The outer loop keeps: accepted cells only, the chosen set mirroring
    the list, no repetition, and at most one food per round. *)
Lemma loopFast_invariant (mm : MapManager) (occ : gmap Point Z)
    (existing : gset Point) (n : nat) (foods : list Food)
    (generated : gset Point) (g : Rng) :
  Forall (acceptableFast mm occ existing) foods →
  (∀ p, p ∈ generated ↔ p ∈ position_ <$> foods) →
  NoDup (position_ <$> foods) →
  let out := (loopFast uniform_int mm occ existing n foods generated g).1 in
  Forall (acceptableFast mm occ existing) out
  ∧ NoDup (position_ <$> out)
  ∧ (length out ≤ length foods + n)%nat.
Proof.
  revert foods generated g.
  induction n as [|n IH]; intros foods generated g Hacc Hgen Hnd out.
  { subst out. cbn [loopFast fst]. split; [done|]. split; [done|lia]. }
  subst out. rewrite loopFast_S.
  destruct (attemptFast uniform_int mm occ existing generated
              maxAttemptsPerFood g) as [[c|] g1] eqn:Ea.
  - apply attemptFast_accepts in Ea as [Hc Hfresh].
    destruct (IH (foods ++ [mkFood c]) ({[ c ]} ∪ generated) g1)
      as (H1 & H2 & H3).
    + apply Forall_app. split; [done|]. by constructor.
    + intros p. rewrite fmap_app, elem_of_app, elem_of_union,
        elem_of_singleton, Hgen. simpl.
      rewrite list_elem_of_singleton. tauto.
    + rewrite fmap_app. apply NoDup_app. split; [done|].
      split; [|apply NoDup_singleton].
      intros p Hp. simpl. rewrite list_elem_of_singleton. intros ->.
      by apply Hfresh, Hgen.
    + split; [done|]. split; [done|].
      rewrite length_app in H3. simpl in H3. lia.
  - destruct (IH foods generated g1 Hacc Hgen Hnd) as (H1 & H2 & H3).
    split; [done|]. split; [done|]. lia.
Qed.

Lemma reducedCount_bounds (mm : MapManager) (count : Z) :
  0 < count →
  0 < reducedCount mm count ≤ count
  ∧ (width_ mm * height_ mm ÷ 2 < count →
     reducedCount mm count = Z.max 1 (width_ mm * height_ mm ÷ 2)).
Proof.
  intros Hc. unfold reducedCount.
  destruct (Z.ltb_spec (width_ mm * height_ mm ÷ 2) count); lia.
Qed.

Lemma attemptSlow_accepts (mm : MapManager)
    (players : list (option Player.Player)) (generated : gset Point)
    (attempts : nat) (g g' : Rng) (c : Point) :
  attemptSlow uniform_int mm players generated attempts g = (Some c, g') →
  acceptableSlow mm players (mkFood c) ∧ c ∉ generated.
Proof.
  revert g. induction attempts as [|n IH]; intros g; simpl; [done|].
  destruct (drawCandidate uniform_int mm g) as [cand g1].
  destruct (isValidPosition mm cand) eqn:Ev; simpl; [|apply IH].
  destruct (bool_decide_reflect (cand ∈ generated)) as [?|Hg]; [apply IH|].
  destruct (isPositionOccupied cand players) eqn:Eo; [apply IH|].
  intros [= <- <-]. split; [|done]. split.
  - by apply isValidPosition_spec.
  - simpl. rewrite <- isPositionOccupied_spec. congruence.
Qed.

Lemma loopSlow_S (mm : MapManager) (players : list (option Player.Player))
    (n : nat) (foods : list Food) (generated : gset Point) (g : Rng) :
  loopSlow uniform_int mm players (S n) foods generated g
  = match attemptSlow uniform_int mm players generated
            maxAttemptsPerFood g with
    | (Some candidate, g') =>
      loopSlow uniform_int mm players n (foods ++ [mkFood candidate])
               ({[ candidate ]} ∪ generated) g'
    | (None, g') => loopSlow uniform_int mm players n foods generated g'
    end.
Proof. reflexivity. Qed.

Lemma loopSlow_invariant (mm : MapManager)
    (players : list (option Player.Player)) (n : nat) (foods : list Food)
    (generated : gset Point) (g : Rng) :
  Forall (acceptableSlow mm players) foods →
  (∀ p, p ∈ generated ↔ p ∈ position_ <$> foods) →
  NoDup (position_ <$> foods) →
  let out := (loopSlow uniform_int mm players n foods generated g).1 in
  Forall (acceptableSlow mm players) out
  ∧ NoDup (position_ <$> out)
  ∧ (length out ≤ length foods + n)%nat.
Proof.
  revert foods generated g.
  induction n as [|n IH]; intros foods generated g Hacc Hgen Hnd out.
  { subst out. cbn [loopSlow fst]. split; [done|]. split; [done|lia]. }
  subst out. rewrite loopSlow_S.
  destruct (attemptSlow uniform_int mm players generated
              maxAttemptsPerFood g) as [[c|] g1] eqn:Ea.
  - apply attemptSlow_accepts in Ea as [Hc Hfresh].
    destruct (IH (foods ++ [mkFood c]) ({[ c ]} ∪ generated) g1)
      as (H1 & H2 & H3).
    + apply Forall_app. split; [done|]. by constructor.
    + intros p. rewrite fmap_app, elem_of_app, elem_of_union,
        elem_of_singleton, Hgen. simpl.
      rewrite list_elem_of_singleton. tauto.
    + rewrite fmap_app. apply NoDup_app. split; [done|].
      split; [|apply NoDup_singleton].
      intros p Hp. simpl. rewrite list_elem_of_singleton. intros ->.
      by apply Hfresh, Hgen.
    + split; [done|]. split; [done|].
      rewrite length_app in H3. simpl in H3. lia.
  - destruct (IH foods generated g1 Hacc Hgen Hnd) as (H1 & H2 & H3).
    split; [done|]. split; [done|]. lia.
Qed.

(** [generateFood] places food in bounds, never twice on one cell, never
    on a cell of a live in-game snake, and at most the reduced count. *)
Lemma generateFood_safe (mm : MapManager) (count : Z)
    (players : list (option Player.Player)) (g : Rng) :
  let foods := (generateFood uniform_int mm count players g).1 in
  Forall (acceptableSlow mm players) foods
  ∧ NoDup (position_ <$> foods)
  ∧ Z.of_nat (length foods)
    ≤ Z.max 0 (Z.min count (Z.max 1 (width_ mm * height_ mm ÷ 2))).
Proof.
  unfold generateFood.
  destruct (Z.leb_spec count 0) as [Hc|Hc].
  { simpl. split; [done|]. split; [constructor|lia]. }
  destruct ((width_ mm <=? 0) || (height_ mm <=? 0)) eqn:Ed.
  { simpl. split; [done|]. split; [constructor|lia]. }
  destruct (loopSlow_invariant mm players
              (Z.to_nat (reducedCount mm count)) [] ∅ g)
    as (H1 & H2 & H3); [done|set_solver|constructor|].
  split; [done|]. split; [done|].
  destruct (reducedCount_bounds mm count Hc) as [Hb Hr].
  simpl in H3. unfold reducedCount in *.
  destruct (Z.ltb_spec (width_ mm * height_ mm ÷ 2) count); lia.
Qed.

(** C5, amended.  Every food cell that [generateFoodFast] returns is in
    bounds, is not in the supplied existing-food set, is not in the
    supplied occupancy index, and is returned once only; the number of
    foods is at most the request, and a request above W*H/2 is cut down
    to max(1, W*H/2): to W*H/2 on every grid but the one-cell grid, where
    one food may still be placed. *)
Theorem generateFoodFast_safe (mm : MapManager) (count : Z)
    (occupiedCounts : gmap Point Z) (existingFoods : gset Point)
    (g : Rng) :
  let foods :=
    (generateFoodFast uniform_int mm count occupiedCounts existingFoods
                      g).1 in
  Forall (acceptableFast mm occupiedCounts existingFoods) foods
  ∧ NoDup (position_ <$> foods)
  ∧ Z.of_nat (length foods) ≤ Z.max 0 count
  ∧ (width_ mm * height_ mm ÷ 2 < count →
     Z.of_nat (length foods) ≤ Z.max 1 (width_ mm * height_ mm ÷ 2)).
Proof.
  unfold generateFoodFast.
  destruct (Z.leb_spec count 0) as [Hc|Hc].
  { cbn [fst length]. split; [done|]. split; [constructor|lia]. }
  destruct ((width_ mm <=? 0) || (height_ mm <=? 0)) eqn:Ed.
  { cbn [fst length]. split; [done|]. split; [constructor|lia]. }
  destruct (loopFast_invariant mm occupiedCounts existingFoods
              (Z.to_nat (reducedCount mm count)) [] ∅ g)
    as (H1 & H2 & H3); [done|set_solver|constructor|].
  cbv zeta.
  split; [done|]. split; [done|].
  destruct (reducedCount_bounds mm count Hc) as [Hb Hr].
  cbn [length] in H3. split; [lia|].
  intros Hbig. rewrite <- (Hr Hbig). lia.
Qed.

End GeneratorFacts.

Section GeneratorExamples.
Import MapManager.

(** C5, as the claim states it, fails on the one-cell grid: W*H/2 is 0,
    a request for one food exceeds it, and the generator still returns
    one food. *)
Lemma generateFoodFast_one_cell_grid :
  let mm := mkMapManager 1 1 in
  width_ mm * height_ mm ÷ 2 = 0
  ∧ width_ mm * height_ mm ÷ 2 < 1
  ∧ (generateFoodFast counterRng mm 1 ∅ ∅ O).1 = [mkFood (mkPoint 0 0)]
  ∧ ¬ (Z.of_nat (length (generateFoodFast counterRng mm 1 ∅ ∅ O).1)
       ≤ width_ mm * height_ mm ÷ 2).
Proof.
  cbv zeta. split; [reflexivity|]. split; [reflexivity|].
  split; [vm_compute; reflexivity|]. vm_compute. intros H. by apply H.
Qed.

Lemma generateFoodFast_safe_witness :
  width_ arena * height_ arena ÷ 2 < 60
  ∧ Z.of_nat (length (generateFoodFast counterRng arena 60 ∅ ∅ O).1)
    ≤ Z.max 1 (width_ arena * height_ arena ÷ 2).
Proof.
  split; [reflexivity|].
  apply (generateFoodFast_safe counterRng arena 60 ∅ ∅ O). reflexivity.
Defined.

Example generateFoodFast_run :
  (generateFoodFast counterRng arena 3
     {[ mkPoint 0 1 := 1 ]} {[ mkPoint 2 3 ]} O).1
  = [mkFood (mkPoint 4 5); mkFood (mkPoint 6 7); mkFood (mkPoint 8 9)].
Proof. vm_compute. reflexivity. Qed.

End GeneratorExamples.

Section WorldFacts.
Import GameState.

Lemma lookup_removelast {A} (l : list A) (j : nat) :
  removelast l !! j = if decide (S j < length l)%nat then l !! j else None.
Proof.
  destruct (decide (l = [])) as [->|Hne]; [by case_decide|].
  destruct (exists_last Hne) as (l' & a & ->).
  rewrite removelast_last, length_app. simpl.
  case_decide.
  - rewrite lookup_app_l by lia. done.
  - apply lookup_ge_None. lia.
Qed.

Lemma vec_at_Some {A} (v : list A) (i : Z) (a : A) :
  vec_at v i = Some a ↔ 0 ≤ i ∧ v !! Z.to_nat i = Some a.
Proof.
  unfold vec_at.
  destruct (Z.leb_spec 0 i); simpl; [|split; [done|lia]].
  destruct (Z.ltb_spec i (Z.of_nat (length v))).
  - split; [done|]. by intros [_ ?].
  - split; [done|]. intros [_ Hl]. apply lookup_lt_Some in Hl. lia.
Qed.

Lemma vec_at_of_nat {A} (v : list A) (j : nat) :
  vec_at v (Z.of_nat j) = v !! j.
Proof.
  unfold vec_at. rewrite Nat2Z.id.
  destruct (Z.leb_spec 0 (Z.of_nat j)); [|lia]. simpl.
  destruct (Z.ltb_spec (Z.of_nat j) (Z.of_nat (length v))); [done|].
  symmetry. apply lookup_ge_None. lia.
Qed.

(** What [removeFood] does when the position has an index entry that
    points into the vector: the last food takes the place of the food at
    that index, and the vector loses its last slot. *)
Lemma removeFood_present (position : Point) (st : GameState) (j : nat) :
  foodIndex_ st !! position = Some (Z.of_nat j) →
  (j < length (foods_ st))%nat →
  ∃ atLast,
    last (foods_ st) = Some atLast
    ∧ removeFood position st =
        Some (withFood
                (removelast (<[j := atLast]> (foods_ st)))
                (foodSet_ st ∖ {[ position ]})
                (delete position
                   (if decide (S j = length (foods_ st))
                    then foodIndex_ st
                    else <[position_ atLast := Z.of_nat j]> (foodIndex_ st)))
                st).
Proof.
  intros Hi Hj. unfold removeFood. rewrite Hi.
  destruct (foods_ st) as [|f0 fs] eqn:Ef; [simpl in Hj; lia|].
  rewrite <- Ef in *.
  assert (Hne : foods_ st ≠ []) by (by rewrite Ef).
  destruct (exists_last Hne) as (l' & atLast & El).
  exists atLast. split; [rewrite El; apply last_snoc|].
  assert (Hlen : length (foods_ st) = S (length l')).
  { rewrite El, length_app. simpl. lia. }
  assert (Hlast : size_t_sub (Z.of_nat (length (foods_ st))) 1
                  = Z.of_nat (length l')).
  { unfold size_t_sub. rewrite Hlen.
    destruct (Z.ltb_spec (Z.of_nat (S (length l'))) 1); lia. }
  rewrite Hlast.
  destruct (Z.eqb_spec (Z.of_nat j) (Z.of_nat (length l'))) as [E|E].
  - apply Nat2Z.inj in E. subst j.
    rewrite decide_True by lia.
    assert (Hid : <[length l' := atLast]> (foods_ st) = foods_ st).
    { apply list_insert_id. rewrite El.
      by rewrite lookup_app_r, Nat.sub_diag by lia. }
    rewrite Hid. by rewrite Ef at 1.
  - rewrite decide_False by lia.
    rewrite !vec_at_of_nat.
    destruct (lookup_lt_is_Some_2 (foods_ st) j Hj) as [atIndex Hat].
    rewrite Hat.
    assert (HatL : foods_ st !! length l' = Some atLast).
    { rewrite El. by rewrite lookup_app_r, Nat.sub_diag by lia. }
    rewrite HatL. unfold vec_set. rewrite !Nat2Z.id.
    assert (Hrl : removelast (<[length l' := atIndex]>
                                (<[j := atLast]> (foods_ st)))
                  = removelast (<[j := atLast]> (foods_ st))).
    { apply list_eq. intros k. rewrite !lookup_removelast, !length_insert.
      case_decide; [|done]. rewrite list_lookup_insert_ne by lia. done. }
    rewrite Hrl.
    destruct (<[length l' := atIndex]> (<[j := atLast]> (foods_ st)))
      as [|g gs] eqn:Eg; [|done].
    apply (f_equal length) in Eg. rewrite !length_insert in Eg.
    simpl in Eg. lia.
Qed.

Lemma removeFood_absent (position : Point) (st : GameState) :
  keysAgree st → hasFoodAt position st = false →
  removeFood position st = Some st.
Proof.
  intros Hk Hf. unfold hasFoodAt in Hf.
  apply bool_decide_eq_false in Hf.
  unfold removeFood.
  destruct (foodIndex_ st !! position) as [i|] eqn:Ei; [|done].
  destruct Hf. apply Hk. by rewrite Ei.
Qed.

Lemma hasId_true (playerId : string) (p : option Player.Player) :
  hasId playerId p = true ↔ ∃ q, p = Some q ∧ Player.getId q = playerId.
Proof.
  destruct p as [q|]; simpl.
  - rewrite String.eqb_eq. split; [by exists q|by intros (? & [= <-] & ?)].
  - split; [done|by intros (? & ? & _)].
Qed.

Lemma removePlayer_absent (playerId : string) (st : GameState) :
  (∀ p, Some p ∈ players_ st → Player.getId p ≠ playerId) →
  removePlayer playerId st = st.
Proof.
  intros Habs. unfold removePlayer.
  assert (E : List.filter (λ p, negb (hasId playerId p)) (players_ st)
              = players_ st).
  { induction (players_ st) as [|p ps IH]; simpl; [done|].
    destruct (hasId playerId p) eqn:Eh; simpl.
    - apply hasId_true in Eh as (q & -> & Hq).
      destruct (Habs q); [left|done].
    - rewrite IH; [done|]. intros q Hq. apply Habs. by right. }
  rewrite E. by destruct st.
Qed.

End WorldFacts.

Section WorldInvariants.
Import GameState.

Lemma size_t_sub_succ (n : nat) : size_t_sub (Z.of_nat (S n)) 1 = Z.of_nat n.
Proof. unfold size_t_sub. destruct (Z.ltb_spec (Z.of_nat (S n)) 1); lia. Qed.

(** When [removeFood] returns, an index entry for the position points
    into the vector. *)
Lemma removeFood_Some_index (position : Point) (st st' : GameState)
    (i : Z) :
  foodIndex_ st !! position = Some i →
  removeFood position st = Some st' →
  ∃ j : nat, i = Z.of_nat j ∧ (j < length (foods_ st))%nat.
Proof.
  intros Hi. unfold removeFood. rewrite Hi.
  destruct (foods_ st) as [|f fs] eqn:Ef.
  - destruct (i =? _); [done|]. unfold vec_at. simpl.
    by destruct ((0 <=? i) && (i <? Z.of_nat 0)).
  - rewrite <- Ef. assert (length (foods_ st) = S (length fs)) as Hl
      by (by rewrite Ef).
    rewrite Hl, size_t_sub_succ.
    destruct (Z.eqb_spec i (Z.of_nat (length fs))) as [->|Hne].
    + intros _. exists (length fs). split; [done|lia].
    + destruct (vec_at (foods_ st) i) as [a|] eqn:Ea; [|done].
      intros _. apply vec_at_Some in Ea as [H0 Ha].
      exists (Z.to_nat i). split; [lia|].
      apply lookup_lt_Some in Ha. lia.
Qed.

Lemma foodReachable_initial : foodReachable initial.
Proof.
  split.
  - intros j f Hf. simpl in Hf. by destruct j.
  - intros p. simpl. rewrite lookup_empty. split; [set_solver|].
    by intros [? ?].
Qed.

Lemma foodReachable_same_food (st st' : GameState) :
  foods_ st' = foods_ st → foodSet_ st' = foodSet_ st →
  foodIndex_ st' = foodIndex_ st →
  foodReachable st → foodReachable st'.
Proof.
  intros Ef Es Ei [H1 H2]. split.
  - intros j f. rewrite Ef, Ei. apply H1.
  - intros p. rewrite Es, Ei. apply H2.
Qed.

Lemma foodReachable_addFood (food : Food) (st : GameState) :
  foodReachable st → foodReachable (addFood food st).
Proof.
  intros [H1 H2]. unfold keysAgree in H2. unfold addFood.
  destruct (bool_decide_reflect (position_ food ∈ foodSet_ st)) as [?|Hn];
    [done|].
  rewrite length_app, Nat.add_comm. simpl length at 1.
  rewrite size_t_sub_succ. split.
  - intros j f. simpl. intros Hj.
    apply lookup_app_Some in Hj as [Hj|[Hlen Hj]].
    + pose proof (H1 j f Hj) as Hidx.
      rewrite lookup_insert_ne; [done|]. intros E. apply Hn.
      apply H2. rewrite E. by rewrite Hidx.
    + apply list_lookup_singleton_Some in Hj as [Hj <-].
      rewrite lookup_insert_eq. f_equal. lia.
  - intros p. simpl. rewrite elem_of_union, elem_of_singleton, H2.
    destruct (decide (position_ food = p)) as [<-|Hne].
    + rewrite lookup_insert_eq. split; [by eauto|by left].
    + rewrite lookup_insert_ne by done. split; [by intros [?|?]|by right].
Qed.

Lemma foodReachable_removeFood (position : Point) (st st' : GameState) :
  foodReachable st → removeFood position st = Some st' →
  foodReachable st'.
Proof.
  intros [H1 H2] Hr. unfold keysAgree in H2.
  destruct (foodIndex_ st !! position) as [i|] eqn:Hi.
  2: { unfold removeFood in Hr. rewrite Hi in Hr.
       injection Hr as <-. by split. }
  destruct (removeFood_Some_index _ _ _ _ Hi Hr) as (j & -> & Hj).
  destruct (removeFood_present _ _ _ Hi Hj) as (atLast & Hlast & Hr').
  rewrite Hr' in Hr. injection Hr as <-. clear Hr'.
  apply last_Some in Hlast as [l' El].
  assert (Hlen : length (foods_ st) = S (length l')).
  { rewrite El, length_app. simpl. lia. }
  assert (HatL : foodIndex_ st !! position_ atLast
                 = Some (Z.of_nat (length l'))).
  { apply H1. rewrite El. by rewrite lookup_app_r, Nat.sub_diag by lia. }
  split.
  - intros k f. simpl. rewrite lookup_removelast, length_insert.
    case_decide as Hk; [|done].
    destruct (decide (k = j)) as [->|Hkj].
    + rewrite list_lookup_insert_eq by lia. intros [= <-].
      rewrite decide_False by lia.
      rewrite lookup_delete_ne, lookup_insert_eq; [done|].
      intros E. rewrite E, HatL in Hi. injection Hi as Hi. lia.
    + rewrite list_lookup_insert_ne by done. intros Hf.
      pose proof (H1 k f Hf) as Hidx.
      rewrite lookup_delete_ne.
      2: { intros E. rewrite E, Hidx in Hi. injection Hi as Hi. lia. }
      case_decide; [done|].
      rewrite lookup_insert_ne; [done|].
      intros E. rewrite <- E, HatL in Hidx. injection Hidx as Hidx. lia.
  - intros p. simpl. rewrite elem_of_difference, elem_of_singleton, H2.
    destruct (decide (position = p)) as [<-|Hne].
    + rewrite lookup_delete_eq. split; [by intros [_ ?]|by intros [? ?]].
    + rewrite lookup_delete_ne by done.
      case_decide; [split; [by intros [? _]|done]|].
      destruct (decide (position_ atLast = p)) as [<-|Hne'].
      * rewrite lookup_insert_eq, HatL. split; [by eauto|by eauto].
      * rewrite lookup_insert_ne by done. split; [by intros [? _]|done].
Qed.

Lemma foodReachable_apply (op : Op) (st st' : GameState) :
  foodReachable st → apply op st = Some st' → foodReachable st'.
Proof.
  intros Hinv. destruct op; simpl;
    try (intros [= <-]; by apply (foodReachable_same_food st)).
  - (* reset *)
    intros [= <-]. destruct Hinv as [_ H2]. split; [|exact H2].
    intros j f Hf. simpl in Hf. by destruct j.
  - (* addPlayer *)
    intros [= <-]. unfold addPlayer. destruct player as [p|]; [|done].
    case_match; [done|]. by apply (foodReachable_same_food st).
  - intros [= <-]. by apply foodReachable_addFood.
  - by apply foodReachable_removeFood.
  - (* clearFood *)
    intros [= <-]. apply foodReachable_initial.
Qed.

(** Every state that the class reaches from its constructor. *)
Lemma foodReachable_run (ops : list Op) (st st' : GameState) :
  foodReachable st → run ops st = Some st' → foodReachable st'.
Proof.
  revert st. induction ops as [|op ops IH]; intros st Hinv; simpl.
  - by intros [= <-].
  - destruct (apply op st) as [st1|] eqn:E; [|done].
    apply IH. by apply (foodReachable_apply op st).
Qed.

End WorldInvariants.

Section FoodConsistency.
Import GameState.

Lemma indexCoversVector_NoDup (st : GameState) :
  indexCoversVector st → NoDup (position_ <$> foods_ st).
Proof.
  intros H1. apply NoDup_alt. intros i j p.
  rewrite !list_lookup_fmap.
  destruct (foods_ st !! i) as [f|] eqn:Ei; [|done].
  destruct (foods_ st !! j) as [f'|] eqn:Ej; [|done].
  simpl. intros [= <-] [= E].
  apply H1 in Ei. apply H1 in Ej. rewrite E, Ei in Ej.
  injection Ej as Ej. lia.
Qed.

Lemma foodSound_consistent (st : GameState) :
  foodSound st → foodConsistent st ∧ indexPointsAtFood st.
Proof.
  intros [[H1 H2] H3]. split; [split; [|split]|].
  - intros p. split; [apply H3|].
    intros Hp. apply list_elem_of_fmap in Hp as (f & -> & Hf).
    apply list_elem_of_lookup in Hf as [j Hj].
    apply H2. rewrite (H1 j f Hj). by eauto.
  - by apply indexCoversVector_NoDup.
  - done.
  - intros p i Hi.
    assert (Hp : p ∈ foodSet_ st) by (apply H2; by rewrite Hi).
    apply H3, list_elem_of_fmap in Hp as (f & -> & Hf).
    apply list_elem_of_lookup in Hf as [j Hj].
    rewrite (H1 j f Hj) in Hi. injection Hi as <-.
    rewrite vec_at_of_nat, Hj. by destruct f.
Qed.

Lemma foodSound_initial : foodSound initial.
Proof. split; [apply foodReachable_initial|]. intros p. set_solver. Qed.

Lemma foodSound_clearFood (st : GameState) : foodSound (clearFood st).
Proof. split; [apply foodReachable_initial|]. intros p. set_solver. Qed.

Lemma foodSound_addFood (food : Food) (st : GameState) :
  foodSound st → foodSound (addFood food st).
Proof.
  intros [Hr H3]. split; [by apply foodReachable_addFood|].
  unfold addFood. case_bool_decide; [done|].
  intros p. simpl. rewrite elem_of_union, elem_of_singleton, fmap_app,
    elem_of_app. simpl. rewrite list_elem_of_singleton.
  intros [->|Hp]; [by right|left; by apply H3].
Qed.

(** Under the invariant [removeFood] is defined and keeps it. *)
Lemma foodSound_removeFood (position : Point) (st : GameState) :
  foodSound st →
  ∃ st', removeFood position st = Some st' ∧ foodSound st'.
Proof.
  intros Hs. pose proof Hs as [[H1 H2] H3].
  destruct (foodIndex_ st !! position) as [i|] eqn:Hi.
  2: { exists st. split; [|done]. unfold removeFood. by rewrite Hi. }
  assert (Hin : position ∈ foodSet_ st) by (apply H2; by rewrite Hi).
  apply H3, list_elem_of_fmap in Hin as (f0 & Ef0 & Hf0).
  apply list_elem_of_lookup in Hf0 as [j Hj].
  assert (i = Z.of_nat j) as ->.
  { pose proof (H1 j f0 Hj) as E. rewrite <- Ef0, Hi in E. by injection E. }
  pose proof (lookup_lt_Some _ _ _ Hj) as Hlt.
  destruct (removeFood_present _ _ _ Hi Hlt) as (atLast & Hlast & Hr).
  eexists. split; [exact Hr|].
  split; [apply (foodReachable_removeFood position st); [done|exact Hr]|].
  apply last_Some in Hlast as [l' El].
  assert (Hlen : length (foods_ st) = S (length l')).
  { rewrite El, length_app. simpl. lia. }
  assert (HatL : foods_ st !! length l' = Some atLast).
  { rewrite El. by rewrite lookup_app_r, Nat.sub_diag by lia. }
  intros p. simpl. rewrite elem_of_difference, elem_of_singleton.
  intros [Hp Hne].
  apply H3, list_elem_of_fmap in Hp as (f & -> & Hf).
  apply list_elem_of_lookup in Hf as [k Hk].
  assert (Hkj : k ≠ j).
  { intros ->. rewrite Hj in Hk. injection Hk as <-. by rewrite Ef0 in Hne. }
  pose proof (lookup_lt_Some _ _ _ Hk) as Hklt.
  apply list_elem_of_fmap.
  destruct (decide (k = length l')) as [->|Hkl].
  - rewrite HatL in Hk. injection Hk as <-.
    exists atLast. split; [done|]. apply list_elem_of_lookup. exists j.
    rewrite lookup_removelast, length_insert.
    rewrite decide_True by lia. by rewrite list_lookup_insert_eq by lia.
  - exists f. split; [done|]. apply list_elem_of_lookup. exists k.
    rewrite lookup_removelast, length_insert.
    rewrite decide_True by lia. by rewrite list_lookup_insert_ne by done.
Qed.

(** With the invariant, [hasFoodAt] answers for the vector. *)
Lemma foodSound_hasFoodAt (position : Point) (st : GameState) :
  foodSound st →
  hasFoodAt position st = true
  ↔ ∃ f, f ∈ foods_ st ∧ position_ f = position.
Proof.
  intros Hs. destruct (foodSound_consistent st Hs) as [(Hset & _) _].
  unfold hasFoodAt. rewrite bool_decide_eq_true, Hset, list_elem_of_fmap.
  split; intros (f & ? & ?); by exists f.
Qed.

End FoodConsistency.

Section WorldClaims.
Import GameState.

Lemma foodSound_same_food (st st' : GameState) :
  foods_ st' = foods_ st → foodSet_ st' = foodSet_ st →
  foodIndex_ st' = foodIndex_ st →
  foodSound st → foodSound st'.
Proof.
  intros Ef Es Ei [Hr H3]. split.
  - by apply (foodReachable_same_food st).
  - intros p. rewrite Es, Ef. apply H3.
Qed.

(** Apart from [reset], the operations keep the food indices sound, and
    [removeFood] never leaves the vector's range. *)
Lemma foodSound_run (ops : list Op) (st : GameState) :
  Forall (λ op, op ≠ OpReset) ops → foodSound st →
  ∃ st', run ops st = Some st' ∧ foodSound st'.
Proof.
  intros Hops. revert st.
  induction Hops as [|op ops Hop _ IH]; intros st Hs; simpl.
  { by exists st. }
  assert (∃ st1, apply op st = Some st1 ∧ foodSound st1)
    as (st1 & -> & Hs1); [|by apply IH].
  destruct op as [| |pl|pid|fd|pos| |nw|t|pid|pid|pos|pos|]; simpl;
    try done;
    try (eexists; split; [reflexivity|];
         by apply (foodSound_same_food st)).
  - exists (addPlayer pl st). split; [done|].
    unfold addPlayer. destruct pl; [|done].
    case_match; [done|]. by apply (foodSound_same_food st).
  - eexists. split; [done|]. by apply foodSound_addFood.
  - by apply foodSound_removeFood.
  - eexists. split; [done|]. apply foodSound_clearFood.
Qed.

(** C4, as the claim states it, fails: after [addFood] on a state with no
    food at the position, the delta log's [added_food] buffer is still
    empty. *)
Lemma addFood_leaves_delta_log :
  hasFoodAt (mkPoint 1 1) initial = false
  ∧ foods_ (addFood (mkFood (mkPoint 1 1)) initial) = [mkFood (mkPoint 1 1)]
  ∧ addedFoods_ (addFood (mkFood (mkPoint 1 1)) initial) = []
  ∧ mkPoint 1 1 ∉ addedFoods_ (addFood (mkFood (mkPoint 1 1)) initial).
Proof.
  split; [reflexivity|]. split; [reflexivity|]. split; [reflexivity|].
  simpl. apply not_elem_of_nil.
Qed.

Lemma busyWorld_reached : busyWorld = Some busyWorldState.
Proof. vm_compute. reflexivity. Qed.

Lemma busyWorld_foodSound : foodSound busyWorldState.
Proof.
  destruct (foodSound_run
              [OpAddPlayer (Some playerA); OpTrackPlayerJoined "A";
               OpAddPlayer (Some playerB);
               OpAddFood (mkFood (mkPoint 4 3));
               OpTrackFoodAdded (mkPoint 4 3);
               OpAddFood (mkFood (mkPoint 7 7)); OpIncrementRound;
               OpUpdateTimestamp 1706342400000;
               OpSetNextRoundTimestamp 1706342400500] initial)
    as (st & Hrun & Hs); [|apply foodSound_initial|].
  - repeat (apply Forall_cons; split; [discriminate|]). apply Forall_nil_2.
  - change (busyWorld = Some st) in Hrun.
    rewrite busyWorld_reached in Hrun. by injection Hrun as <-.
Qed.

(** With sound food containers, the food set answers for the vector. *)
Lemma foodAt_hasFoodAt (position : Point) (st : GameState) :
  foodSound st → (foodAt position st ↔ hasFoodAt position st = true).
Proof. intros Hs. symmetry. by apply foodSound_hasFoodAt. Qed.

(** What [addFood] does on any state, by the answer of its own test. *)
Lemma addFood_cases (food : Food) (st : GameState) :
  (hasFoodAt (position_ food) st = true → addFood food st = st)
  ∧ (hasFoodAt (position_ food) st = false →
       addFood food st
       = withFood (foods_ st ++ [food])
                  ({[ position_ food ]} ∪ foodSet_ st)
                  (<[position_ food := Z.of_nat (length (foods_ st))]>
                     (foodIndex_ st))
                  st
       ∧ foods_ (addFood food st) !! length (foods_ st) = Some food
       ∧ addedFoods_ (addFood food st) = addedFoods_ st
       ∧ addedFoods_ (trackFoodAdded (position_ food) (addFood food st))
         = addedFoods_ st ++ [position_ food]).
Proof.
  unfold hasFoodAt, addFood. split; intros H; rewrite H; [done|].
  rewrite length_app, Nat.add_comm. simpl length at 1.
  rewrite size_t_sub_succ. split; [done|]. simpl.
  split; [|done]. by rewrite lookup_app_r, Nat.sub_diag by lia.
Qed.

(** C4, amended.  Let the food set and the index map mirror the food
    vector, as they do in every state reached without [reset].  Then
    [addFood] on a state whose vector has a food at the position
    changes nothing.  On a state without food there it appends the food
    to the vector, puts the position into the food set and records the
    index of the new slot under the position; every other field, the
    [added_food] buffer of the delta log included, stays as it was, and
    a call of [trackFoodAdded] with the position is what appends it to
    that buffer.  The containers mirror the vector again afterwards. *)
Theorem addFood_appends_and_indexes (food : Food) (st : GameState) :
  foodSound st →
  (foodAt (position_ food) st → addFood food st = st)
  ∧ (¬ foodAt (position_ food) st →
       addFood food st
       = withFood (foods_ st ++ [food])
                  ({[ position_ food ]} ∪ foodSet_ st)
                  (<[position_ food := Z.of_nat (length (foods_ st))]>
                     (foodIndex_ st))
                  st
       ∧ foods_ (addFood food st) !! length (foods_ st) = Some food
       ∧ addedFoods_ (addFood food st) = addedFoods_ st
       ∧ addedFoods_ (trackFoodAdded (position_ food) (addFood food st))
         = addedFoods_ st ++ [position_ food])
  ∧ foodSound (addFood food st).
Proof.
  intros Hs. destruct (addFood_cases food st) as [Hsame Hnew].
  split; [|split].
  - intros Hat. by apply Hsame, foodAt_hasFoodAt.
  - intros Hno. apply Hnew. apply not_true_iff_false.
    intros Hhas. by apply Hno, foodAt_hasFoodAt.
  - by apply foodSound_addFood.
Qed.

Lemma addFood_appends_and_indexes_witness :
  foodSound busyWorldState
  ∧ foodAt (mkPoint 7 7) busyWorldState
  ∧ addFood (mkFood (mkPoint 7 7)) busyWorldState = busyWorldState
  ∧ ¬ foodAt (mkPoint 2 2) busyWorldState
  ∧ foods_ (addFood (mkFood (mkPoint 2 2)) busyWorldState) !! 2%nat
    = Some (mkFood (mkPoint 2 2))
  ∧ addedFoods_ (addFood (mkFood (mkPoint 2 2)) busyWorldState)
    = addedFoods_ busyWorldState.
Proof.
  pose proof busyWorld_foodSound as Hs.
  assert (H7 : foodAt (mkPoint 7 7) busyWorldState).
  { apply (foodAt_hasFoodAt _ _ Hs). vm_compute. reflexivity. }
  assert (H2 : ¬ foodAt (mkPoint 2 2) busyWorldState).
  { intros H. apply (foodAt_hasFoodAt _ _ Hs) in H.
    vm_compute in H. discriminate H. }
  destruct (addFood_appends_and_indexes (mkFood (mkPoint 7 7))
              busyWorldState Hs) as (Hsame & _ & _).
  destruct (addFood_appends_and_indexes (mkFood (mkPoint 2 2))
              busyWorldState Hs) as (_ & Hnew & _).
  destruct (Hnew H2) as (_ & Hslot & Hlog & _).
  split; [exact Hs|]. split; [exact H7|]. split; [exact (Hsame H7)|].
  split; [exact H2|]. split; [exact Hslot|exact Hlog].
Defined.

(** C8 at the failing input: one [addFood] then [reset].  The vector is
    empty, yet [hasFoodAt] still answers true for the cell and the index
    map still holds its entry, so the indices are not consistent; a new
    [addFood] on that cell is then ignored and [removeFood] on it reads
    outside the vector. *)
Theorem reset_leaves_food_set_stale :
  foods_ afterReset = []
  ∧ hasFoodAt (mkPoint 1 1) afterReset = true
  ∧ foodIndex_ afterReset !! mkPoint 1 1 = Some 0
  ∧ ¬ foodConsistent afterReset
  ∧ addFood (mkFood (mkPoint 1 1)) afterReset = afterReset
  ∧ removeFood (mkPoint 1 1) afterReset = None.
Proof.
  split; [reflexivity|]. split; [vm_compute; reflexivity|].
  split; [vm_compute; reflexivity|]. split; [|split].
  - intros (Hset & _). specialize (Hset (mkPoint 1 1)).
    assert (Hin : mkPoint 1 1 ∈ foodSet_ afterReset).
    { apply (bool_decide_unpack _). vm_compute. exact I. }
    apply Hset in Hin. simpl in Hin. by apply elem_of_nil in Hin.
  - unfold addFood.
    assert (E : bool_decide (position_ (mkFood (mkPoint 1 1))
                             ∈ foodSet_ afterReset) = true)
      by (vm_compute; reflexivity).
    by rewrite E.
  - vm_compute. reflexivity.
Qed.

(** Where the removal of what is absent does change nothing.  In a
    state whose position set and index map share their keys (every
    state of the class does, see [foodReachable_run]): when
    [hasFoodAt pos] is false, [removeFood pos] returns the state as it
    was, every field included; and when no player of the list carries
    the id, [removePlayer id] returns the state as it was. *)
Lemma absent_removals_change_nothing (st : GameState)
    (position : Point) (playerId : string) :
  keysAgree st →
  (hasFoodAt position st = false → removeFood position st = Some st)
  ∧ ((∀ p, Some p ∈ players_ st → Player.getId p ≠ playerId) →
     removePlayer playerId st = st).
Proof.
  intros Hk. split.
  - by apply removeFood_absent.
  - apply removePlayer_absent.
Qed.

(** Without [reset] the vector decides: after any run of the other
    operations from a new state, [removeFood] at a position where the
    vector has no food returns the state as it was. *)
Lemma absent_food_removal_without_reset (ops : list Op)
    (position : Point) :
  Forall (λ op, op ≠ OpReset) ops →
  ∃ st, run ops initial = Some st
        ∧ (¬ foodAt position st → removeFood position st = Some st).
Proof.
  intros Hops.
  destruct (foodSound_run ops initial Hops foodSound_initial)
    as (st & Hrun & Hs).
  exists st. split; [done|]. intros Hno.
  apply removeFood_absent; [apply Hs|].
  apply not_true_iff_false. intros Hhas.
  by apply Hno, foodAt_hasFoodAt.
Qed.

Lemma staleWorld_reached :
  staleWorld
  = Some (mkGameState 0 [] [mkFood (mkPoint 3 3)]
            ({[ mkPoint 3 3 ]} ∪ ({[ mkPoint 2 2 ]}
               ∪ ({[ mkPoint 1 1 ]} ∪ ∅)))
            (<[mkPoint 3 3 := 0]> (<[mkPoint 2 2 := 1]>
               (<[mkPoint 1 1 := 0]> ∅)))
            0 0 [] [] [] []).
Proof. reflexivity. Qed.

(** C10 at the failing input: two foods, [reset], a third food.  The
    vector then holds the food at (3,3) only, so there is no food at
    (1,1); yet [removeFood] at (1,1) finds the entry that [reset] left
    in the index map, with index 0, and pops the vector: the food at
    (3,3) is gone from the vector while the food set still lists it.
    The state is changed by the removal of an absent food. *)
Theorem removeFood_absent_food_after_reset :
  is_Some staleWorld
  ∧ foods_ staleWorldState = [mkFood (mkPoint 3 3)]
  ∧ ¬ foodAt (mkPoint 1 1) staleWorldState
  ∧ foodIndex_ staleWorldState !! mkPoint 1 1 = Some 0
  ∧ ∃ st', removeFood (mkPoint 1 1) staleWorldState = Some st'
           ∧ st' ≠ staleWorldState
           ∧ foods_ st' = []
           ∧ ¬ foodAt (mkPoint 3 3) st'
           ∧ hasFoodAt (mkPoint 3 3) st' = true.
Proof.
  assert (Hst : staleWorldState
                = mkGameState 0 [] [mkFood (mkPoint 3 3)]
                    ({[ mkPoint 3 3 ]} ∪ ({[ mkPoint 2 2 ]}
                       ∪ ({[ mkPoint 1 1 ]} ∪ ∅)))
                    (<[mkPoint 3 3 := 0]> (<[mkPoint 2 2 := 1]>
                       (<[mkPoint 1 1 := 0]> ∅)))
                    0 0 [] [] [] []).
  { unfold staleWorldState. by rewrite staleWorld_reached. }
  split; [rewrite staleWorld_reached; by eexists|].
  rewrite Hst. split; [reflexivity|]. split.
  { intros (f & Hf & Hp). simpl in Hf.
    apply list_elem_of_singleton in Hf. subst f. discriminate Hp. }
  split; [vm_compute; reflexivity|].
  assert (Hi : foodIndex_
                 (mkGameState 0 [] [mkFood (mkPoint 3 3)]
                    ({[ mkPoint 3 3 ]} ∪ ({[ mkPoint 2 2 ]}
                       ∪ ({[ mkPoint 1 1 ]} ∪ ∅)))
                    (<[mkPoint 3 3 := 0]> (<[mkPoint 2 2 := 1]>
                       (<[mkPoint 1 1 := 0]> ∅)))
                    0 0 [] [] [] []) !! mkPoint 1 1 = Some (Z.of_nat 0))
    by (vm_compute; reflexivity).
  destruct (removeFood_present _ _ 0%nat Hi) as (atLast & Hlast & Hr);
    [simpl; lia|].
  simpl in Hlast. injection Hlast as <-.
  eexists. split; [exact Hr|]. simpl.
  split; [intros E; by apply (f_equal foods_) in E|].
  split; [reflexivity|]. split.
  - intros (f & Hf & _). simpl in Hf. by apply elem_of_nil in Hf.
  - unfold hasFoodAt. simpl. apply bool_decide_eq_true.
    rewrite elem_of_difference, elem_of_singleton. split; [|discriminate].
    apply elem_of_union. left. by apply elem_of_singleton.
Qed.

End WorldClaims.

Section LoginFacts.
Import DatabaseManager PlayerManager.

Lemma keyTaken_false (uid k : string) (rows : gmap string Row) :
  keyTaken uid k rows = false ↔
  ∀ u r, rows !! u = Some r → u ≠ uid → key r ≠ k.
Proof.
  unfold keyTaken. rewrite bool_decide_eq_false, map_Exists_lookup.
  split.
  - intros Hn u r Hu Hne Hk. apply Hn. by exists u, r.
  - intros H (u & r & Hu & Hne & Hk). by apply (H u r).
Qed.

(** A login that returns a key leaves the database connected, with the
    row of the uid holding that key and the proof just presented. *)
Lemma login_success_row (env : LoginEnv) (uid proof k : string)
    (pm pm' : PlayerManager) :
  login env uid proof pm = (k, pm') → k ≠ ""%string →
  connected_ (db_ pm') = true
  ∧ ∃ r, players (db_ pm') !! uid = Some r ∧ key r = k ∧ paste r = proof.
Proof.
  unfold login, checkLogin.
  destruct (verified env); simpl; [|by intros [= <- _]].
  unfold selectKeyPaste.
  destruct (connected_ (db_ pm)) eqn:Hc.
  - destruct (players (db_ pm) !! uid) as [r|] eqn:Hr; simpl.
    + destruct (String.eqb_spec (paste r) proof) as [Ep|Ep].
      * unfold updateLastLogin. rewrite Hc. intros [= <- <-] _. simpl.
        split; [done|]. rewrite lookup_alter_eq, Hr. simpl. by eauto.
      * unfold updatePasteKey. rewrite Hc, Hr.
        destruct (keyTaken uid (generated env) (players (db_ pm)));
          simpl; [by intros [= <- _]|].
        intros [= <- <-] _. simpl. split; [done|].
        rewrite lookup_insert_eq. by eauto.
    + unfold insertPlayer. rewrite Hc, Hr.
      destruct (keyTaken uid (generated env) (players (db_ pm)));
        simpl; [by intros [= <- _]|].
      intros [= <- <-] _. simpl. split; [done|].
      rewrite lookup_insert_eq. by eauto.
  - simpl. unfold insertPlayer. rewrite Hc. simpl. by intros [= <- _].
Qed.

(** [login] keeps the keys of the table pairwise distinct. *)
Lemma login_keysUnique (env : LoginEnv) (uid proof : string)
    (pm : PlayerManager) :
  keysUnique (db_ pm) → keysUnique (db_ (login env uid proof pm).2).
Proof.
  intros Hu. unfold login, checkLogin.
  destruct (verified env); simpl; [|done].
  unfold selectKeyPaste.
  destruct (connected_ (db_ pm)) eqn:Hc.
  2: { simpl. unfold insertPlayer. rewrite Hc. by simpl. }
  assert (Hins : ∀ row,
            keyTaken uid (key row) (players (db_ pm)) = false →
            keysUnique (mkDb true (<[uid := row]> (players (db_ pm))))).
  { intros row Ht u1 u2 r1 r2. simpl.
    rewrite keyTaken_false in Ht.
    rewrite !lookup_insert_Some.
    intros [[<- <-]|[Hn1 H1]] [[<- <-]|[Hn2 H2]] Hk; try done.
    - destruct (Ht u2 r2 H2); [done|by symmetry].
    - by destruct (Ht u1 r1 H1).
    - by apply (Hu u1 u2 r1 r2). }
  destruct (players (db_ pm) !! uid) as [r|] eqn:Hr; simpl.
  - destruct (String.eqb (paste r) proof).
    + unfold updateLastLogin. rewrite Hc. simpl.
      intros u1 u2 r1 r2. simpl. rewrite !lookup_alter_Some.
      intros [(<- & s1 & Hs1 & ->)|[Hn1 H1]]
             [(<- & s2 & Hs2 & ->)|[Hn2 H2]]; simpl; try done.
      * intros Hk. by apply (Hu uid u2 s1 r2).
      * intros Hk. by apply (Hu u1 uid r1 s2).
      * by apply (Hu u1 u2 r1 r2).
    + unfold updatePasteKey. rewrite Hc, Hr.
      destruct (keyTaken uid (generated env) (players (db_ pm))) eqn:Ht;
        simpl; [done|]. by apply (Hins (mkRow _ _ _ _)).
  - unfold insertPlayer. rewrite Hc, Hr.
    destruct (keyTaken uid (generated env) (players (db_ pm))) eqn:Ht;
      simpl; [done|]. by apply (Hins (mkRow _ _ _ _)).
Qed.

(** The database lookup of [validateKey] finds only rows that carry the
    key. *)
Lemma selectUidByKey_Some (k u : string) (db : DatabaseManager) :
  selectUidByKey k db = Some u →
  ∃ r, players db !! u = Some r ∧ key r = k.
Proof.
  unfold selectUidByKey. destruct (connected_ db); [|done].
  destruct (head _) as [[u' r]|] eqn:Eh; [|done].
  simpl. intros [= <-].
  apply head_Some_elem_of, elem_of_map_to_list in Eh.
  apply map_lookup_filter_Some in Eh as [Hu Hk]. by exists r.
Qed.

Lemma selectUidByKey_unique (k u : string) (r : Row)
    (db : DatabaseManager) :
  keysUnique db → connected_ db = true →
  players db !! u = Some r → key r = k →
  selectUidByKey k db = Some u.
Proof.
  intros Hu Hc Hr Hk. unfold selectUidByKey. rewrite Hc.
  destruct (head _) as [[u' r']|] eqn:Eh.
  - simpl. f_equal.
    apply head_Some_elem_of, elem_of_map_to_list in Eh.
    apply map_lookup_filter_Some in Eh as [Hu' Hk']. simpl in Hk'.
    apply (Hu u' u r' r); congruence.
  - apply head_None, map_to_list_empty_iff in Eh.
    assert (Hin : filter (λ ur, key ur.2 = k) (players db) !! u = Some r).
    { by apply map_lookup_filter_Some. }
    rewrite Eh in Hin. by rewrite lookup_empty in Hin.
Qed.

End LoginFacts.

Section LoginClaims.
Import DatabaseManager PlayerManager.

(** C6.  Let both logins pass identity verification and let the first,
    [login(uid, p1)], return a key [k1].  Then a second [login(uid, p1)]
    returns [k1] again.  A second [login(uid, p2)] with [p2 ≠ p1], for
    which the generator yields a key that no row of the table carries,
    returns that new key, different from [k1]; afterwards [validateKey]
    resolves the new key to [uid] and no longer resolves [k1] to [uid]
    (to no uid at all when the table's keys were pairwise distinct). *)
Theorem login_key_kept_then_rotated (pm pm1 : PlayerManager)
    (uid p1 p2 k1 : string) (e1 e2 : LoginEnv) :
  verified e1 = true → verified e2 = true →
  login e1 uid p1 pm = (k1, pm1) → k1 ≠ ""%string →
  (login e2 uid p1 pm1).1 = k1
  ∧ (p1 ≠ p2 → freshKey (generated e2) (db_ pm1) →
     (login e2 uid p2 pm1).1 = generated e2
     ∧ (login e2 uid p2 pm1).1 ≠ k1
     ∧ validateKey k1 (login e2 uid p2 pm1).2 ≠ Some uid
     ∧ validateKey (generated e2) (login e2 uid p2 pm1).2 = Some uid
     ∧ (keysUnique (db_ pm) →
        validateKey k1 (login e2 uid p2 pm1).2 = None)).
Proof.
  intros _ Hv2 Hl Hk1.
  destruct (login_success_row _ _ _ _ _ _ Hl Hk1)
    as (Hc & r & Hr & Hkey & Hpaste).
  split.
  - unfold login, checkLogin, selectKeyPaste.
    rewrite Hv2, Hc, Hr. simpl. rewrite Hpaste, String.eqb_refl.
    unfold updateLastLogin. by rewrite Hc.
  - intros Hne Hfresh.
    assert (Hk2 : generated e2 ≠ k1).
    { intros E. apply (Hfresh uid r Hr). congruence. }
    assert (Ht : keyTaken uid (generated e2) (players (db_ pm1)) = false).
    { apply keyTaken_false. intros u r' Hu _. by apply (Hfresh u r'). }
    assert (Hlogin : login e2 uid p2 pm1
              = (generated e2,
                 mkPlayerManager
                   (mkDb true (<[uid := mkRow p2 (generated e2)
                                          (created_at r) (now e2)]>
                                 (players (db_ pm1))))
                   (<[uid := generated e2]> (uidToKey_ pm1))
                   (<[generated e2 := uid]>
                      (delete k1 (keyToUid_ pm1)))
                   (tokenToPlayerId_ pm1) (PlayerManager.players_ pm1))).
    { unfold login, checkLogin, selectKeyPaste.
      rewrite Hv2, Hc, Hr. simpl. rewrite Hpaste, Hkey.
      destruct (String.eqb_spec p1 p2) as [E|_]; [done|].
      unfold updatePasteKey. by rewrite Hc, Hr, Ht. }
    rewrite Hlogin. simpl.
    assert (Hcache : ∀ m : gmap string string,
              (<[generated e2 := uid]> (delete k1 m)) !! k1 = None).
    { intros m. rewrite lookup_insert_ne by done. apply lookup_delete_eq. }
    split; [done|]. split; [done|].
    split; [|split].
    + unfold validateKey. simpl. rewrite Hcache. intros Hs.
      apply selectUidByKey_Some in Hs as (r' & Hr' & Hk'). simpl in Hr'.
      rewrite lookup_insert_eq in Hr'. injection Hr' as <-. by simpl in Hk'.
    + unfold validateKey. simpl. by rewrite lookup_insert_eq.
    + intros Hu.
      assert (Hu1 : keysUnique (db_ pm1)).
      { pose proof (login_keysUnique e1 uid p1 pm Hu) as H.
        by rewrite Hl in H. }
      unfold validateKey. simpl. rewrite Hcache.
      destruct (selectUidByKey k1 _) as [u|] eqn:Hs; [|done].
      apply selectUidByKey_Some in Hs as (r' & Hr' & Hk'). simpl in Hr'.
      apply lookup_insert_Some in Hr' as [[<- <-]|[Hn Hr']];
        [by simpl in Hk'|].
      destruct Hn. apply (Hu1 uid u r r'); congruence.
Qed.

Lemma login_key_kept_then_rotated_witness :
  (login firstLogin "42" "pasteA" freshManager).1 = "5f2a"%string
  ∧ (login secondLogin "42" "pasteA"
       (login firstLogin "42" "pasteA" freshManager).2).1 = "5f2a"%string
  ∧ (login thirdLogin "42" "pasteB"
       (login firstLogin "42" "pasteA" freshManager).2).1 = "07be"%string
  ∧ validateKey "5f2a"
      (login thirdLogin "42" "pasteB"
         (login firstLogin "42" "pasteA" freshManager).2).2 = None.
Proof.
  pose (pm1 := (login firstLogin "42" "pasteA" freshManager).2).
  assert (Hl : login firstLogin "42" "pasteA" freshManager
               = ("5f2a"%string, pm1)) by (vm_compute; reflexivity).
  assert (Hdb : players (db_ pm1)
                = {[ "42"%string := mkRow "pasteA" "5f2a" 1000 1000 ]})
    by (vm_compute; reflexivity).
  assert (Hfresh : freshKey (generated thirdLogin) (db_ pm1)).
  { intros u r. rewrite Hdb. intros [_ <-]%lookup_singleton_Some.
    discriminate. }
  assert (Hunique : keysUnique (db_ freshManager)).
  { intros u1 u2 r1 r2 H1. simpl in H1. by rewrite lookup_empty in H1. }
  destruct (login_key_kept_then_rotated freshManager pm1 "42" "pasteA"
              "pasteB" "5f2a" firstLogin thirdLogin
              eq_refl eq_refl Hl) as [_ Hrot]; [discriminate|].
  destruct (Hrot ltac:(discriminate) Hfresh) as (Hnew & _ & _ & _ & Hgone).
  destruct (login_key_kept_then_rotated freshManager pm1 "42" "pasteA"
              "pasteB" "5f2a" firstLogin secondLogin
              eq_refl eq_refl Hl) as [Hsame _]; [discriminate|].
  split; [reflexivity|]. split; [exact Hsame|].
  split; [exact Hnew|exact (Hgone Hunique)].
Defined.

Example login_on_disconnected_database :
  (login firstLogin "42" "pasteA"
     (mkPlayerManager (mkDb false ∅) ∅ ∅ ∅ ∅)).1 = ""%string.
Proof. reflexivity. Qed.

End LoginClaims.

(* ===================================================================== *)
(** * Further properties *)
(* ===================================================================== *)

Section PointFacts.

Lemma hash_sum (p : Point) :
  PointOps.hash p = (x p mod 2 ^ 32) * 2 ^ 32 + y p mod 2 ^ 32.
Proof.
  unfold PointOps.hash.
  pose proof (Z.mod_pos_bound (x p) (2 ^ 32) eq_refl) as Hx.
  pose proof (Z.mod_pos_bound (y p) (2 ^ 32) eq_refl) as Hy.
  set (ux := x p mod 2 ^ 32) in *. set (uy := y p mod 2 ^ 32) in *.
  rewrite Z.shiftl_mul_pow2 by lia.
  rewrite (Z.mod_small (ux * 2 ^ 32)) by nia.
  symmetry. apply Z.add_nocarry_lxor.
  apply Z.bits_inj'. intros n Hn.
  rewrite Z.land_spec, Z.bits_0.
  destruct (Z.lt_ge_cases n 32) as [Hlt|Hge].
  - rewrite <- Z.shiftl_mul_pow2 by lia.
    rewrite Z.shiftl_spec_low by lia. reflexivity.
  - assert (Z.testbit uy n = false) as ->; [|apply andb_false_r].
    destruct (Z.eq_dec uy 0) as [->|Hnz]; [apply Z.bits_0|].
    apply Z.bits_above_log2; [lia|].
    apply Z.log2_lt_pow2; [lia|].
    apply Z.lt_le_trans with (2 ^ 32); [lia|].
    apply Z.pow_le_mono_r; lia.
Qed.

End PointFacts.

Section PointExtras.

(** X1.  [Point::operator<] is a strict total order that fits
    [operator==]: no point is below itself, the order is transitive and
    asymmetric, two points neither of which is below the other are equal,
    and the adapter's [operator<] gives the same answers. *)
Theorem Point_order_strict_total (a b c : Point) :
  PointOps.ltb a a = false
  ∧ (PointOps.ltb a b = true → PointOps.ltb b c = true →
     PointOps.ltb a c = true)
  ∧ (PointOps.ltb a b = true → PointOps.ltb b a = false)
  ∧ (PointOps.ltb a b = false → PointOps.ltb b a = false →
     PointOps.eqb a b = true ∧ a = b)
  ∧ Client.ltb a b = PointOps.ltb a b.
Proof.
  unfold PointOps.ltb, PointOps.eqb, Client.ltb.
  destruct a as [ax ay], b as [bx b_y], c as [cx cy]; simpl.
  repeat match goal with
         | |- context [?u =? ?v] => destruct (Z.eqb_spec u v)
         | |- context [?u <? ?v] => destruct (Z.ltb_spec u v)
         end; simpl;
    (split; [|split; [|split; [|split]]]);
    try reflexivity; try (intros; exfalso; lia);
    try (intros; reflexivity); try discriminate;
    try (intros; split; [reflexivity|f_equal; lia]);
    try (intros; discriminate).
Qed.

Lemma Point_order_strict_total_witness :
  PointOps.ltb (mkPoint 1 5) (mkPoint 2 0) = true
  ∧ PointOps.ltb (mkPoint 2 0) (mkPoint 2 7) = true
  ∧ PointOps.ltb (mkPoint 1 5) (mkPoint 2 7) = true
  ∧ PointOps.ltb (mkPoint 2 0) (mkPoint 1 5) = false.
Proof.
  destruct (Point_order_strict_total (mkPoint 1 5) (mkPoint 2 0)
              (mkPoint 2 7)) as (_ & Htrans & Hasym & _).
  split; [reflexivity|]. split; [reflexivity|].
  split; [apply Htrans; reflexivity|apply Hasym; reflexivity].
Defined.

(** X2.  [PointHash] puts the two coordinates side by side: on points
    whose coordinates fit a 32-bit [int] it never maps two different
    points to one value, and the value fits 64 bits. *)
Theorem PointHash_injective (p q : Point) :
  int32Point p → int32Point q →
  0 ≤ PointOps.hash p < 2 ^ 64
  ∧ (PointOps.hash p = PointOps.hash q → p = q).
Proof.
  intros [Hpx Hpy] [Hqx Hqy]. rewrite !hash_sum.
  pose proof (Z.mod_pos_bound (x p) (2 ^ 32) eq_refl).
  pose proof (Z.mod_pos_bound (y p) (2 ^ 32) eq_refl).
  pose proof (Z.mod_pos_bound (x q) (2 ^ 32) eq_refl).
  pose proof (Z.mod_pos_bound (y q) (2 ^ 32) eq_refl).
  split; [nia|]. intros E.
  assert (x p mod 2 ^ 32 = x q mod 2 ^ 32 ∧ y p mod 2 ^ 32 = y q mod 2 ^ 32)
    as [Ex Ey] by nia.
  destruct p as [px py], q as [qx qy]; simpl in *.
  f_equal.
  - revert Ex. Z.div_mod_to_equations. lia.
  - revert Ey. Z.div_mod_to_equations. lia.
Qed.

Lemma PointHash_injective_witness :
  int32Point PointOps.Null ∧ int32Point (mkPoint (-1) 0)
  ∧ 0 ≤ PointOps.hash PointOps.Null < 2 ^ 64
  ∧ PointOps.hash PointOps.Null ≠ PointOps.hash (mkPoint (-1) 0).
Proof.
  assert (H1 : int32Point PointOps.Null) by (unfold int32Point; simpl; lia).
  assert (H2 : int32Point (mkPoint (-1) 0)) by (unfold int32Point; simpl; lia).
  destruct (PointHash_injective PointOps.Null (mkPoint (-1) 0) H1 H2)
    as [Hrange Hinj].
  split; [exact H1|]. split; [exact H2|]. split; [exact Hrange|].
  intros E. apply Hinj in E. discriminate E.
Defined.

End PointExtras.

Section DirectionExtras.
Import DirectionUtils.

(** X3.  [getOpposite] and [isOpposite] tell the same story:
    [isOpposite a b] holds exactly when [a] is a real direction and [b] is
    [getOpposite a]; the test is symmetric; taking the opposite twice
    gives the direction back; NONE is its own opposite and is opposite to
    nothing. *)
Theorem opposite_functions_agree (a b : Direction) :
  (isOpposite a b = true ↔ a ≠ NONE ∧ b = getOpposite a)
  ∧ isOpposite a b = isOpposite b a
  ∧ getOpposite (getOpposite a) = a
  ∧ isOpposite a a = false
  ∧ isOpposite NONE a = false
  ∧ (getOpposite a = NONE ↔ a = NONE).
Proof.
  split; [apply isOpposite_getOpposite|].
  destruct a, b; simpl; repeat split; try done; discriminate.
Qed.

(** X4.  A step and then a step in the opposite direction end on the
    starting cell, and a step in a real direction leaves the cell for an
    adjacent one: for every head at least one cell inside the range of an
    [int], where no coordinate overflows. *)
Theorem step_opposite_returns (d : Direction) (h : Point) :
  d ≠ NONE → insideInt 1 h →
  ∃ nh, Snake.step d h = Some nh
        ∧ adjacent nh h
        ∧ nh ≠ h
        ∧ insideInt 0 nh
        ∧ Snake.step (getOpposite d) nh = Some h.
Proof.
  intros Hd [Hx Hy]. destruct h as [hx hy]. simpl in Hx, Hy.
  destruct d; [| | | |done]; eexists; (split; [reflexivity|]);
    unfold adjacent, insideInt; cbn [Snake.step getOpposite x y];
    rewrite ?int_wrap_small by lia;
    (split; [simpl; lia|]);
    (split; [intros [= E]; lia|]);
    (split; [simpl; lia|]);
    rewrite ?int_wrap_small by (simpl; lia); simpl;
    f_equal; f_equal; lia.
Qed.

Lemma step_opposite_returns_witness :
  ∃ nh, Snake.step LEFT (mkPoint 0 0) = Some nh
        ∧ adjacent nh (mkPoint 0 0)
        ∧ nh ≠ mkPoint 0 0
        ∧ insideInt 0 nh
        ∧ Snake.step (getOpposite LEFT) nh = Some (mkPoint 0 0).
Proof.
  apply (step_opposite_returns LEFT (mkPoint 0 0)); [discriminate|].
  unfold insideInt. simpl. lia.
Defined.

End DirectionExtras.

Section SnakeInvariantFacts.
Import Snake.

Lemma insideInt_mono (m m' : Z) (p : Point) :
  m' ≤ m → insideInt m p → insideInt m' p.
Proof. unfold insideInt. lia. Qed.

Lemma headInside_same_chain (m : Z) (s s' : Snake) :
  blocks_ s' = blocks_ s → headInside m s → headInside m s'.
Proof. unfold headInside. by intros ->. Qed.


(** Inside the [int] range a step leads to an adjacent cell, one cell
    closer to the ends of the range at most. *)
Lemma step_adjacent_new (m : Z) (d : Direction) (h nh : Point) :
  1 ≤ m → insideInt m h → step d h = Some nh →
  adjacent nh h ∧ insideInt (m - 1) nh.
Proof.
  intros Hm Hin Hs.
  rewrite (step_inside d h nh (insideInt_mono m 1 h Hm Hin) Hs).
  destruct Hin as [Hx Hy]. unfold adjacent, insideInt.
  destruct d; simpl in *; try done; lia.
Qed.





Lemma snakeWellFormed_create (m : Z) (h : Point) (L : Z) :
  1 ≤ L → insideInt m h →
  ∃ s, create h L = Some s ∧ snakeWellFormed s ∧ headInside m s
       ∧ blocks_ s = [h] ∧ growthPending_ s = L - 1
       ∧ currentDirection_ s = NONE ∧ alive_ s = true.
Proof.
  intros HL Hin. unfold create.
  destruct (Z.ltb_spec L 1); [lia|].
  eexists. split; [reflexivity|].
  split; [|split; [by intros ? [= <-]|done]].
  split; [by split|]. split; [|split].
  - intros p. simpl. rewrite elem_of_singleton, list_elem_of_singleton. done.
  - intros [|i] a b; simpl; [done|done].
  - simpl. lia.
Qed.



(** [n] moves of a live snake with a direction and [g] cells to grow,
    from a head with room for [n] steps. *)
Lemma movesInARow_schedule (n : nat) (s : Snake) (h : Point) (body : list Point) :
  alive_ s = true → currentDirection_ s ≠ NONE → blocks_ s = h :: body →
  0 ≤ growthPending_ s → insideInt (Z.of_nat n) h →
  ∃ s', movesInARow n s = Some s'
        ∧ alive_ s' = true
        ∧ currentDirection_ s' = currentDirection_ s
        ∧ getLength s'
          = getLength s + Z.min (Z.of_nat n) (growthPending_ s)
        ∧ growthPending_ s' = Z.max 0 (growthPending_ s - Z.of_nat n)
        ∧ getHead s'
          = Some (mkPoint
                    (x h + Z.of_nat n * (unitVector (currentDirection_ s)).1)
                    (y h + Z.of_nat n * (unitVector (currentDirection_ s)).2)).
Proof.
  revert s h body. induction n as [|n IH]; intros s h body Ha Hd Hb Hg Hin.
  { exists s. split; [done|]. split; [done|]. split; [done|].
    split; [lia|]. split; [lia|].
    unfold getHead. rewrite Hb. simpl. destruct h; simpl.
    f_equal. f_equal; lia. }
  destruct (moveWithDelta_alive s h body Ha Hd Hb)
    as (nh & rest & tail & Hs & Hr & Hm).
  cbn [movesInARow]. unfold move. rewrite Hm.
  assert (Hnh : nh = mkPoint (x h + (unitVector (currentDirection_ s)).1)
                             (y h + (unitVector (currentDirection_ s)).2)).
  { apply step_inside; [|done]. apply (insideInt_mono (Z.of_nat (S n))); [lia|done]. }
  assert (Hnin : insideInt (Z.of_nat n) nh).
  { destruct (step_adjacent_new (Z.of_nat (S n)) _ _ _ ltac:(lia) Hin Hs)
      as [_ H]. apply (insideInt_mono (Z.of_nat (S n) - 1)); [lia|done]. }
  assert (Hlen : ∀ (l : list Point), l = rest ++ [tail] →
                 length l = S (length rest)).
  { intros l ->. rewrite length_app. simpl. lia. }
  destruct (0 <? growthPending_ s) eqn:Egp; simpl.
  - apply Z.ltb_lt in Egp.
    destruct (IH (mkSnake (nh :: blocks_ s) ({[nh]} ∪ blockSet_ s)
                    (currentDirection_ s) (invincibleRounds_ s) true
                    (growthPending_ s - 1)) nh (blocks_ s))
      as (s' & Hrun & Ha' & Hd' & Hl' & Hg' & Hh'); simpl; try done; [lia|].
    exists s'. split; [exact Hrun|]. split; [done|]. split; [done|].
    unfold getLength in *. simpl in *.
    split; [lia|]. split; [lia|].
    rewrite Hh', Hnh. simpl. f_equal. f_equal; lia.
  - apply Z.ltb_ge in Egp. assert (growthPending_ s = 0) as Hz by lia.
    destruct (IH (mkSnake (nh :: rest) ({[nh]} ∪ (blockSet_ s ∖ {[tail]}))
                    (currentDirection_ s) (invincibleRounds_ s) true
                    (growthPending_ s)) nh rest)
      as (s' & Hrun & Ha' & Hd' & Hl' & Hg' & Hh'); simpl; try done.
    exists s'. split; [exact Hrun|]. split; [done|]. split; [done|].
    unfold getLength in *. simpl in *. rewrite (Hlen _ Hr).
    split; [lia|]. split; [lia|].
    rewrite Hh', Hnh. simpl. f_equal. f_equal; lia.
Qed.

End SnakeInvariantFacts.

Section SnakeExtras.
Import Snake.



(** X6.  The constructor gives a one-cell snake that grows into its
    length: after [Snake(head, L)], one [setDirection d] with a real
    direction and [n] moves, the snake is alive, has length
    [min(L, n + 1)], still has [max(0, L - 1 - n)] cells to grow, and its
    head is [n] cells from the start in direction [d].  The start lies at
    least [n] cells inside the range of an [int], so that no move
    overflows a coordinate. *)
Theorem initial_growth_schedule (initialHead : Point) (initialLength : Z)
    (d : Direction) (n : nat) :
  1 ≤ initialLength → d ≠ NONE → insideInt (Z.of_nat n) initialHead →
  ∃ s0 s, create initialHead initialLength = Some s0
          ∧ movesInARow n (setDirection d s0) = Some s
          ∧ alive_ s = true
          ∧ getLength s = Z.min initialLength (Z.of_nat n + 1)
          ∧ growthPending_ s = Z.max 0 (initialLength - 1 - Z.of_nat n)
          ∧ getHead s
            = Some (mkPoint (x initialHead + Z.of_nat n * (unitVector d).1)
                            (y initialHead + Z.of_nat n * (unitVector d).2)).
Proof.
  intros HL Hd Hin.
  destruct (snakeWellFormed_create _ initialHead initialLength HL Hin)
    as (s0 & Hc & _ & _ & Hb & Hg & Hdir & Ha).
  assert (Hset : setDirection d s0
                 = mkSnake (blocks_ s0) (blockSet_ s0) d
                     (invincibleRounds_ s0) (alive_ s0) (growthPending_ s0)).
  { unfold setDirection. rewrite Hdir. by rewrite bool_decide_eq_true_2. }
  destruct (movesInARow_schedule n (setDirection d s0) initialHead [])
    as (s & Hrun & Ha' & _ & Hlen & Hgp & Hh);
    rewrite ?Hset; simpl; try done; [lia|].
  exists s0, s. split; [done|]. split; [done|]. split; [done|].
  rewrite Hset in Hlen, Hgp, Hh. unfold getLength in *. simpl in *.
  rewrite Hb in Hlen. simpl in Hlen.
  split; [lia|]. split; [lia|done].
Qed.

Lemma initial_growth_schedule_witness :
  ∃ s0 s, create (mkPoint 5 5) 3 = Some s0
          ∧ movesInARow 4 (setDirection RIGHT s0) = Some s
          ∧ alive_ s = true
          ∧ getLength s = Z.min 3 (Z.of_nat 4 + 1)
          ∧ growthPending_ s = Z.max 0 (3 - 1 - Z.of_nat 4)
          ∧ getHead s
            = Some (mkPoint (5 + Z.of_nat 4 * (unitVector RIGHT).1)
                            (5 + Z.of_nat 4 * (unitVector RIGHT).2)).
Proof.
  apply (initial_growth_schedule (mkPoint 5 5) 3 RIGHT 4);
    [lia|discriminate|].
  unfold insideInt. simpl. lia.
Defined.

(** X7.  Eating shows on the next move: for a live snake with a direction
    and nothing left to grow, [grow] followed by [move] keeps every cell
    of the chain behind the new head, so the length rises by one, and the
    move after that keeps the length. *)
Theorem grow_lengthens_next_move (s : Snake) (h : Point) (body : list Point) :
  alive_ s = true → currentDirection_ s ≠ NONE → blocks_ s = h :: body →
  growthPending_ s = 0 →
  ∃ s1 s2 nh,
    move (grow s) = Some s1
    ∧ step (currentDirection_ s) h = Some nh
    ∧ blocks_ s1 = nh :: blocks_ s
    ∧ getLength s1 = getLength s + 1
    ∧ growthPending_ s1 = 0
    ∧ move s1 = Some s2
    ∧ getLength s2 = getLength s1.
Proof.
  intros Ha Hd Hb Hg.
  destruct (moveWithDelta_alive (grow s) h body Ha Hd Hb)
    as (nh & rest & tail & Hs & Hr & Hm).
  simpl in Hm. rewrite Hg in Hm. simpl in Hm.
  set (s1 := mkSnake (nh :: blocks_ s) ({[nh]} ∪ blockSet_ s)
               (currentDirection_ s) (invincibleRounds_ s) true 0).
  destruct (moveWithDelta_alive s1 nh (blocks_ s) eq_refl Hd eq_refl)
    as (nh2 & rest2 & tail2 & Hs2 & Hr2 & Hm2).
  simpl in Hm2, Hr2.
  exists s1, (mkSnake (nh2 :: rest2) ({[nh2]} ∪ (blockSet_ s1 ∖ {[tail2]}))
                (currentDirection_ s) (invincibleRounds_ s) true 0), nh.
  unfold move. rewrite Hm, Hm2. simpl.
  split; [reflexivity|]. split; [exact Hs|]. split; [reflexivity|].
  unfold getLength. simpl. split; [lia|]. split; [reflexivity|].
  split; [reflexivity|].
  apply (f_equal length) in Hr2. rewrite length_app in Hr2.
  simpl in Hr2. lia.
Qed.

Lemma grow_lengthens_next_move_witness :
  ∃ s1 s2 nh,
    move (grow cruisingSnake) = Some s1
    ∧ step (currentDirection_ cruisingSnake) (mkPoint 3 3) = Some nh
    ∧ blocks_ s1 = nh :: blocks_ cruisingSnake
    ∧ getLength s1 = getLength cruisingSnake + 1
    ∧ growthPending_ s1 = 0
    ∧ move s1 = Some s2
    ∧ getLength s2 = getLength s1.
Proof.
  apply (grow_lengthens_next_move cruisingSnake (mkPoint 3 3)
           [mkPoint 2 3; mkPoint 1 3]);
    [reflexivity|discriminate|reflexivity|reflexivity].
Defined.

(** X8.  The invincibility counter counts down to zero and stops there:
    from a counter that is not negative, [n] calls of
    [decreaseInvincibleRounds] leave [max(0, counter - n)] and change
    nothing else of the snake. *)
Theorem invincibility_counts_down (n : nat) (s : Snake) :
  0 ≤ invincibleRounds_ s →
  decreaseTimes n s
  = setInvincibleRounds (Z.max 0 (invincibleRounds_ s - Z.of_nat n)) s.
Proof.
  revert s. induction n as [|n IH]; intros s Hs.
  - simpl. destruct s; unfold setInvincibleRounds; simpl in *.
    f_equal. lia.
  - cbn [decreaseTimes]. unfold decreaseInvincibleRounds.
    destruct (Z.ltb_spec 0 (invincibleRounds_ s)).
    + rewrite IH by (simpl; lia). unfold setInvincibleRounds. simpl.
      f_equal. lia.
    + rewrite IH by lia. unfold setInvincibleRounds. f_equal. lia.
Qed.

Lemma invincibility_counts_down_witness :
  0 ≤ invincibleRounds_ (setInvincibleRounds 2 cruisingSnake)
  ∧ decreaseTimes 5 (setInvincibleRounds 2 cruisingSnake) = cruisingSnake.
Proof.
  split; [simpl; lia|].
  rewrite (invincibility_counts_down 5 (setInvincibleRounds 2 cruisingSnake));
    [reflexivity|simpl; lia].
Defined.

End SnakeExtras.

Section EngineStepExtras.

(** X9.  A move that the classifier lets through keeps the snake exact.
    Let the body set of the player's live snake be exactly the cells of a
    chain without repetition, and let [checkCollision] answer NONE for the
    cell one step ahead of the head.  Then [moveWithDelta] moves the head
    to that cell, the cell is on the grid and on no other live in-game
    snake, and afterwards the body set is again exactly the cells of a
    chain without repetition. *)
Theorem unobstructed_move_keeps_mirror (mm : MapManager.MapManager)
    (player : Player.Player) (allPlayers : list (option Player.Player))
    (h nh : Point) :
  exactMirror (Player.snake_ player) →
  Snake.alive_ (Player.snake_ player) = true →
  head (Snake.blocks_ (Player.snake_ player)) = Some h →
  Snake.step (Snake.currentDirection_ (Player.snake_ player)) h = Some nh →
  MapManager.checkCollision mm player nh allPlayers = MapManager.NONE →
  ∃ r s', Snake.moveWithDelta (Player.snake_ player) = Some (r, s')
          ∧ Snake.moved r = true
          ∧ Snake.newHead r = nh
          ∧ head (Snake.blocks_ s') = Some nh
          ∧ inBounds mm nh
          ∧ ¬ hitsOtherBody player nh allPlayers
          ∧ exactMirror s'.
Proof.
  set (s := Player.snake_ player).
  intros [Hset Hnd] Ha Hh Hs Hcc.
  assert (Hd : Snake.currentDirection_ s ≠ NONE).
  { intros E. rewrite E in Hs. discriminate Hs. }
  assert (∃ body, Snake.blocks_ s = h :: body) as [body Hb].
  { destruct (Snake.blocks_ s) as [|h' body]; [done|].
    injection Hh as ->. by exists body. }
  pose proof (step_new _ _ _ Hs) as Hne.
  unfold MapManager.checkCollision, Player.getSnake in Hcc. fold s in Hcc.
  destruct (MapManager.isOutOfBounds mm nh) eqn:Eo; [done|].
  destruct (Snake.collidesWithSelf nh s) eqn:Ec; [done|].
  destruct (MapManager.hitsOtherSnake player nh allPlayers) eqn:Eh; [done|].
  assert (Hin : inBounds mm nh).
  { apply isValidPosition_spec. unfold MapManager.isOutOfBounds in Eo.
    by apply negb_false_iff in Eo. }
  assert (Hother : ¬ hitsOtherBody player nh allPlayers).
  { intros H. apply hitsOtherSnake_spec in H. congruence. }
  assert (Hfree : nh ∉ Snake.blocks_ s).
  { intros Hin'. unfold Snake.collidesWithSelf in Ec. rewrite Hb in Ec, Hin'.
    destruct body as [|b body]; simpl in Ec.
    - apply list_elem_of_singleton in Hin'. done.
    - destruct (PointOps.eqb nh h) eqn:E.
      + apply Point_eqb_spec in E. done.
      + apply bool_decide_eq_false in Ec. apply Ec, Hset.
        by rewrite Hb. }
  destruct (moveWithDelta_alive s h body Ha Hd Hb)
    as (nh' & rest & tail & Hs' & Hr & Hm).
  rewrite Hs in Hs'. injection Hs' as <-.
  rewrite Hm. destruct (0 <? Snake.growthPending_ s); eexists _, _;
    (split; [reflexivity|]); simpl; repeat (split; [done|]);
    split; simpl.
  - intros p. rewrite elem_of_union, elem_of_singleton, elem_of_cons, Hset.
    done.
  - by apply NoDup_cons.
  - intros p. rewrite elem_of_union, elem_of_singleton, elem_of_cons,
      elem_of_difference, elem_of_singleton, Hset, Hr, elem_of_app,
      list_elem_of_singleton.
    rewrite Hr in Hnd. apply NoDup_app in Hnd as (_ & Hdis & _).
    split.
    + intros [?|[[?|?] ?]]; tauto.
    + intros [?|Hp]; [by left|right]. split; [by left|].
      intros ->. apply (Hdis tail Hp). by apply list_elem_of_singleton.
  - rewrite Hr in Hnd, Hfree. apply NoDup_app in Hnd as (Hnr & _).
    apply NoDup_cons. split; [|done].
    intros Hin'. apply Hfree, elem_of_app. by left.
Qed.

Lemma unobstructed_move_keeps_mirror_witness :
  ∃ r s', Snake.moveWithDelta (Player.snake_ playerA) = Some (r, s')
          ∧ Snake.moved r = true
          ∧ Snake.newHead r = mkPoint 4 3
          ∧ head (Snake.blocks_ s') = Some (mkPoint 4 3)
          ∧ inBounds arena (mkPoint 4 3)
          ∧ ¬ hitsOtherBody playerA (mkPoint 4 3) [Some playerA; None]
          ∧ exactMirror s'.
Proof.
  apply (unobstructed_move_keeps_mirror arena playerA [Some playerA; None]
           (mkPoint 3 3) (mkPoint 4 3));
    [|reflexivity|reflexivity|reflexivity|reflexivity].
  split.
  - intros p. simpl.
    rewrite !elem_of_union, !elem_of_singleton, !elem_of_cons, elem_of_nil.
    tauto.
  - apply (bool_decide_unpack _). vm_compute. exact I.
Defined.

End EngineStepExtras.

Section SpawnFacts.
Import MapManager.




End SpawnFacts.

Section SpawnExtras.
Import MapManager.
Context {Rng : Type} (uniform_int : Z → Z → Rng → Z * Rng).



(** X28.  [generateFood] places food on free cells only.  Whatever the
    random engine draws, every returned food lies on the grid and on no
    body cell of a live in-game snake, no two returned foods share a
    cell, and there are at most min(count, max(1, W*H/2)) of them; for a
    count that is not positive or a grid without cells nothing is
    returned and the engine is not used. *)
Theorem generateFood_avoids_live_snakes (mm : MapManager) (count : Z)
    (players : list (option Player.Player)) (g : Rng) :
  let foods := (generateFood uniform_int mm count players g).1 in
  Forall (acceptableSlow mm players) foods
  ∧ NoDup (position_ <$> foods)
  ∧ Z.of_nat (length foods)
    ≤ Z.max 0 (Z.min count (Z.max 1 (width_ mm * height_ mm ÷ 2)))
  ∧ (count ≤ 0 ∨ width_ mm ≤ 0 ∨ height_ mm ≤ 0 →
     generateFood uniform_int mm count players g = ([], g)).
Proof.
  cbv zeta.
  destruct (generateFood_safe uniform_int mm count players g)
    as (H1 & H2 & H3).
  repeat (split; [done|]).
  intros Hedge. unfold generateFood.
  destruct (Z.leb_spec count 0); [done|].
  assert ((width_ mm <=? 0) || (height_ mm <=? 0) = true) as ->; [|done].
  apply orb_true_iff. rewrite !Z.leb_le. lia.
Qed.

End SpawnExtras.

Section CollisionExtras.

(** The other players that the classifier looks at. *)
Lemma hitsOtherBody_same_others (player : Player.Player) (p : Point)
    (l l' : list (option Player.Player)) :
  (∀ o, Player.id_ o ≠ Player.id_ player → Player.inGame_ o = true →
        Snake.alive_ (Player.snake_ o) = true →
        Some o ∈ l ↔ Some o ∈ l') →
  hitsOtherBody player p l ↔ hitsOtherBody player p l'.
Proof.
  intros Hsame. unfold hitsOtherBody.
  split; intros (o & Ho & Hid & Hg & Ha & Hp); exists o;
    (split; [by apply (Hsame o Hid Hg Ha)|done]).
Qed.

(** X11.  The answer of [checkCollision] depends on the list of players
    only through the set of the other players that are in game with a
    live snake: two lists with the same such members give the same
    answer, so order, repetitions, null entries, the player's own entry
    and dead or departed players make no difference. *)
Theorem checkCollision_depends_on_live_others (mm : MapManager.MapManager)
    (player : Player.Player) (newPos : Point)
    (l l' : list (option Player.Player)) :
  (∀ o, Player.id_ o ≠ Player.id_ player → Player.inGame_ o = true →
        Snake.alive_ (Player.snake_ o) = true →
        Some o ∈ l ↔ Some o ∈ l') →
  MapManager.checkCollision mm player newPos l
  = MapManager.checkCollision mm player newPos l'.
Proof.
  intros Hsame. unfold MapManager.checkCollision.
  assert (MapManager.hitsOtherSnake player newPos l
          = MapManager.hitsOtherSnake player newPos l') as ->; [|done].
  pose proof (hitsOtherSnake_spec player newPos l) as H1.
  pose proof (hitsOtherSnake_spec player newPos l') as H2.
  pose proof (hitsOtherBody_same_others player newPos l l' Hsame) as H3.
  destruct (MapManager.hitsOtherSnake player newPos l),
           (MapManager.hitsOtherSnake player newPos l'); try done.
  - symmetry. apply H2, H3, H1. done.
  - apply H1, H3, H2. done.
Qed.

Lemma checkCollision_depends_on_live_others_witness :
  MapManager.checkCollision arena playerA (mkPoint 4 3) arenaPlayers
  = MapManager.checkCollision arena playerA (mkPoint 4 3)
      [Some playerB; Some playerB; Some (examplePlayer "C" cruisingSnake false)].
Proof.
  apply (checkCollision_depends_on_live_others arena playerA (mkPoint 4 3)).
  intros o Hid Hg Ha. unfold arenaPlayers.
  rewrite !elem_of_cons, !elem_of_nil. split.
  - intros [[= ->]|[?|[?|?]]]; try done. by left.
  - intros [?|[?|[[= ->]|?]]]; try done; auto.
Defined.

(** X29.  A player who left obstructs nobody.  After [setInGame(false)]
    the player's snake is not alive, and an entry for that player in the
    list of players changes neither the answer of [checkCollision] for
    any mover and cell, nor of [isPositionOccupied], nor of
    [isSafeArea]. *)
Theorem departed_player_obstructs_nobody (q player : Player.Player)
    (mm : MapManager.MapManager) (pos center : Point) (radius : Z)
    (rest : list (option Player.Player)) :
  Snake.alive_ (Player.snake_ (Player.setInGame false q)) = false
  ∧ MapManager.checkCollision mm player pos
      (Some (Player.setInGame false q) :: rest)
    = MapManager.checkCollision mm player pos rest
  ∧ MapManager.isPositionOccupied pos
      (Some (Player.setInGame false q) :: rest)
    = MapManager.isPositionOccupied pos rest
  ∧ MapManager.isSafeArea mm center radius
      (Some (Player.setInGame false q) :: rest)
    = MapManager.isSafeArea mm center radius rest.
Proof.
  split; [|split; [|split]].
  - unfold Player.setInGame. simpl.
    by destruct (Snake.alive_ (Player.snake_ q)) eqn:E.
  - unfold MapManager.checkCollision. simpl.
    by destruct (String.eqb _ _).
  - done.
  - done.
Qed.

End CollisionExtras.

Section WorldFacts.
Import GameState.

Lemma isFoodAt_spec (pos : Point) (foods : list Food) :
  MapManager.isFoodAt pos foods = true
  ↔ ∃ f, f ∈ foods ∧ position_ f = pos.
Proof.
  unfold MapManager.isFoodAt. rewrite existsb_exists.
  split; intros (f & Hf & E); exists f.
  - split; [by apply list_elem_of_In|by apply Point_eqb_spec].
  - split; [by apply list_elem_of_In|by apply Point_eqb_spec].
Qed.

Lemma find_hasId_app (playerId : string) (l l' : list (option Player.Player)) :
  List.find (hasId playerId) (l ++ l')
  = match List.find (hasId playerId) l with
    | Some o => Some o
    | None => List.find (hasId playerId) l'
    end.
Proof.
  induction l as [|o l IH]; simpl; [done|].
  by destruct (hasId playerId o).
Qed.

Lemma existsb_hasId_find (playerId : string) (l : list (option Player.Player)) :
  existsb (hasId playerId) l = true
  ↔ ∃ q, mjoin (List.find (hasId playerId) l) = Some q.
Proof.
  induction l as [|o l IH]; simpl.
  - split; [done|by intros [? ?]].
  - destruct (hasId playerId o) eqn:E; simpl; [|done].
    apply hasId_true in E as (q & -> & _). split; [by exists q|done].
Qed.

Lemma elem_of_playerIds (i : string) (l : list (option Player.Player)) :
  i ∈ omap (fmap Player.getId) l ↔ existsb (hasId i) l = true.
Proof.
  rewrite list_elem_of_omap, existsb_exists. split.
  - intros ([q|] & Hin & E); [|done]. simpl in E. injection E as <-.
    exists (Some q). split; [by apply list_elem_of_In|].
    simpl. apply String.eqb_refl.
  - intros (o & Hin & E). apply hasId_true in E as (q & -> & <-).
    exists (Some q). split; [by apply list_elem_of_In|done].
Qed.

Lemma playersDistinct_same_players (st st' : GameState) :
  players_ st' = players_ st → playersDistinct st → playersDistinct st'.
Proof. unfold playersDistinct, playerIds. by intros ->. Qed.

Lemma playersDistinct_addPlayer (player : option Player.Player)
    (st : GameState) :
  playersDistinct st → playersDistinct (addPlayer player st).
Proof.
  intros [Hnn Hnd]. unfold addPlayer. destruct player as [p|]; [|done].
  destruct (existsb _ _) eqn:Ex; [done|].
  unfold playersDistinct, playerIds. simpl. split.
  - rewrite elem_of_app, list_elem_of_singleton. by intros [?|?].
  - rewrite omap_app. simpl. apply NoDup_app. split; [done|]. split.
    + intros i Hi Hi'. apply list_elem_of_singleton in Hi'. subst i.
      apply elem_of_playerIds in Hi. unfold Player.getId in *. congruence.
    + apply NoDup_singleton.
Qed.

Lemma playersDistinct_removePlayer (playerId : string) (st : GameState) :
  playersDistinct st → playersDistinct (removePlayer playerId st).
Proof.
  intros [Hnn Hnd]. unfold playersDistinct, playerIds in *. simpl. split.
  - intros Hin. apply list_elem_of_In, filter_In in Hin as [Hin _].
    by apply list_elem_of_In in Hin.
  - revert Hnd. clear Hnn.
    induction (players_ st) as [|o l IH]; simpl; [done|].
    assert (Hsub : ∀ i, i ∈ omap (fmap Player.getId)
                       (List.filter (λ p, negb (hasId playerId p)) l)
                     → i ∈ omap (fmap Player.getId) l).
    { intros i. rewrite !list_elem_of_omap.
      intros (o' & Hin & E). exists o'. split; [|done].
      apply list_elem_of_In, filter_In in Hin as [Hin _].
      by apply list_elem_of_In. }
    destruct o as [q|]; simpl.
    + rewrite NoDup_cons. intros [Hq Hnd].
      destruct (negb (Player.getId q =? playerId)%string); simpl; [|auto].
      apply NoDup_cons. split; [|auto]. intros H. by apply Hq, Hsub.
    + auto.
Qed.

Lemma playersDistinct_apply (op : Op) (st st' : GameState) :
  apply op st = Some st' → playersDistinct st → playersDistinct st'.
Proof.
  destruct op as [| |pl|pid|fd|pos| |nw|t|pid|pid|pos|pos|]; simpl;
    intros E Hd; try (injection E as <-);
    try (by apply (playersDistinct_same_players st)).
  - split; [by intros ?%elem_of_nil|apply NoDup_nil_2].
  - by apply playersDistinct_addPlayer.
  - by apply playersDistinct_removePlayer.
  - apply (playersDistinct_same_players st); [|done].
    unfold addFood. by case_bool_decide.
  - apply (playersDistinct_same_players st); [|done].
    unfold removeFood in E. destruct (foodIndex_ st !! pos); [|by injection E as <-].
    repeat case_match; try done; by injection E as <-.
Qed.

End WorldFacts.

Section WorldExtras.
Import GameState.

(** X12.  Without [reset] the food containers never disagree.  Every
    sequence of the other public operations, started on a new world
    state, runs without an access outside the food vector and ends in a
    state where the position set is the set of positions in the vector,
    no position occurs twice, the map sends each food's position to its
    index, each map entry points at a food lying at that position, and
    the constant-time [hasFoodAt] gives the answer of the linear scan
    [MapManager::isFoodAt] over the vector. *)
Theorem food_containers_agree_without_reset (ops : list Op) :
  Forall (λ op, op ≠ OpReset) ops →
  ∃ st, run ops initial = Some st
        ∧ foodConsistent st
        ∧ indexPointsAtFood st
        ∧ ∀ pos, hasFoodAt pos st = MapManager.isFoodAt pos (foods_ st).
Proof.
  intros Hops.
  destruct (foodSound_run ops initial Hops foodSound_initial)
    as (st & Hrun & Hs).
  exists st. split; [done|].
  destruct (foodSound_consistent st Hs) as [Hc Hp].
  split; [done|]. split; [done|].
  intros pos. apply Bool.eq_iff_eq_true.
  rewrite isFoodAt_spec. by apply foodSound_hasFoodAt.
Qed.

Lemma food_containers_agree_without_reset_witness :
  ∃ st, run [OpAddFood (mkFood (mkPoint 1 1));
             OpAddFood (mkFood (mkPoint 2 2));
             OpAddFood (mkFood (mkPoint 1 1));
             OpRemoveFood (mkPoint 1 1);
             OpClearDeltaTracking] initial = Some st
        ∧ foodConsistent st
        ∧ indexPointsAtFood st
        ∧ ∀ pos, hasFoodAt pos st = MapManager.isFoodAt pos (foods_ st).
Proof.
  apply food_containers_agree_without_reset.
  repeat (apply Forall_cons; split; [discriminate|]). apply Forall_nil_2.
Defined.

(** X13.  Adding food at a free cell and removing it again restores the
    world state exactly: if the set and the map have the same keys and
    [hasFoodAt pos] is false, then [removeFood pos] after
    [addFood (Food pos)] succeeds and gives back the state before the
    two calls, vector, set and map included. *)
Theorem addFood_removeFood_round_trip (pos : Point) (st : GameState) :
  keysAgree st →
  hasFoodAt pos st = false →
  removeFood pos (addFood (mkFood pos) st) = Some st.
Proof.
  intros Hk Hfree. unfold hasFoodAt in Hfree.
  apply bool_decide_eq_false in Hfree.
  assert (Hnone : foodIndex_ st !! pos = None).
  { apply eq_None_not_Some. intros H. by apply Hfree, Hk. }
  unfold addFood. simpl. rewrite bool_decide_eq_false_2 by done.
  set (st1 := withFood _ _ _ st).
  assert (Hlen : length (foods_ st1) = S (length (foods_ st))).
  { unfold st1. simpl. rewrite length_app. simpl. lia. }
  assert (Hi : foodIndex_ st1 !! pos
               = Some (Z.of_nat (length (foods_ st)))).
  { unfold st1. simpl. rewrite lookup_insert_eq, length_app. simpl.
    by rewrite Nat.add_1_r, size_t_sub_succ. }
  destruct (removeFood_present pos st1 (length (foods_ st)) Hi)
    as (atLast & Hlast & ->); [lia|].
  rewrite decide_True by lia.
  unfold st1 in *. simpl in *.
  rewrite last_snoc in Hlast. injection Hlast as <-.
  rewrite insert_app_r_alt, Nat.sub_diag by lia. simpl.
  rewrite removelast_last.
  rewrite delete_insert_eq, delete_id by done.
  assert (({[pos]} ∪ foodSet_ st) ∖ {[pos]} = foodSet_ st) as ->.
  { apply set_eq. intros q.
    rewrite elem_of_difference, elem_of_union, elem_of_singleton.
    split; [tauto|]. intros Hq. split; [tauto|]. by intros ->. }
  by destruct st.
Qed.

Lemma addFood_removeFood_round_trip_witness :
  removeFood (mkPoint 2 2)
    (addFood (mkFood (mkPoint 2 2))
       (addFood (mkFood (mkPoint 1 1)) initial))
  = Some (addFood (mkFood (mkPoint 1 1)) initial).
Proof.
  apply addFood_removeFood_round_trip; [|reflexivity].
  apply (foodReachable_addFood _ _ foodReachable_initial).
Defined.

(** X14.  [removeFood] takes out exactly the food at the position.  In a
    state whose food containers are sound and that has food at [pos],
    the call succeeds; afterwards [hasFoodAt pos] is false, every other
    position answers as before, and the vector holds the same foods as
    before, in some order, without the one at [pos]. *)
Theorem removeFood_removes_exactly (pos : Point) (st : GameState) :
  foodSound st →
  hasFoodAt pos st = true →
  ∃ st', removeFood pos st = Some st'
         ∧ hasFoodAt pos st' = false
         ∧ (∀ q, q ≠ pos → hasFoodAt q st' = hasFoodAt q st)
         ∧ mkFood pos :: foods_ st' ≡ₚ foods_ st.
Proof.
  intros Hs Hhas. pose proof Hs as [[H1 H2] H3].
  unfold hasFoodAt in Hhas. apply bool_decide_eq_true in Hhas.
  pose proof (H3 _ Hhas) as Hin.
  apply list_elem_of_fmap in Hin as ([p0] & Ef0 & Hf0). simpl in Ef0.
  subst p0. apply list_elem_of_lookup in Hf0 as [j Hj].
  pose proof (H1 j _ Hj) as Hi. simpl in Hi.
  pose proof (lookup_lt_Some _ _ _ Hj) as Hlt.
  destruct (removeFood_present _ _ _ Hi Hlt) as (atLast & Hlast & Hr).
  eexists. split; [exact Hr|]. simpl.
  split; [|split].
  - unfold hasFoodAt. simpl. apply bool_decide_eq_false.
    rewrite elem_of_difference, elem_of_singleton. tauto.
  - intros q Hq. unfold hasFoodAt. simpl. apply bool_decide_ext.
    rewrite elem_of_difference, elem_of_singleton. tauto.
  - apply last_Some in Hlast as [l' El]. rewrite El in *.
    rewrite length_app in Hlt. simpl in Hlt.
    destruct (decide (j = length l')) as [->|Hne].
    + rewrite lookup_app_r, Nat.sub_diag in Hj by lia.
      injection Hj as ->.
      rewrite insert_app_r_alt, Nat.sub_diag by lia. simpl.
      rewrite removelast_last. by rewrite Permutation_cons_append.
    + rewrite lookup_app_l in Hj by lia.
      rewrite insert_app_l by lia. rewrite removelast_last.
      rewrite insert_take_drop by lia.
      rewrite <- (take_drop_middle l' j _ Hj) at 3.
      solve_Permutation.
Qed.

Lemma removeFood_removes_exactly_witness :
  ∃ st', removeFood (mkPoint 1 1)
           (addFood (mkFood (mkPoint 2 2))
              (addFood (mkFood (mkPoint 1 1)) initial)) = Some st'
         ∧ hasFoodAt (mkPoint 1 1) st' = false
         ∧ (∀ q, q ≠ mkPoint 1 1 →
                 hasFoodAt q st'
                 = hasFoodAt q (addFood (mkFood (mkPoint 2 2))
                                  (addFood (mkFood (mkPoint 1 1)) initial)))
         ∧ mkFood (mkPoint 1 1) :: foods_ st'
           ≡ₚ foods_ (addFood (mkFood (mkPoint 2 2))
                        (addFood (mkFood (mkPoint 1 1)) initial)).
Proof.
  apply removeFood_removes_exactly; [|reflexivity].
  apply foodSound_addFood, foodSound_addFood, foodSound_initial.
Defined.

(** X15.  The player list is keyed by id and the first registration
    wins.  After [addPlayer p], [getPlayer] of p's id answers the player
    that was registered under that id before the call if there was one,
    and in that case the state is unchanged, and answers [p] otherwise;
    every other id answers as before.  A null pointer is not added. *)
Theorem addPlayer_first_registration_wins (p : Player.Player)
    (st : GameState) :
  getPlayer (Player.getId p) (addPlayer (Some p) st)
  = Some (default p (getPlayer (Player.getId p) st))
  ∧ (is_Some (getPlayer (Player.getId p) st) → addPlayer (Some p) st = st)
  ∧ (∀ playerId, playerId ≠ Player.getId p →
       getPlayer playerId (addPlayer (Some p) st) = getPlayer playerId st)
  ∧ addPlayer None st = st.
Proof.
  unfold addPlayer, getPlayer.
  pose proof (existsb_hasId_find (Player.getId p) (players_ st)) as Hex.
  split; [|split; [|split; [|done]]].
  - destruct (existsb _ _) eqn:Ex.
    + destruct Hex as [Hex _]. destruct (Hex eq_refl) as [q Hq].
      by rewrite Hq.
    + simpl. rewrite find_hasId_app.
      destruct (List.find _ (players_ st)) as [o|] eqn:Ef.
      * apply find_some in Ef as [_ Ho].
        apply hasId_true in Ho as (q & -> & _).
        assert (false = true); [|done]. apply Hex. by exists q.
      * simpl. by rewrite String.eqb_refl.
  - intros [q Hq]. destruct (existsb _ _) eqn:Ex; [done|].
    assert (false = true); [|done]. apply Hex. by exists q.
  - clear Hex. intros playerId Hne. destruct (existsb _ _); [done|]. simpl.
    rewrite find_hasId_app.
    destruct (List.find (hasId playerId) (players_ st)); [done|]. simpl.
    match goal with
    | |- context [String.eqb ?a ?b] =>
      destruct (String.eqb_spec a b); [congruence|done]
    end.
Qed.

(** X16.  [removePlayer] forgets the id and nothing else: afterwards
    [getPlayer] of the removed id answers null, and every other id
    answers as before. *)
Theorem removePlayer_forgets_only_that_id (playerId : string)
    (st : GameState) :
  getPlayer playerId (removePlayer playerId st) = None
  ∧ ∀ other, other ≠ playerId →
      getPlayer other (removePlayer playerId st) = getPlayer other st.
Proof.
  unfold getPlayer, removePlayer. simpl. split.
  - destruct (List.find _ _) as [o|] eqn:Ef; [|done].
    apply find_some in Ef as [Hin Ho].
    apply filter_In in Hin as [_ Hn]. by rewrite Ho in Hn.
  - intros other Hne. f_equal.
    induction (players_ st) as [|o l IH]; simpl; [done|].
    destruct (hasId playerId o) eqn:E1; simpl.
    + destruct (hasId other o) eqn:E2; [|done].
      apply hasId_true in E1 as (q & -> & E1).
      apply hasId_true in E2 as (q' & [= <-] & E2). congruence.
    + by rewrite IH.
Qed.

(** X17.  The player list never holds a null entry or an id twice: every
    sequence of public operations that runs from a new world state ends
    in such a list, and there [removePlayer] takes out at most one
    entry. *)
Theorem player_ids_stay_distinct (ops : list Op) (st : GameState)
    (playerId : string) :
  run ops initial = Some st →
  playersDistinct st
  ∧ (length (players_ st) ≤ length (players_ (removePlayer playerId st)) + 1)%nat.
Proof.
  intros Hrun.
  assert (Hd : playersDistinct st).
  { assert (Hinit : playersDistinct initial).
    { split; [by intros ?%elem_of_nil|apply NoDup_nil_2]. }
    revert Hrun Hinit. generalize initial.
    induction ops as [|op ops IH]; simpl; intros st0 Hrun Hd0.
    - by injection Hrun as <-.
    - destruct (apply op st0) as [st1|] eqn:E; [|done].
      apply (IH st1 Hrun). by apply (playersDistinct_apply op st0). }
  split; [done|].
  destruct Hd as [_ Hnd]. unfold playerIds in Hnd. simpl.
  induction (players_ st) as [|o l IH]; simpl; [lia|].
  destruct o as [q|]; simpl in *.
  - apply NoDup_cons in Hnd as [Hq Hnd].
    destruct (String.eqb_spec (Player.getId q) playerId) as [E|E]; simpl.
    + assert (List.filter (λ p, negb (hasId playerId p)) l = l) as ->; [|lia].
      apply forallb_filter_id, forallb_forall. intros o Ho.
      apply negb_true_iff, not_true_iff_false. intros Hid.
      apply Hq, elem_of_playerIds. rewrite E. apply existsb_exists. eauto.
    + specialize (IH Hnd). lia.
  - specialize (IH Hnd). lia.
Qed.

Lemma player_ids_stay_distinct_witness :
  playersDistinct busyWorldState
  ∧ (length (players_ busyWorldState)
     ≤ length (players_ (removePlayer "A" busyWorldState)) + 1)%nat.
Proof.
  apply (player_ids_stay_distinct
           [OpAddPlayer (Some playerA); OpTrackPlayerJoined "A";
            OpAddPlayer (Some playerB);
            OpAddFood (mkFood (mkPoint 4 3));
            OpTrackFoodAdded (mkPoint 4 3);
            OpAddFood (mkFood (mkPoint 7 7)); OpIncrementRound;
            OpUpdateTimestamp 1706342400000;
            OpSetNextRoundTimestamp 1706342400500]).
  reflexivity.
Defined.

End WorldExtras.

Section SessionFacts.
Import DatabaseManager PlayerManager.

(** [login] for one uid leaves the rows of the other uids alone. *)
Lemma login_other_row (env : LoginEnv) (uid proof u : string)
    (pm : PlayerManager) :
  u ≠ uid →
  players (db_ (login env uid proof pm).2) !! u = players (db_ pm) !! u.
Proof.
  intros Hne. unfold login, checkLogin.
  destruct (verified env); simpl; [|done].
  unfold selectKeyPaste.
  destruct (connected_ (db_ pm)) eqn:Hc.
  2: { simpl. unfold insertPlayer. rewrite Hc. by simpl. }
  destruct (players (db_ pm) !! uid) as [r|] eqn:Hr; simpl.
  - destruct (String.eqb (paste r) proof).
    + unfold updateLastLogin. rewrite Hc. simpl.
      by rewrite lookup_alter_ne.
    + unfold updatePasteKey. rewrite Hc, Hr.
      destruct (keyTaken uid (generated env) (players (db_ pm)));
        simpl; [done|]. by rewrite lookup_insert_ne.
  - unfold insertPlayer. rewrite Hc, Hr.
    destruct (keyTaken uid (generated env) (players (db_ pm)));
      simpl; [done|]. by rewrite lookup_insert_ne.
Qed.

(** [login] keeps the key cache within the table. *)
Lemma login_cacheSound (env : LoginEnv) (uid proof : string)
    (pm : PlayerManager) :
  cacheSound pm → cacheSound (login env uid proof pm).2.
Proof.
  intros Hcs. unfold login, checkLogin.
  destruct (verified env); simpl; [|done].
  unfold selectKeyPaste.
  destruct (connected_ (db_ pm)) eqn:Hc.
  2: { simpl. unfold insertPlayer. rewrite Hc. by simpl. }
  destruct (players (db_ pm) !! uid) as [r|] eqn:Hr; simpl.
  - destruct (String.eqb (paste r) proof).
    + unfold updateLastLogin. rewrite Hc. simpl.
      intros k u Hk. simpl in *. destruct (Hcs k u Hk) as (r' & Hr' & Hkey).
      destruct (decide (u = uid)) as [->|Hne].
      * rewrite lookup_alter_eq, Hr'. simpl. by eauto.
      * rewrite lookup_alter_ne by done. by eauto.
    + unfold updatePasteKey. rewrite Hc, Hr.
      destruct (keyTaken uid (generated env) (players (db_ pm)));
        simpl; [done|].
      intros k u. simpl. rewrite lookup_insert_Some.
      intros [[<- <-]|[Hnk Hk]].
      * rewrite lookup_insert_eq. by eauto.
      * apply lookup_delete_Some in Hk as [Hnk' Hk].
        destruct (Hcs k u Hk) as (r' & Hr' & Hkey).
        assert (u ≠ uid) by (intros ->; congruence).
        rewrite lookup_insert_ne by done. by eauto.
  - unfold insertPlayer. rewrite Hc, Hr.
    destruct (keyTaken uid (generated env) (players (db_ pm)));
      simpl; [done|].
    intros k u. simpl. rewrite lookup_insert_Some.
    intros [[<- <-]|[Hnk Hk]].
    + rewrite lookup_insert_eq. by eauto.
    + destruct (Hcs k u Hk) as (r' & Hr' & Hkey).
      assert (u ≠ uid) by (intros ->; congruence).
      rewrite lookup_insert_ne by done. by eauto.
Qed.

Lemma uidInGame_true (uid : string) (pm : PlayerManager) :
  uidInGame uid pm = true
  ↔ ∃ i p, PlayerManager.players_ pm !! i = Some p
           ∧ Player.uid_ p = uid ∧ Player.inGame_ p = true.
Proof.
  unfold uidInGame. rewrite bool_decide_eq_true, map_Exists_lookup. done.
Qed.

(** What a successful [join] did. *)
Lemma join_success (env : JoinEnv) (key name color : string)
    (pm pm' : PlayerManager) (r : JoinResult) :
  join env key name color pm = (r, pm') → success r = true →
  ∃ uid playerColor,
    validateKey key pm = Some uid
    ∧ Validator.isValidPlayerName name = true
    ∧ playerColor = (if (String.length color =? 0)%nat
                     then randomColor env else color)
    ∧ uidInGame uid pm = false
    ∧ r = mkJoinResult true (newToken env) (newPlayerId env) ""
    ∧ pm' = mkPlayerManager (db_ pm) (uidToKey_ pm) (keyToUid_ pm)
              (<[newToken env := newPlayerId env]> (tokenToPlayerId_ pm))
              (<[newPlayerId env :=
                   Player.mkPlayer uid (newPlayerId env) name playerColor
                     key (newToken env) Snake.default true]>
                 (PlayerManager.players_ pm)).
Proof.
  unfold join. destruct (validateKey key pm) as [uid|] eqn:Hv; [|by intros [= <- _] Hs].
  destruct (Validator.isValidPlayerName name); simpl; [|by intros [= <- _] Hs].
  destruct (String.length color =? 0)%nat eqn:El.
  - destruct (uidInGame uid pm) eqn:Hu; [by intros [= <- _] Hs|].
    intros [= <- <-] _. by exists uid, (randomColor env).
  - destruct (Validator.isValidColor color); simpl; [|by intros [= <- _] Hs].
    destruct (uidInGame uid pm) eqn:Hu; [by intros [= <- _] Hs|].
    intros [= <- <-] _. by exists uid, color.
Qed.

(** What a failed [join] did: nothing. *)
Lemma join_failure (env : JoinEnv) (key name color : string)
    (pm pm' : PlayerManager) (r : JoinResult) :
  join env key name color pm = (r, pm') → success r = false →
  pm' = pm ∧ token r = ""%string ∧ playerId r = ""%string.
Proof.
  unfold join. destruct (validateKey key pm) as [uid|]; [|by intros [= <- <-]].
  destruct (Validator.isValidPlayerName name); simpl; [|by intros [= <- <-]].
  destruct (String.length color =? 0)%nat.
  - destruct (uidInGame uid pm); [by intros [= <- <-]|].
    by intros [= <- <-].
  - destruct (Validator.isValidColor color); simpl; [|by intros [= <- <-]].
    destruct (uidInGame uid pm); [by intros [= <- <-]|].
    by intros [= <- <-].
Qed.

End SessionFacts.

Section SessionExtras.
Import DatabaseManager PlayerManager.

(** X18.  A key handed out by [login] is accepted by [validateKey] and
    resolves to the uid that logged in.  When the table's keys are
    pairwise distinct and every cached key belongs to the row of its
    uid, a login that returns a non-empty key leaves a manager in which
    [validateKey] of that key answers the uid, and both conditions hold
    again afterwards. *)
Theorem issued_key_resolves_to_uid (env : LoginEnv) (uid proof k : string)
    (pm pm' : PlayerManager) :
  keysUnique (db_ pm) → cacheSound pm →
  login env uid proof pm = (k, pm') → k ≠ ""%string →
  validateKey k pm' = Some uid
  ∧ keysUnique (db_ pm') ∧ cacheSound pm'.
Proof.
  intros Hku Hcs Hl Hk.
  destruct (login_success_row _ _ _ _ _ _ Hl Hk) as (Hc & r & Hr & Hkey & _).
  assert (Hku' : keysUnique (db_ pm')).
  { pose proof (login_keysUnique env uid proof pm Hku) as H.
    by rewrite Hl in H. }
  assert (Hcs' : cacheSound pm').
  { pose proof (login_cacheSound env uid proof pm Hcs) as H.
    by rewrite Hl in H. }
  split; [|done]. unfold validateKey.
  destruct (keyToUid_ pm' !! k) as [u|] eqn:E.
  - destruct (Hcs' k u E) as (r' & Hr' & Hkey'). f_equal.
    apply (Hku' u uid r' r); congruence.
  - by apply (selectUidByKey_unique k uid r).
Qed.

Lemma issued_key_resolves_to_uid_witness :
  validateKey "5f2a" loggedIn = Some "42"%string
  ∧ keysUnique (db_ loggedIn) ∧ cacheSound loggedIn.
Proof.
  apply (issued_key_resolves_to_uid firstLogin "42" "pasteA" "5f2a"
           freshManager loggedIn).
  - intros u1 u2 r1 r2 H1. simpl in H1. by rewrite lookup_empty in H1.
  - intros k u H. simpl in H. by rewrite lookup_empty in H.
  - vm_compute. reflexivity.
  - discriminate.
Defined.

(** X19.  Two accounts never hold the same key.  When the table's keys
    are pairwise distinct, a login of one uid that returns a key,
    followed by a login of another uid that returns a key, gives two
    different keys, whatever the key generator answered. *)
Theorem accounts_never_share_key (e1 e2 : LoginEnv)
    (u1 u2 p1 p2 k1 k2 : string) (pm pm1 pm2 : PlayerManager) :
  keysUnique (db_ pm) →
  login e1 u1 p1 pm = (k1, pm1) → k1 ≠ ""%string →
  login e2 u2 p2 pm1 = (k2, pm2) → k2 ≠ ""%string →
  u1 ≠ u2 → k1 ≠ k2.
Proof.
  intros Hku Hl1 Hk1 Hl2 Hk2 Hne E.
  destruct (login_success_row _ _ _ _ _ _ Hl1 Hk1) as (_ & r1 & Hr1 & Hkey1 & _).
  destruct (login_success_row _ _ _ _ _ _ Hl2 Hk2) as (_ & r2 & Hr2 & Hkey2 & _).
  pose proof (login_other_row e2 u2 p2 u1 pm1 Hne) as Hsame.
  rewrite Hl2 in Hsame. simpl in Hsame. rewrite <- Hsame in Hr1.
  pose proof (login_keysUnique e1 u1 p1 pm Hku) as Hku1.
  rewrite Hl1 in Hku1. simpl in Hku1.
  pose proof (login_keysUnique e2 u2 p2 pm1 Hku1) as Hku2.
  rewrite Hl2 in Hku2. simpl in Hku2.
  apply Hne, (Hku2 u1 u2 r1 r2); congruence.
Qed.

Lemma accounts_never_share_key_witness :
  (login firstLogin "42" "pasteA" freshManager).1
  ≠ (login secondLogin "77" "pasteC" loggedIn).1.
Proof.
  apply (accounts_never_share_key firstLogin secondLogin "42" "77"
           "pasteA" "pasteC" _ _ freshManager loggedIn
           (login secondLogin "77" "pasteC" loggedIn).2).
  - intros u1 u2 r1 r2 H1. simpl in H1. by rewrite lookup_empty in H1.
  - vm_compute. reflexivity.
  - vm_compute. discriminate.
  - vm_compute. reflexivity.
  - vm_compute. discriminate.
  - discriminate.
Defined.

(** X20.  [join] either opens a session or changes nothing.  A failed
    call returns the manager as it was, with an empty token and player
    id.  After a successful call the key resolved to a uid and the name
    was valid, [validateToken] of the returned token answers the
    returned player id, [getPlayerByToken] answers a player of that uid
    carrying the key, the name, the token and the id, in game and with a
    dead, empty snake, [isPlayerInGame] of the id is true, and
    [validateKey] answers for every key as before. *)
Theorem join_opens_session_or_nothing (env : JoinEnv)
    (key name color : string) (pm pm' : PlayerManager) (r : JoinResult) :
  join env key name color pm = (r, pm') →
  (success r = false ∧ pm' = pm
   ∧ token r = ""%string ∧ playerId r = ""%string)
  ∨ (success r = true
     ∧ Validator.isValidPlayerName name = true
     ∧ validateToken (token r) pm' = Some (playerId r)
     ∧ isPlayerInGame (playerId r) pm' = true
     ∧ (∀ k, validateKey k pm' = validateKey k pm)
     ∧ ∃ uid player,
         validateKey key pm = Some uid
         ∧ getPlayerByToken (token r) pm' = Some player
         ∧ getPlayerById (playerId r) pm' = Some player
         ∧ Player.uid_ player = uid
         ∧ Player.id_ player = playerId r
         ∧ Player.token_ player = token r
         ∧ Player.key_ player = key
         ∧ Player.name_ player = name
         ∧ Player.inGame_ player = true
         ∧ Player.snake_ player = Snake.default).
Proof.
  intros Hj. destruct (success r) eqn:Es.
  - right. split; [done|].
    destruct (join_success _ _ _ _ _ _ _ Hj Es)
      as (uid & pc & Hv & Hn & _ & _ & -> & ->).
    unfold validateToken, isPlayerInGame, getPlayerByToken, getPlayerById,
      validateKey. simpl.
    rewrite !lookup_insert_eq. simpl. rewrite ?lookup_insert_eq.
    repeat (split; [done|]).
    eexists uid, _. by repeat (split; [done|]).
  - left. split; [done|]. by apply (join_failure env key name color).
Qed.

Lemma join_opens_session_or_nothing_witness :
  validateToken "tokenA" (join firstJoin "5f2a" "ann" "" loggedIn).2
  = Some "p_42_123456"%string.
Proof.
  destruct (join_opens_session_or_nothing firstJoin "5f2a" "ann" ""
              loggedIn (join firstJoin "5f2a" "ann" "" loggedIn).2
              (join firstJoin "5f2a" "ann" "" loggedIn).1)
    as [(Hf & _)|(_ & _ & Ht & _)].
  - by destruct (join firstJoin "5f2a" "ann" "" loggedIn).
  - vm_compute in Hf. discriminate Hf.
  - exact Ht.
Defined.

(** X21.  One session per account.  After a successful [join], a further
    [join] with a key of the same uid, a valid name and an empty or
    valid colour is refused with the message Player already in game and
    changes nothing. *)
Theorem second_join_rejected (env env2 : JoinEnv)
    (key name color key2 name2 color2 : string)
    (pm pm' : PlayerManager) (r : JoinResult) :
  join env key name color pm = (r, pm') → success r = true →
  validateKey key2 pm = validateKey key pm →
  Validator.isValidPlayerName name2 = true →
  color2 = ""%string ∨ Validator.isValidColor color2 = true →
  join env2 key2 name2 color2 pm'
  = (joinError "Player already in game", pm').
Proof.
  intros Hj Es Hk2 Hn2 Hc2.
  destruct (join_success _ _ _ _ _ _ _ Hj Es)
    as (uid & pc & Hv & _ & _ & _ & -> & ->).
  unfold join.
  assert (validateKey key2
            (mkPlayerManager (db_ pm) (uidToKey_ pm) (keyToUid_ pm)
               (<[newToken env:=newPlayerId env]> (tokenToPlayerId_ pm))
               (<[newPlayerId env:=
                    Player.mkPlayer uid (newPlayerId env) name pc key
                      (newToken env) Snake.default true]>
                  (PlayerManager.players_ pm)))
          = Some uid) as ->.
  { rewrite <- Hv, <- Hk2. done. }
  rewrite Hn2. simpl.
  assert (Hin : uidInGame uid
            (mkPlayerManager (db_ pm) (uidToKey_ pm) (keyToUid_ pm)
               (<[newToken env:=newPlayerId env]> (tokenToPlayerId_ pm))
               (<[newPlayerId env:=
                    Player.mkPlayer uid (newPlayerId env) name pc key
                      (newToken env) Snake.default true]>
                  (PlayerManager.players_ pm))) = true).
  { apply uidInGame_true. eexists _, _. simpl.
    split; [apply lookup_insert_eq|done]. }
  destruct Hc2 as [->|Hc2].
  - simpl. by rewrite Hin.
  - destruct (String.length color2 =? 0)%nat; [by rewrite Hin|].
    rewrite Hc2. simpl. by rewrite Hin.
Qed.

Lemma second_join_rejected_witness :
  join secondJoin "5f2a" "bob" "#A0b1C2"
       (join firstJoin "5f2a" "ann" "" loggedIn).2
  = (joinError "Player already in game",
     (join firstJoin "5f2a" "ann" "" loggedIn).2).
Proof.
  apply (second_join_rejected firstJoin secondJoin "5f2a" "ann" ""
           "5f2a" "bob" "#A0b1C2" loggedIn _
           (join firstJoin "5f2a" "ann" "" loggedIn).1).
  - by destruct (join firstJoin "5f2a" "ann" "" loggedIn).
  - vm_compute. reflexivity.
  - reflexivity.
  - vm_compute. reflexivity.
  - right. vm_compute. reflexivity.
Defined.

(** X22.  [removePlayer] closes the session that [join] opened.  After a
    successful [join], removing the returned player id leaves a manager
    in which the returned token no longer validates, the id names no
    player and is not in game; if the id and the token were unused
    before the [join], the manager is exactly the one before the [join],
    so the account can join again. *)
Theorem removePlayer_closes_session (env : JoinEnv)
    (key name color : string) (pm pm' : PlayerManager) (r : JoinResult) :
  join env key name color pm = (r, pm') → success r = true →
  validateToken (token r) (removePlayer (playerId r) pm') = None
  ∧ getPlayerById (playerId r) (removePlayer (playerId r) pm') = None
  ∧ isPlayerInGame (playerId r) (removePlayer (playerId r) pm') = false
  ∧ (getPlayerById (playerId r) pm = None →
     validateToken (token r) pm = None →
     removePlayer (playerId r) pm' = pm).
Proof.
  intros Hj Es.
  destruct (join_success _ _ _ _ _ _ _ Hj Es)
    as (uid & pc & _ & _ & _ & _ & -> & ->).
  unfold validateToken, getPlayerById, isPlayerInGame, removePlayer. simpl.
  rewrite lookup_insert_eq. simpl.
  rewrite !lookup_delete_eq.
  repeat (split; [done|]).
  intros Hp Ht.
  rewrite !delete_insert_eq, !delete_id by done. by destruct pm.
Qed.

Lemma removePlayer_closes_session_witness :
  removePlayer "p_42_123456" (join firstJoin "5f2a" "ann" "" loggedIn).2
  = loggedIn.
Proof.
  destruct (removePlayer_closes_session firstJoin "5f2a" "ann" ""
              loggedIn (join firstJoin "5f2a" "ann" "" loggedIn).2
              (join firstJoin "5f2a" "ann" "" loggedIn).1)
    as (_ & _ & _ & Hback).
  - by destruct (join firstJoin "5f2a" "ann" "" loggedIn).
  - vm_compute. reflexivity.
  - apply Hback; vm_compute; reflexivity.
Defined.

End SessionExtras.

Section RequestFacts.
Import Validator.

Lemma length_chars (s : string) : List.length (chars s) = String.length s.
Proof. unfold chars. induction s as [|c s IH]; simpl; congruence. Qed.

Lemma length_string_of_list_ascii (l : list ascii) :
  String.length (string_of_list_ascii l) = List.length l.
Proof. induction l as [|c l IH]; simpl; congruence. Qed.

Lemma urlDecodeChars_percent (a b : ascii) (rest : list ascii) :
  urlDecodeChars ("%"%char :: a :: b :: rest)
  = match stoi16 a b with
    | Some value => toChar value :: urlDecodeChars rest
    | None => "%"%char :: urlDecodeChars (a :: b :: rest)
    end.
Proof. reflexivity. Qed.

Lemma urlDecodeChars_plain (c : ascii) (rest : list ascii) :
  c ≠ "%"%char →
  urlDecodeChars (c :: rest)
  = (if Ascii.eqb c "+" then " "%char else c) :: urlDecodeChars rest.
Proof.
  intros Hc. apply Ascii.eqb_neq in Hc.
  change (urlDecodeChars (c :: rest))
    with (if Ascii.eqb c "%"
          then match rest with
               | a :: b :: rest' =>
                 match stoi16 a b with
                 | Some value => toChar value :: urlDecodeChars rest'
                 | None => c :: urlDecodeChars rest
                 end
               | _ => c :: urlDecodeChars rest
               end
          else if Ascii.eqb c "+" then " "%char :: urlDecodeChars rest
          else c :: urlDecodeChars rest).
  rewrite Hc. by destruct (Ascii.eqb c "+").
Qed.

Lemma urlDecodeChars_short (rest : list ascii) :
  (List.length rest < 2)%nat →
  urlDecodeChars ("%"%char :: rest) = "%"%char :: urlDecodeChars rest.
Proof. destruct rest as [|a [|b rest]]; simpl; [done|done|lia]. Qed.

Lemma urlDecodeChars_length (s : list ascii) :
  (List.length (urlDecodeChars s) ≤ List.length s)%nat.
Proof.
  assert (H : ∀ n s, (List.length s < n)%nat →
            (List.length (urlDecodeChars s) ≤ List.length s)%nat).
  { induction n as [|n IH]; [lia|]. intros [|c rest] Hn; [done|].
    simpl in Hn.
    destruct (decide (c = "%"%char)) as [->|Hc].
    - destruct rest as [|a [|b rest']].
      + reflexivity.
      + rewrite urlDecodeChars_short by (simpl; lia).
        specialize (IH [a]). simpl in *. lia.
      + rewrite urlDecodeChars_percent. destruct (stoi16 a b).
        * specialize (IH rest'). simpl in *. lia.
        * specialize (IH (a :: b :: rest')). simpl in *. lia.
    - rewrite urlDecodeChars_plain by done.
      specialize (IH rest). simpl in *. lia. }
  apply (H (S (List.length s))). lia.
Qed.

Lemma stoi16_hexDigits (c : ascii) :
  match stoi16 (hexDigit (N_of_ascii c / 16))
               (hexDigit (N_of_ascii c mod 16)) with
  | Some value => toChar value = c
  | None => False
  end.
Proof. destruct c as [[] [] [] [] [] [] [] []]; vm_compute; reflexivity. Qed.

Lemma urlDecodeChars_percentEncodeAll (s : list ascii) :
  urlDecodeChars (percentEncodeAll s) = s.
Proof.
  induction s as [|c s IH]; [done|].
  change (percentEncodeAll (c :: s))
    with ("%"%char :: hexDigit (N_of_ascii c / 16)
            :: hexDigit (N_of_ascii c mod 16) :: percentEncodeAll s).
  rewrite urlDecodeChars_percent.
  pose proof (stoi16_hexDigits c) as H.
  destruct (stoi16 _ _); [|done]. by rewrite H, IH.
Qed.

End RequestFacts.

Section RequestExtras.
Import Validator.

(** X23.  A direction that the validator accepts always parses to a real
    direction.  [isValidDirection] accepts exactly the four lower-case
    names up, down, left and right; each is parsed by
    [DirectionUtils::fromString] without an exception, to the direction it
    names, never to NONE.  The names that [toString] writes, in upper
    case, are all rejected by the validator. *)
Theorem validated_direction_parses (s : string) :
  (isValidDirection s = true ↔ ∃ d, d ≠ NONE ∧ s = wireName d)
  ∧ (∀ d, d ≠ NONE →
       isValidDirection (wireName d) = true
       ∧ DirectionUtils.fromString (wireName d) = Some d)
  ∧ (∀ d, isValidDirection (DirectionUtils.toString d) = false).
Proof.
  split; [|split].
  - unfold isValidDirection. rewrite !orb_true_iff, !String.eqb_eq. split.
    + intros [[[->| ->]| ->]| ->];
        [by exists UP|by exists DOWN|by exists LEFT|by exists RIGHT].
    + intros ([] & Hd & ->); simpl; tauto.
  - by intros [] Hd.
  - by intros [].
Qed.

(** X24.  [urlDecode] never lengthens a string, and a string without a
    percent sign and without a plus sign is returned as it is. *)
Theorem urlDecode_never_longer (str : string) :
  (String.length (urlDecode str) ≤ String.length str)%nat
  ∧ ((∀ c, c ∈ chars str → c ≠ "%"%char ∧ c ≠ "+"%char) →
     urlDecode str = str).
Proof.
  unfold urlDecode. split.
  - rewrite length_string_of_list_ascii, <- length_chars.
    apply urlDecodeChars_length.
  - intros Hplain.
    assert (E : urlDecodeChars (chars str) = chars str).
    { induction (chars str) as [|c l IH]; [done|].
      destruct (Hplain c) as [H1 H2]; [by left|].
      rewrite urlDecodeChars_plain by done.
      apply Ascii.eqb_neq in H2. rewrite H2. f_equal.
      apply IH. intros c' Hc'. apply Hplain. by right. }
    rewrite E. apply string_of_list_ascii_of_string.
Qed.

(** X25.  [urlDecode] undoes percent-encoding: for every string, writing
    each byte as a percent sign followed by its two upper-case
    hexadecimal digits and decoding the result gives the string back. *)
Theorem urlDecode_percentEncode_round_trip (str : string) :
  urlDecode (string_of_list_ascii (percentEncodeAll (chars str))) = str.
Proof.
  unfold urlDecode, chars at 1.
  rewrite list_ascii_of_string_of_list_ascii, urlDecodeChars_percentEncodeAll.
  apply string_of_list_ascii_of_string.
Qed.

End RequestExtras.

Section ClientFacts.

Lemma applyPlayerDelta_same_chain (c : Client.Snake) (inv : Z) :
  Client.applyPlayerDelta
    (Client.mkPlayerDelta (Client.head c)
       (Z.of_nat (List.length (Client.blocks c))) inv) c
  = Some (Client.mkSnake (Client.id c) (Client.name c) (Client.color c)
            (Client.head c) (Client.blocks c)
            (Z.of_nat (List.length (Client.blocks c))) inv).
Proof.
  unfold Client.applyPlayerDelta. simpl.
  assert (PointOps.eqb (Client.head c) (Client.head c) = true) as ->
    by (by apply Point_eqb_spec).
  simpl. by rewrite Z.eqb_refl.
Qed.

Lemma shrinkTo_done (fuel : nat) (new_length : Z) (bs : list Point) :
  Z.of_nat (List.length bs) ≤ new_length →
  Client.shrinkTo fuel new_length bs = Some bs.
Proof.
  intros Hle.
  assert (E : (new_length <? Z.of_nat (List.length bs)) = false)
    by (apply Z.ltb_ge; lia).
  destruct fuel; simpl; by rewrite E.
Qed.

Lemma shrinkTo_once (front : list Point) (tail : Point) :
  Client.shrinkTo (List.length (front ++ [tail]))
    (Z.of_nat (List.length front)) (front ++ [tail])
  = Some front.
Proof.
  assert (El : List.length (front ++ [tail]) = S (List.length front)).
  { rewrite length_app. simpl. lia. }
  rewrite El. cbn [Client.shrinkTo]. rewrite El.
  assert (E : (Z.of_nat (List.length front)
               <? Z.of_nat (S (List.length front))) = true)
    by (apply Z.ltb_lt; lia).
  rewrite E, removelast_last.
  destruct (front ++ [tail]) eqn:Ef; [by destruct front|].
  apply shrinkTo_done. lia.
Qed.

Lemma applyPlayerDelta_moved (c : Client.Snake) (nh : Point) (inv : Z)
    (rest : list Point) (tail : Point) (grown : bool) :
  nh ≠ Client.head c →
  Client.blocks c = rest ++ [tail] →
  Client.applyPlayerDelta
    (Client.mkPlayerDelta nh
       (Z.of_nat (List.length (if grown then nh :: rest ++ [tail]
                               else nh :: rest))) inv) c
  = Some (Client.mkSnake (Client.id c) (Client.name c) (Client.color c) nh
            (if grown then nh :: rest ++ [tail] else nh :: rest)
            (Z.of_nat (List.length (if grown then nh :: rest ++ [tail]
                                    else nh :: rest))) inv).
Proof.
  intros Hne Hb. unfold Client.applyPlayerDelta.
  cbn [Client.new_head Client.new_length Client.new_invincible_rounds].
  assert (PointOps.eqb (Client.head c) nh = false) as ->.
  { apply not_true_iff_false. intros E. apply Point_eqb_spec in E. done. }
  cbn [negb]. rewrite Hb. destruct grown.
  - by rewrite shrinkTo_done by lia.
  - change (nh :: rest ++ [tail]) with ((nh :: rest) ++ [tail]).
    by rewrite shrinkTo_once.
Qed.

End ClientFacts.

Section ClientExtras.

(** X26.  The client's chain follows the server's.  Let the client's
    record of a snake show the chain of the server's snake.  After any
    one operation on the server's snake other than [kill], the record
    that [toDeltaJson] publishes for it exists, and the update step of
    [parseDeltaState] turns the client's record into one that shows the
    new chain, with the new length and invincibility counter. *)
Theorem client_chain_follows_server (c : Client.Snake) (s s' : Snake.Snake)
    (op : SnakeOp) :
  mirrorsServer c s → op ≠ SKill → applySnake op s = Some s' →
  ∃ d c', deltaOf s' = Some d
          ∧ Client.applyPlayerDelta d c = Some c'
          ∧ mirrorsServer c' s'
          ∧ Client.length c' = Snake.getLength s'
          ∧ Client.invincible_rounds c' = Snake.invincibleRounds_ s'.
Proof.
  intros [Hb Hh] Hop Happ.
  assert (Hsame : Snake.blocks_ s' = Snake.blocks_ s →
            ∃ d c', deltaOf s' = Some d
              ∧ Client.applyPlayerDelta d c = Some c'
              ∧ mirrorsServer c' s'
              ∧ Client.length c' = Snake.getLength s'
              ∧ Client.invincible_rounds c' = Snake.invincibleRounds_ s').
  { intros E. unfold deltaOf, Snake.getLength. rewrite E, Hh. simpl.
    eexists _, _. split; [done|]. rewrite <- Hb.
    split; [apply applyPlayerDelta_same_chain|].
    split; [|done]. split; simpl; [by rewrite E|by rewrite E]. }
  assert (∃ body, Snake.blocks_ s = Client.head c :: body) as [body Hbs].
  { destruct (Snake.blocks_ s) as [|h body]; [done|].
    injection Hh as ->. by exists body. }
  destruct op as [| |dir|rounds| |]; simpl in Happ; try done.
  - unfold Snake.move in Happ.
    destruct (Snake.alive_ s) eqn:Ha.
    2: { unfold Snake.moveWithDelta in Happ. rewrite Ha in Happ.
         simpl in Happ. injection Happ as <-. by apply Hsame. }
    destruct (decide (Snake.currentDirection_ s = NONE)) as [Hd|Hd].
    { unfold Snake.moveWithDelta in Happ. rewrite Ha, Hd in Happ.
      simpl in Happ. injection Happ as <-. by apply Hsame. }
    destruct (moveWithDelta_alive s _ body Ha Hd Hbs)
      as (nh & rest & tail & Hs & Hr & Hm).
    rewrite Hm in Happ. simpl in Happ.
    pose proof (step_new _ _ _ Hs) as Hne.
    rewrite Hr in Hb.
    pose proof (applyPlayerDelta_moved c nh (Snake.invincibleRounds_ s)
                  rest tail (0 <? Snake.growthPending_ s) Hne Hb) as Hc.
    destruct (0 <? Snake.growthPending_ s); injection Happ as <-;
      unfold deltaOf, Snake.getLength; simpl;
      (eexists _, _; split; [done|]); rewrite ?Hr;
      (split; [exact Hc|]); done.
  - injection Happ as <-. by apply Hsame.
  - injection Happ as <-. apply Hsame. unfold Snake.setDirection.
    by destruct (_ && _).
  - injection Happ as <-. by apply Hsame.
  - injection Happ as <-. apply Hsame. unfold Snake.decreaseInvincibleRounds.
    by destruct (0 <? _).
Qed.

Lemma client_chain_follows_server_witness :
  ∃ d c', deltaOf (default cruisingSnake (Snake.move cruisingSnake)) = Some d
          ∧ Client.applyPlayerDelta d clientCruising = Some c'
          ∧ mirrorsServer c' (default cruisingSnake (Snake.move cruisingSnake))
          ∧ Client.length c'
            = Snake.getLength (default cruisingSnake (Snake.move cruisingSnake))
          ∧ Client.invincible_rounds c'
            = Snake.invincibleRounds_
                (default cruisingSnake (Snake.move cruisingSnake)).
Proof.
  apply (client_chain_follows_server clientCruising cruisingSnake _ SMove).
  - split; reflexivity.
  - discriminate.
  - reflexivity.
Defined.

(** X27.  The client's Manhattan distance is a metric on cells with
    small coordinates: it is never negative, zero exactly between a cell
    and itself, the same in both directions, and obeys the triangle
    inequality. *)
Theorem distance_is_metric (a b c : Point) :
  smallPoint a → smallPoint b → smallPoint c →
  0 ≤ Client.distance a b < 2 ^ 31
  ∧ (Client.distance a b = 0 ↔ a = b)
  ∧ Client.distance a b = Client.distance b a
  ∧ Client.distance a c ≤ Client.distance a b + Client.distance b c.
Proof.
  unfold smallPoint, Client.distance. destruct a, b, c. simpl.
  intros Ha Hb Hc. split; [lia|]. split; [|lia]. split.
  - intros H. f_equal; lia.
  - intros [= -> ->]. lia.
Qed.

Lemma distance_is_metric_witness :
  0 ≤ Client.distance (mkPoint 3 3) (mkPoint 4 4) < 2 ^ 31
  ∧ (Client.distance (mkPoint 3 3) (mkPoint 4 4) = 0
     ↔ mkPoint 3 3 = mkPoint 4 4)
  ∧ Client.distance (mkPoint 3 3) (mkPoint 4 4)
    = Client.distance (mkPoint 4 4) (mkPoint 3 3)
  ∧ Client.distance (mkPoint 3 3) (mkPoint 7 1)
    ≤ Client.distance (mkPoint 3 3) (mkPoint 4 4)
      + Client.distance (mkPoint 4 4) (mkPoint 7 1).
Proof.
  apply (distance_is_metric (mkPoint 3 3) (mkPoint 4 4) (mkPoint 7 1));
    unfold smallPoint; simpl; lia.
Defined.

End ClientExtras.
